(** * Adaptive Simpson quadrature over a shared LIFO work store

    A shallow embedding of the quadrature programs of this repository:

    - [src/lifo-algorithm/solver2-1Queue.c]: the bounded array-backed stack
      ([enqueue], [dequeue], [init], [isempty], [size]), the worker loop of
      [simpson] and the driver [main]: module [WorkQueue];
    - the second work-queue variant (same stack, a worker loop with a shared
      [done] flag): module [Flagged];
    - the recursive variant ([simpson] calling itself on the two halves):
      [simpson_rec]; with [depth] and [max_task_depth]: [simpson_tasks], and
      with its tasks run in any order: module [TaskPool];
    - the integrand: [euler] and [func1].

    The three programs share the [struct Interval] and the refinement kernel
    (the two Simpson estimates, the acceptance test and the split).

    The arithmetic of C's [double] is kept abstract in an interface
    ([Double]). It is instantiated by IEEE 754 binary64 (the primitive
    floats), which is what the compiled program computes with when every
    operation is rounded to [double] (no excess precision, no contraction),
    and by the rationals, which is the arithmetic without rounding.

    The threads of the work-queue programs are interleaved at the grain of
    their critical sections and atomic updates; the integrand is a pure
    function. *)

From stdpp Require Import base list.
From Stdlib Require Import ZArith QArith Qabs Qround Qpower Floats Lia Lqa.

Set Default Proof Using "Type".
Local Open Scope Z_scope.

(** ** The arithmetic of [double] *)

(** The operations and literals that the source applies to [double]s. *)
Class Double (T : Type) := {
  dadd : T -> T -> T;
  dsub : T -> T -> T;
  dmul : T -> T -> T;
  ddiv : T -> T -> T;
  fabs : T -> T;
  dlt : T -> T -> bool;          (* the C comparison [<] *)
  dlit : Z -> T;                 (* the literals 0.0, 2.0, 4.0, 6.0, 10.0, 12.0, 15.0 *)
  dfloor : T;                    (* the literal 1.0e-12 *)
  dmicro : T                     (* the literal 1e-06 *)
}.

Declare Scope double_scope.
Delimit Scope double_scope with D.
Infix "+" := dadd : double_scope.
Infix "-" := dsub : double_scope.
Infix "*" := dmul : double_scope.
Infix "/" := ddiv : double_scope.

(** IEEE 754 binary64, round to nearest even. An integer literal is exact
    up to 2^53. [1.0e-12] and [1e-06] are the doubles nearest to 10^-12 and
    10^-6, written in hexadecimal. *)
Definition float_of_Z (z : Z) : float :=
  match z with
  | Z0 => PrimFloat.zero
  | Zpos p => PrimFloat.of_uint63 (Uint63.of_Z (Zpos p))
  | Zneg p => PrimFloat.opp (PrimFloat.of_uint63 (Uint63.of_Z (Zpos p)))
  end.

#[export] Instance binary64 : Double float := {
  dadd := PrimFloat.add;
  dsub := PrimFloat.sub;
  dmul := PrimFloat.mul;
  ddiv := PrimFloat.div;
  fabs := PrimFloat.abs;
  dlt := PrimFloat.ltb;
  dlit := float_of_Z;
  dfloor := 0x1.19799812dea11p-40%float;
  dmicro := 0x1.0c6f7a0b5ed8dp-20%float
}.

(** Arithmetic without rounding. *)
Definition Qltb (x y : Q) : bool := negb (Qle_bool y x).

#[export] Instance exact : Double Q := {
  dadd := Qplus;
  dsub := Qminus;
  dmul := Qmult;
  ddiv := Qdiv;
  fabs := Qabs;
  dlt := Qltb;
  dlit := inject_Z;
  dfloor := 1 # 1000000000000;
  dmicro := 1 # 1000000
}.

(** ** Process exits *)

(** The three [exit] calls of the work-queue programs, by their message. *)
Inductive Fatal :=
  | QueueOverflow      (* "Maximum queue size exceeded - exiting", exit(1) *)
  | EmptyExtract       (* "Attempt to extract from empty queue - exiting", exit(1) *)
  | Converged.         (* "Convergence reached. Terminating the program.", exit(0) *)

Definition exit_code (e : Fatal) : Z :=
  match e with
  | QueueOverflow | EmptyExtract => 1
  | Converged => 0
  end.

(** What a call does: it returns, the process exits inside it, or it reads
    the array outside its bounds (no defined behaviour). *)
Inductive result (A : Type) :=
  | Ok (a : A)
  | Exit (e : Fatal)
  | Undefined.
Arguments Ok {A} a.
Arguments Exit {A} e.
Arguments Undefined {A}.

Section Quadrature.

Context {T : Type} `{Double T}.

(** ** struct Interval *)

Record Interval := {
  left : T;      (* left boundary *)
  right : T;     (* right boundary *)
  tol : T;       (* tolerance *)
  f_left : T;    (* function value at left boundary *)
  f_mid : T;     (* function value at midpoint *)
  f_right : T    (* function value at right boundary *)
}.

(** ** The refinement kernel

    The locals of the loop body of [simpson], in the order of the source. *)

Section Kernel.
Local Open Scope double_scope.
Variable func : T -> T.
Variable interval : Interval.

Definition h : T := right interval - left interval.
Definition c : T := (left interval + right interval) / dlit 2.
Definition d : T := (left interval + c) / dlit 2.
Definition e : T := (c + right interval) / dlit 2.
Definition fd : T := func d.
Definition fe : T := func e.

(* integral estimates using 3 and 5 points respectively *)
Definition q1 : T :=
  h / dlit 6 * (f_left interval + dlit 4 * f_mid interval + f_right interval).
Definition q2 : T :=
  h / dlit 12 * (f_left interval + dlit 4 * fd + dlit 2 * f_mid interval
                 + dlit 4 * fe + f_right interval).

(* (fabs(q2 - q1) < interval.tol) || ((interval.right - interval.left) < 1.0e-12) *)
Definition accepts : bool :=
  dlt (fabs (q2 - q1)) (tol interval)
  || dlt (right interval - left interval) dfloor.

(* q2 + (q2 - q1) / 15.0 *)
Definition contribution : T := q2 + (q2 - q1) / dlit 15.

Definition i1 : Interval :=
  {| left := left interval; right := c; tol := tol interval;
     f_left := f_left interval; f_mid := fd; f_right := f_mid interval |}.

Definition i2 : Interval :=
  {| left := c; right := right interval; tol := tol interval;
     f_left := f_mid interval; f_mid := fe; f_right := f_right interval |}.

End Kernel.

(** ** The recursive integrator

    [simpson] of the recursive variant. The two recursive calls are OpenMP
    tasks joined by [taskwait] before the sum; they share nothing, so the
    value is that of the sequential calls. The recursion is not structural:
    [fuel] bounds its depth and [None] means the bound was reached. *)

Fixpoint simpson_rec (fuel : nat) (func : T -> T) (interval : Interval) : option T :=
  match fuel with
  | O => None
  | S n =>
      if accepts func interval then Some (contribution func interval)
      else
        match simpson_rec n func (i1 func interval),
              simpson_rec n func (i2 func interval) with
        | Some quad1, Some quad2 => Some (quad1 + quad2)%D
        | _, _ => None
        end
  end.

(** The accepted intervals of the recursion, left to right. *)
Fixpoint leaves (fuel : nat) (func : T -> T) (interval : Interval) : option (list Interval) :=
  match fuel with
  | O => None
  | S n =>
      if accepts func interval then Some [interval]
      else
        match leaves n func (i1 func interval), leaves n func (i2 func interval) with
        | Some l1, Some l2 => Some (l1 ++ l2)
        | _, _ => None
        end
  end.

(** ** struct Queue

    The array [entry] and the index [top] of the last entry. The lock of the
    struct serialises the bodies of [enqueue], [dequeue] and [isempty]: each
    is one atomic function of the queue. *)

Definition MAXQUEUE : Z := 10000.

Record Queue := {
  entry : list Interval;   (* array of queue entries *)
  top : Z                  (* index of last entry *)
}.

(* add an interval to the queue *)
Definition enqueue (interval : Interval) (queue_p : Queue) : result Queue :=
  if decide (top queue_p = MAXQUEUE - 1) then Exit QueueOverflow
  else
    let top' := top queue_p + 1 in
    if decide (0 <= top' < Z.of_nat (length (entry queue_p))) then
      Ok {| entry := <[Z.to_nat top' := interval]> (entry queue_p); top := top' |}
    else Undefined.

(* extract last interval from queue *)
Definition dequeue (queue_p : Queue) : result (Interval * Queue) :=
  if decide (top queue_p = -1) then Exit EmptyExtract
  else if decide (top queue_p < 0) then Undefined
  else
    match entry queue_p !! Z.to_nat (top queue_p) with
    | Some interval =>
        Ok (interval, {| entry := entry queue_p; top := top queue_p - 1 |})
    | None => Undefined
    end.

(* initialise queue *)
Definition init (queue_p : Queue) : Queue :=
  {| entry := entry queue_p; top := -1 |}.

(* return whether queue is empty *)
Definition isempty (queue_p : Queue) : bool := bool_decide (top queue_p = -1).

(* get current number of queue entries *)
Definition size (queue_p : Queue) : Z := top queue_p + 1.

(** The entries that are in the queue: the slots [0 .. top] of the array,
    bottom first. The slots above [top] hold what was left there. *)
Definition live (queue_p : Queue) : list Interval :=
  take (Z.to_nat (top queue_p + 1)) (entry queue_p).

(** A queue as [init], [enqueue] and [dequeue] leave it: an array of
    [MAXQUEUE] slots and [top] between -1 and [MAXQUEUE - 1]. *)
Definition queue_wf (queue_p : Queue) : Prop :=
  Z.of_nat (length (entry queue_p)) = MAXQUEUE /\ -1 <= top queue_p < MAXQUEUE.

End Quadrature.

Arguments Interval T : clear implicits.
Arguments Queue T : clear implicits.

(** [int] counters: an increment past [INT_MAX] has no defined behaviour. *)
Definition INT_MAX : Z := 2147483647.

(** * The work-queue program (src/lifo-algorithm/solver2-1Queue.c) *)

Module WorkQueue.
Section Program.

Context {T : Type} `{Double T}.

(** ** The shared memory and the workers

    [simpson] runs one [while (1)] loop per iteration of its parallel [for].
    All three [critical] constructs are unnamed, hence one lock: a loop is
    observed by the others only between them. A loop is therefore at one of
    three places. *)
Inductive Thread :=
  | Polling                           (* before the critical section that reads the queue *)
  | Holding (interval : Interval T)   (* past it, with a dequeued interval *)
  | Finished.                         (* left the loop by [break] *)

Record State := {
  queue : Queue T;
  total : Z;                    (* int total *)
  total_processed : Z;          (* int total_processed *)
  quad : T;                     (* double quad of simpson *)
  threads : list Thread;
  accepted : list (Interval T)  (* history, not in the source: the intervals
                                   accepted so far, last one first *)
}.

(** What a step of a loop leaves: the program goes on, the process has
    exited (with the memory at that point), or the behaviour is undefined. *)
Inductive Outcome :=
  | Running (s : State)
  | Exited (e : Fatal) (s : State)
  | Undef.

(** The first critical section and the test after it:
<<
    empty = isempty(queue);
    if (!empty) { interval = dequeue(queue); }
    ...
    if (empty) { break; }
>> *)
Definition poll (t : nat) (s : State) : Outcome :=
  let empty := isempty (queue s) in
  if empty then
    Running {| queue := queue s; total := total s;
               total_processed := total_processed s; quad := quad s;
               threads := <[t := Finished]> (threads s);
               accepted := accepted s |}
  else
    match dequeue (queue s) with
    | Ok (interval, queue') =>
        Running {| queue := queue'; total := total s;
                   total_processed := total_processed s; quad := quad s;
                   threads := <[t := Holding interval]> (threads s);
                   accepted := accepted s |}
    | Exit e => Exited e s
    | Undefined => Undef
    end.

(** The rest of the loop body: the kernel on the thread's own interval, then
    the critical section of the branch taken. *)
Definition process (func : T -> T) (t : nat) (interval : Interval T) (s : State) : Outcome :=
  if accepts func interval then
    (* quad += q2 + (q2 - q1) / 15.0; total_processed++; *)
    if decide (total_processed s = INT_MAX) then Undef
    else
      let s' := {| queue := queue s; total := total s;
                   total_processed := total_processed s + 1;
                   quad := (quad s + contribution func interval)%D;
                   threads := <[t := Polling]> (threads s);
                   accepted := interval :: accepted s |} in
      (* if (total_processed == total) { printf(...); exit(0); } *)
      if decide (total_processed s' = total s') then Exited Converged s'
      else Running s'
  else
    (* enqueue(i1, queue); enqueue(i2, queue); total += 2; *)
    match enqueue (i1 func interval) (queue s) with
    | Ok queue1 =>
        match enqueue (i2 func interval) queue1 with
        | Ok queue2 =>
            if decide (INT_MAX < total s + 2) then Undef
            else
              Running {| queue := queue2; total := total s + 2;
                         total_processed := total_processed s; quad := quad s;
                         threads := <[t := Polling]> (threads s);
                         accepted := accepted s |}
        | Exit e =>
            Exited e {| queue := queue1; total := total s;
                        total_processed := total_processed s; quad := quad s;
                        threads := threads s; accepted := accepted s |}
        | Undefined => Undef
        end
    | Exit e => Exited e s
    | Undefined => Undef
    end.

(** One step of loop [t]; a loop that has left does nothing. *)
Definition step (func : T -> T) (t : nat) (s : State) : Outcome :=
  match threads s !! t with
  | Some Polling => poll t s
  | Some (Holding interval) => process func t interval s
  | Some Finished | None => Running s
  end.

(** The loops interleaved as [schedule] says. *)
Fixpoint exec (func : T -> T) (schedule : list nat) (s : State) : Outcome :=
  match schedule with
  | [] => Running s
  | t :: schedule' =>
      match step func t s with
      | Running s' => exec func schedule' s'
      | o => o
      end
  end.

Definition finished (th : Thread) : bool :=
  match th with Finished => true | _ => false end.

(** ** simpson and main *)

(** Entry of [simpson]: [quad = 0.0] and [num_threads] loops at their head. *)
Definition start (num_threads : nat) (queue : Queue T) (total total_processed : Z) : State :=
  {| queue := queue; total := total; total_processed := total_processed;
     quad := dlit 0; threads := replicate num_threads Polling; accepted := [] |}.

(** How a call ends under a schedule: [simpson] returns [quad] once every
    loop has left (the end of the parallel region). *)
Inductive Run :=
  | Returns (quad : T)
  | Exits (e : Fatal)
  | UndefinedBehaviour
  | Unfinished (s : State).     (* the schedule ended first *)

Definition simpson (func : T -> T) (num_threads : nat) (schedule : list nat)
    (queue : Queue T) (total total_processed : Z) : Run :=
  match exec func schedule (start num_threads queue total total_processed) with
  | Running s => if forallb finished (threads s) then Returns (quad s) else Unfinished s
  | Exited e _ => Exits e
  | Undef => UndefinedBehaviour
  end.

(** The initial interval of [main], for any bounds and tolerance. *)
Definition whole (func : T -> T) (l r tolerance : T) : Interval T :=
  {| left := l; right := r; tol := tolerance;
     f_left := func l; f_mid := func ((l + r) / dlit 2)%D; f_right := func r |}.

(** [main] with its bounds and tolerance as parameters: [queue] is the
    local array before [init]; the value is what reaches
    [printf("Result = %e\n", quad)]. *)
Definition integrate (func : T -> T) (l r tolerance : T)
    (num_threads : nat) (schedule : list nat) (queue : Queue T) : Run :=
  match enqueue (whole func l r tolerance) (init queue) with
  | Ok queue' => simpson func num_threads schedule queue' 1 0
  | Exit e => Exits e
  | Undefined => UndefinedBehaviour
  end.

Definition main (func1 : T -> T) : nat -> list nat -> Queue T -> Run :=
  integrate func1 (dlit 0) (dlit 10) dmicro.

End Program.

Arguments Thread T : clear implicits.
Arguments State T : clear implicits.
Arguments Outcome T : clear implicits.
Arguments Run T : clear implicits.

End WorkQueue.

(** * The work-queue program with a termination flag

    The second variant keeps the stack and the kernel and changes the loop:
    the loops run in a plain parallel region and share a flag [done].
<<
    while (!done) {
        #pragma omp critical(queue_access)
        {
            if (!isempty(queue)) { interval = dequeue(queue); gotWork = true; }
            else if (total_processed == total) { done = true; }
        }
        if (done) break;
        if (!gotWork) { continue; }
        ... kernel ...
        if (accepted) {
            #pragma omp atomic
            quad += q2 + (q2 - q1) / 15.0;
            #pragma omp atomic
            total_processed++;
        } else {
            #pragma omp critical(queue_update)
            { enqueue(i1, queue); enqueue(i2, queue); total += 2; }
        }
    }
>>
    The two [critical] constructs have different names, so they do not
    exclude each other; inside them every queue operation, the comparison of
    the counters and every assignment is a step of its own. *)

Module Flagged.
Section Program.

Context {T : Type} `{Double T}.

Inductive Thread :=
  | AtWhile                              (* before the test of [while (!done)] *)
  | Entering                             (* before [critical(queue_access)] *)
  | Extract                              (* inside; [isempty] returned 0 *)
  | Compare                              (* inside; [isempty] returned 1 *)
  | SetDone                              (* inside; the counters were equal *)
  | TestDone (work : option (Interval T)) (* past it, before [if (done)] *)
  | AddQuad (interval : Interval T)      (* accepted, before [quad += ...] *)
  | CountProcessed                       (* before [total_processed++] *)
  | EnterUpdate (interval : Interval T)  (* rejected, before [critical(queue_update)] *)
  | PushSecond (interval : Interval T)   (* inside; [i1] is enqueued *)
  | AddTotal                             (* inside; before [total += 2] *)
  | Gone.                                (* out of the loop *)

Record State := {
  queue : Queue T;
  total : Z;
  total_processed : Z;
  quad : T;
  done : bool;
  queue_access : bool;     (* the lock of critical(queue_access) is taken *)
  queue_update : bool;     (* the lock of critical(queue_update) is taken *)
  threads : list Thread
}.

Inductive Outcome :=
  | Running (s : State)
  | Exited (e : Fatal) (s : State)
  | Undef.

Definition move (t : nat) (th : Thread) (s : State) : State :=
  {| queue := queue s; total := total s; total_processed := total_processed s;
     quad := quad s; done := done s; queue_access := queue_access s;
     queue_update := queue_update s; threads := <[t := th]> (threads s) |}.

(** One step of loop [t]. A loop in front of a taken lock waits. *)
Definition step (func : T -> T) (t : nat) (s : State) : Outcome :=
  match threads s !! t with
  | Some AtWhile =>
      Running (move t (if done s then Gone else Entering) s)
  | Some Entering =>
      if queue_access s then Running s
      else
        Running {| queue := queue s; total := total s;
                   total_processed := total_processed s; quad := quad s;
                   done := done s; queue_access := true;
                   queue_update := queue_update s;
                   threads := <[t := if isempty (queue s) then Compare else Extract]>
                                (threads s) |}
  | Some Extract =>
      match dequeue (queue s) with
      | Ok (interval, queue') =>
          Running {| queue := queue'; total := total s;
                     total_processed := total_processed s; quad := quad s;
                     done := done s; queue_access := false;
                     queue_update := queue_update s;
                     threads := <[t := TestDone (Some interval)]> (threads s) |}
      | Exit e => Exited e s
      | Undefined => Undef
      end
  | Some Compare =>
      if decide (total_processed s = total s) then Running (move t SetDone s)
      else
        Running {| queue := queue s; total := total s;
                   total_processed := total_processed s; quad := quad s;
                   done := done s; queue_access := false;
                   queue_update := queue_update s;
                   threads := <[t := TestDone None]> (threads s) |}
  | Some SetDone =>
      Running {| queue := queue s; total := total s;
                 total_processed := total_processed s; quad := quad s;
                 done := true; queue_access := false;
                 queue_update := queue_update s;
                 threads := <[t := TestDone None]> (threads s) |}
  | Some (TestDone work) =>
      if done s then Running (move t Gone s)                       (* break *)
      else
        match work with
        | None => Running (move t AtWhile s)                       (* continue *)
        | Some interval =>
            Running (move t (if accepts func interval then AddQuad interval
                             else EnterUpdate interval) s)
        end
  | Some (AddQuad interval) =>
      Running {| queue := queue s; total := total s;
                 total_processed := total_processed s;
                 quad := (quad s + contribution func interval)%D;
                 done := done s; queue_access := queue_access s;
                 queue_update := queue_update s;
                 threads := <[t := CountProcessed]> (threads s) |}
  | Some CountProcessed =>
      if decide (total_processed s = INT_MAX) then Undef
      else
        Running {| queue := queue s; total := total s;
                   total_processed := total_processed s + 1; quad := quad s;
                   done := done s; queue_access := queue_access s;
                   queue_update := queue_update s;
                   threads := <[t := AtWhile]> (threads s) |}
  | Some (EnterUpdate interval) =>
      if queue_update s then Running s
      else
        match enqueue (i1 func interval) (queue s) with
        | Ok queue' =>
            Running {| queue := queue'; total := total s;
                       total_processed := total_processed s; quad := quad s;
                       done := done s; queue_access := queue_access s;
                       queue_update := true;
                       threads := <[t := PushSecond interval]> (threads s) |}
        | Exit e => Exited e s
        | Undefined => Undef
        end
  | Some (PushSecond interval) =>
      match enqueue (i2 func interval) (queue s) with
      | Ok queue' =>
          Running {| queue := queue'; total := total s;
                     total_processed := total_processed s; quad := quad s;
                     done := done s; queue_access := queue_access s;
                     queue_update := queue_update s;
                     threads := <[t := AddTotal]> (threads s) |}
      | Exit e => Exited e s
      | Undefined => Undef
      end
  | Some AddTotal =>
      if decide (INT_MAX < total s + 2) then Undef
      else
        Running {| queue := queue s; total := total s + 2;
                   total_processed := total_processed s; quad := quad s;
                   done := done s; queue_access := queue_access s;
                   queue_update := false;
                   threads := <[t := AtWhile]> (threads s) |}
  | Some Gone | None => Running s
  end.

Fixpoint exec (func : T -> T) (schedule : list nat) (s : State) : Outcome :=
  match schedule with
  | [] => Running s
  | t :: schedule' =>
      match step func t s with
      | Running s' => exec func schedule' s'
      | o => o
      end
  end.

Definition gone (th : Thread) : bool :=
  match th with Gone => true | _ => false end.

(** Entry of [simpson]: [quad = 0.0], [done = false], the loops at their head. *)
Definition start (num_threads : nat) (queue : Queue T) (total total_processed : Z) : State :=
  {| queue := queue; total := total; total_processed := total_processed;
     quad := dlit 0; done := false; queue_access := false; queue_update := false;
     threads := replicate num_threads AtWhile |}.

Inductive Run :=
  | Returns (quad : T)
  | Exits (e : Fatal)
  | UndefinedBehaviour
  | Unfinished (s : State).     (* the schedule ended first *)

(** [simpson] returns [quad] at the end of the parallel region, when every
    loop is out. *)
Definition simpson (func : T -> T) (num_threads : nat) (schedule : list nat)
    (queue : Queue T) (total total_processed : Z) : Run :=
  match exec func schedule (start num_threads queue total total_processed) with
  | Running s => if forallb gone (threads s) then Returns (quad s) else Unfinished s
  | Exited e _ => Exits e
  | Undef => UndefinedBehaviour
  end.

(** [main] with its bounds and tolerance as parameters; the initial interval
    is that of the first program. *)
Definition integrate (func : T -> T) (l r tolerance : T)
    (num_threads : nat) (schedule : list nat) (queue : Queue T) : Run :=
  match enqueue (WorkQueue.whole func l r tolerance) (init queue) with
  | Ok queue' => simpson func num_threads schedule queue' 1 0
  | Exit e => Exits e
  | Undefined => UndefinedBehaviour
  end.

Definition main (func1 : T -> T) : nat -> list nat -> Queue T -> Run :=
  integrate func1 (dlit 0) (dlit 10) dmicro.

End Program.

Arguments Thread T : clear implicits.
Arguments State T : clear implicits.
Arguments Outcome T : clear implicits.
Arguments Run T : clear implicits.

End Flagged.

(** * Specification vocabulary *)

(** The sum of a weight over the loops. *)
Definition weigh {A : Type} (w : A -> Z) (l : list A) : Z :=
  foldr (fun a n => w a + n) 0 l.

Section Vocabulary.

Context {T : Type} `{Double T}.

(** ** Work-queue program: what is counted where *)

Definition holding (th : WorkQueue.Thread T) : Z :=
  match th with WorkQueue.Holding _ => 1 | _ => 0 end.

(** The number of loops that hold a dequeued interval. *)
Definition held (ths : list (WorkQueue.Thread T)) : Z := weigh holding ths.

(** Every interval ever created is in exactly one place: accepted, in the
    queue, in the hands of a loop, or split. With [s] splits so far, [total]
    is [2 * s + 1] and the first three places hold [s + 1] intervals. *)
Definition counted (s : WorkQueue.State T) : Prop :=
  queue_wf (WorkQueue.queue s)
  /\ 0 <= WorkQueue.total_processed s
  /\ 1 <= WorkQueue.total s
  /\ 2 * (WorkQueue.total_processed s + size (WorkQueue.queue s)
          + held (WorkQueue.threads s)) = WorkQueue.total s + 1.

(** The bounds on the counters. *)
Definition counters_ok (s : WorkQueue.State T) : Prop :=
  0 <= WorkQueue.total_processed s <= WorkQueue.total s
  /\ Z.odd (WorkQueue.total s) = true.

(** How a step of loop [t] that takes [s] to [s'] moves the counters: an
    acceptance adds 1 to [total_processed], a split adds 2 to [total], and
    nothing else touches them. *)
Definition counters_move (func : T -> T) (t : nat) (s s' : WorkQueue.State T) : Prop :=
  match WorkQueue.threads s !! t with
  | Some (WorkQueue.Holding interval) =>
      if accepts func interval then
        WorkQueue.total s' = WorkQueue.total s
        /\ WorkQueue.total_processed s' = WorkQueue.total_processed s + 1
      else
        WorkQueue.total s' = WorkQueue.total s + 2
        /\ WorkQueue.total_processed s' = WorkQueue.total_processed s
  | _ =>
      WorkQueue.total s' = WorkQueue.total s
      /\ WorkQueue.total_processed s' = WorkQueue.total_processed s
  end.

(** The memory that an outcome shows, if any. *)
Definition observed (o : WorkQueue.Outcome T) : option (WorkQueue.State T) :=
  match o with
  | WorkQueue.Running s | WorkQueue.Exited _ s => Some s
  | WorkQueue.Undef => None
  end.

(** The state in which [main] calls [simpson] on [num_threads] loops: the
    queue holds the initial interval and [total] is 1. *)
Definition seeded (func : T -> T) (l r tolerance : T) (num_threads : nat)
    (queue : Queue T) (s : WorkQueue.State T) : Prop :=
  exists queue',
    enqueue (WorkQueue.whole func l r tolerance) (init queue) = Ok queue'
    /\ s = WorkQueue.start num_threads queue' 1 0.

(** ** The invariant of struct Interval *)

(** The cached values are those of [func] at the boundaries and the midpoint. *)
Definition cached (func : T -> T) (interval : Interval T) : Prop :=
  f_left interval = func (left interval)
  /\ f_right interval = func (right interval)
  /\ f_mid interval = func ((left interval + right interval) / dlit 2)%D.

(** [left < right], with the comparison of the arithmetic. *)
Definition ordered (interval : Interval T) : Prop :=
  dlt (left interval) (right interval) = true.

(** A property of every interval that a state of the work-queue program
    holds anywhere: in the queue, in the hands of a loop, or accepted. *)
Definition everywhere (P : Interval T -> Prop) (s : WorkQueue.State T) : Prop :=
  Forall P (live (WorkQueue.queue s))
  /\ (forall t interval,
        WorkQueue.threads s !! t = Some (WorkQueue.Holding interval) -> P interval)
  /\ Forall P (WorkQueue.accepted s).

(** While nothing was split and nothing was accepted, some loop is not done
    and whatever is held or queued is the initial interval. *)
Definition untouched (seed : Interval T) (s : WorkQueue.State T) : Prop :=
  counted s /\ WorkQueue.total s = 1 /\ WorkQueue.total_processed s = 0
  /\ (forall t interval, WorkQueue.threads s !! t = Some (WorkQueue.Holding interval) -> interval = seed)
  /\ (live (WorkQueue.queue s) = [] \/ live (WorkQueue.queue s) = [seed])
  /\ (exists t th, WorkQueue.threads s !! t = Some th /\ th <> WorkQueue.Finished).

(** The midpoint as the kernel computes it lies strictly between two
    ordered boundaries. *)
Definition midpoint_between : Prop :=
  forall x y : T,
    dlt x y = true ->
    dlt x ((x + y) / dlit 2)%D = true /\ dlt ((x + y) / dlit 2)%D y = true.

(** What the two halves of a split take from their parent: the boundaries
    and the midpoint [c], the tolerance, and the cached values, with the
    values at the quarter points as their own midpoint values. *)
Definition halves_reuse (func : T -> T) (interval : Interval T) : Prop :=
  let quarter := ((left interval + c interval) / dlit 2)%D in
  let three_quarter := ((c interval + right interval) / dlit 2)%D in
  (left (i1 func interval) = left interval
   /\ right (i1 func interval) = c interval
   /\ tol (i1 func interval) = tol interval
   /\ f_left (i1 func interval) = f_left interval
   /\ f_mid (i1 func interval) = func quarter
   /\ f_right (i1 func interval) = f_mid interval)
  /\ (left (i2 func interval) = c interval
      /\ right (i2 func interval) = right interval
      /\ tol (i2 func interval) = tol interval
      /\ f_left (i2 func interval) = f_mid interval
      /\ f_mid (i2 func interval) = func three_quarter
      /\ f_right (i2 func interval) = f_right interval).

(** When every loop has left, the queue is empty. *)
Definition drained (s : WorkQueue.State T) : Prop :=
  forallb WorkQueue.finished (WorkQueue.threads s) = true ->
  isempty (WorkQueue.queue s) = true.

(** [quad] after the intervals of [ls] were accepted one by one, the last
    of the list first. *)
Definition accumulate (func : T -> T) (ls : list (Interval T)) (quad0 : T) : T :=
  foldr (fun interval quad => (quad + contribution func interval)%D) quad0 ls.

(** ** The flagged program *)

(** A loop inside [critical(queue_access)]. *)
Definition in_access (th : Flagged.Thread T) : Z :=
  match th with
  | Flagged.Extract | Flagged.Compare | Flagged.SetDone => 1
  | _ => 0
  end.

(** The lock of [critical(queue_access)] is taken exactly when one loop is
    inside, and a loop about to [dequeue] has a non-empty queue before it. *)
Definition guarded (s : Flagged.State T) : Prop :=
  queue_wf (Flagged.queue s)
  /\ weigh in_access (Flagged.threads s) = (if Flagged.queue_access s then 1 else 0)
  /\ (forall t, Flagged.threads s !! t = Some Flagged.Extract ->
      isempty (Flagged.queue s) = false).

(** The intervals of [ls], in order, abut and span [l, r]: the first starts
    at [l], each starts where the one before ends, and the last ends at
    [r]. *)
Fixpoint tiles (l r : T) (ls : list (Interval T)) : Prop :=
  match ls with
  | [] => False
  | [interval] => left interval = l /\ right interval = r
  | interval :: ls' => left interval = l /\ tiles (right interval) r ls'
  end.

(** A step of loop [t] does something: the loop has not left. *)
Definition productive (t : nat) (s : WorkQueue.State T) : bool :=
  match WorkQueue.threads s !! t with
  | Some WorkQueue.Polling | Some (WorkQueue.Holding _) => true
  | _ => false
  end.

(** The number of steps of a schedule in which a loop does something. *)
Fixpoint work (func : T -> T) (schedule : list nat) (s : WorkQueue.State T) : nat :=
  match schedule with
  | [] => 0
  | t :: schedule' =>
      (if productive t s then 1 else 0)
      + match WorkQueue.step func t s with
        | WorkQueue.Running s' => work func schedule' s'
        | _ => 0
        end
  end%nat.

(** An interval is still to be worked on: it is in the queue or in the
    hands of a loop. *)
Definition lingering (interval : Interval T) (s : WorkQueue.State T) : Prop :=
  interval ∈ live (WorkQueue.queue s)
  \/ exists t, WorkQueue.threads s !! t = Some (WorkQueue.Holding interval).

(** What a loop of the flagged program stands for in the count of the
    intervals: an interval in its hands, or, between the second [enqueue]
    and [total += 2], two intervals that [total] does not count yet. *)
Definition pending (th : Flagged.Thread T) : Z :=
  match th with
  | Flagged.TestDone (Some _) | Flagged.AddQuad _ | Flagged.CountProcessed
  | Flagged.EnterUpdate _ => 1
  | Flagged.AddTotal => -1
  | _ => 0
  end.

(** Before the first split is counted, the only loop is on its way from the
    initial interval to [total += 2]. *)
Definition first_split (seed : Interval T) (s : Flagged.State T)
    (th : Flagged.Thread T) : Prop :=
  Flagged.total_processed s = 0
  /\ match th with
     | Flagged.AtWhile | Flagged.Entering | Flagged.Extract =>
         live (Flagged.queue s) = [seed]
     | Flagged.TestDone (Some interval) | Flagged.EnterUpdate interval
     | Flagged.PushSecond interval => interval = seed
     | Flagged.AddTotal => True
     | _ => False
     end.

(** The flagged program with one loop, once the initial interval is
    rejected: the flag stays down and the loop stays in. *)
Definition spinning (seed : Interval T) (s : Flagged.State T) : Prop :=
  exists th,
    Flagged.threads s = [th]
    /\ Flagged.done s = false
    /\ queue_wf (Flagged.queue s)
    /\ (Flagged.total s = 1 \/ 3 <= Flagged.total s)
    /\ 2 * (Flagged.total_processed s + size (Flagged.queue s) + pending th)
       = Flagged.total s + 1
    /\ th <> Flagged.SetDone /\ th <> Flagged.Gone
    /\ (th = Flagged.Compare ->
        size (Flagged.queue s) = 0 /\ 3 <= Flagged.total s)
    /\ (Flagged.total s = 1 -> first_split seed s th).

(** Nothing was accepted yet, and whatever is queued or held is the initial
    interval. *)
Definition pristine (seed : Interval T) (s : WorkQueue.State T) : Prop :=
  WorkQueue.accepted s = []
  /\ Forall (fun interval => interval = seed) (live (WorkQueue.queue s))
  /\ (forall t interval,
        WorkQueue.threads s !! t = Some (WorkQueue.Holding interval) ->
        interval = seed).

End Vocabulary.

(** ** Widths *)

(** The width of an interval in arithmetic without rounding. *)
Definition width (interval : Interval Q) : Q := (right interval - left interval)%Q.

Section ExactWidths.

Context {T : Type} (real : T -> Q).

(** The width of an interval as a number: the difference of the numbers that
    its two boundaries stand for, [real] giving the number of a [double].
    Nothing is rounded here: the program computes with the boundaries, and
    the widths are compared outside of it. *)
Definition exact_width (interval : Interval T) : Q :=
  (real (right interval) - real (left interval))%Q.

Definition widths (l : list (Interval T)) : Q :=
  foldr (fun interval x => exact_width interval + x)%Q 0%Q l.

Definition hand_width (th : WorkQueue.Thread T) : Q :=
  match th with WorkQueue.Holding interval => exact_width interval | _ => 0%Q end.

Definition hands_width (ths : list (WorkQueue.Thread T)) : Q :=
  foldr (fun th x => hand_width th + x)%Q 0%Q ths.

(** The widths of the accepted, queued and held intervals add up to [w]. *)
Definition conserved (w : Q) (s : WorkQueue.State T) : Prop :=
  (widths (WorkQueue.accepted s) + widths (live (WorkQueue.queue s))
   + hands_width (WorkQueue.threads s) == w)%Q.

End ExactWidths.

(** The number that a binary64 value stands for, [(-1)^s * m * 2^e]. The
    infinities and NaN stand for no number; they are given 0. *)
Definition float_value (x : float) : Q :=
  match Prim2SF x with
  | S754_finite s m e => (inject_Z (if s then Z.neg m else Z.pos m) * 2 ^ e)%Q
  | _ => 0%Q
  end.

Definition pow2 (n : nat) : Q := inject_Z (2 ^ Z.of_nat n).

(** The number of halvings that take the width of an interval below the
    floor 1e-12: the least [n] with [width * 10^12 < 2^n]. *)
Definition levels (interval : Interval Q) : nat :=
  Z.to_nat (Z.log2_up (Qfloor (width interval * (1000000000000 # 1)) + 1)).

(** A bound on the size of the refinement tree of an interval:
    [2^(levels + 1) - 1] nodes. *)
Definition rank (interval : Interval Q) : Z :=
  2 ^ (Z.of_nat (levels interval) + 1) - 1.

(** The steps that a loop still has before it, at most, for what it holds. *)
Definition effort (th : WorkQueue.Thread Q) : Z :=
  match th with
  | WorkQueue.Polling => 1
  | WorkQueue.Holding interval => 2 * rank interval
  | WorkQueue.Finished => 0
  end.

(** The steps that a state still has before it, at most. *)
Definition potential (s : WorkQueue.State Q) : Z :=
  weigh (fun interval => 2 * rank interval) (live (WorkQueue.queue s))
  + weigh effort (WorkQueue.threads s).

(** * Sample data on binary64 *)

Module Sample.

Definition constant5 (x : float) : float := 5%float.

Definition quartic (x : float) : float := (x * x * x * x)%float.

(** 2^53 and the next double, 2^53 + 2; a function that is 0 and 2 there. *)
Definition two53 : float := 9007199254740992%float.
Definition two53_next : float := 9007199254740994%float.
Definition shifted (x : float) : float := (x - two53)%float.

(** An array of [MAXQUEUE] slots and an index, as a local [struct Queue]
    may be before [init]. *)
Definition blank : Interval float :=
  {| left := 0; right := 0; tol := 0; f_left := 0; f_mid := 0; f_right := 0 |}%float.

Definition fresh : Queue float :=
  {| entry := replicate (Z.to_nat MAXQUEUE) blank; top := 7 |}.

(** [0, 10] with tolerance 1e-06, the interval of [main]. *)
Definition domain (func : float -> float) : Interval float :=
  WorkQueue.whole func 0%float 10%float dmicro.

(** [2^53, 2^53 + 2] with [shifted]: its midpoint rounds to 2^53. *)
Definition stalled : Interval float :=
  WorkQueue.whole shifted two53 two53_next dmicro.

(** [0, 1] with tolerance 2^-10 and the quartic: rejected, and both halves
    are accepted. *)
Definition unit_interval : Interval float :=
  WorkQueue.whole quartic 0%float 1%float 0x1p-10%float.

(** [-3, 2^54]: its width and the widths of its halves are rounded. *)
Definition wide : Interval float :=
  WorkQueue.whole quartic (-3)%float 18014398509481984%float dmicro.

(** The queue with which [main] calls [simpson]. *)
Definition seeded_queue (interval : Interval float) : Queue float :=
  match enqueue interval (init fresh) with
  | Ok queue => queue
  | _ => init fresh
  end.

(** One loop that has just dequeued the initial interval. *)
Definition holding_whole (func : float -> float) : WorkQueue.State float :=
  {| WorkQueue.queue := init fresh; WorkQueue.total := 1;
     WorkQueue.total_processed := 0; WorkQueue.quad := 0%float;
     WorkQueue.threads := [WorkQueue.Holding (domain func)];
     WorkQueue.accepted := [] |}.

(** The state in which [main] would call [simpson] on [-3, 2^54] with two
    loops, and the state after a run that is still going. *)
Definition wide_seeded : WorkQueue.State float :=
  WorkQueue.start 2 (seeded_queue wide) 1 0.

Definition wide_after (schedule : list nat) : WorkQueue.State float :=
  match WorkQueue.exec quartic schedule wide_seeded with
  | WorkQueue.Running s => s
  | _ => wide_seeded
  end.

End Sample.

(** * Sample data on the rationals *)

Module ExactSample.

Definition quartic (x : Q) : Q := (x * x * x * x)%Q.

Definition blank : Interval Q :=
  {| left := 0; right := 0; tol := 0; f_left := 0; f_mid := 0; f_right := 0 |}%Q.

Definition fresh : Queue Q :=
  {| entry := replicate (Z.to_nat MAXQUEUE) blank; top := 7 |}.

(** The state in which [main] would call [simpson] on [0, 1] with tolerance
    1/1000 and two loops. *)
Definition seeded_state : WorkQueue.State Q :=
  WorkQueue.start 2
    match enqueue (WorkQueue.whole quartic 0%Q 1%Q (1 # 1000)%Q) (init fresh) with
    | Ok queue => queue
    | _ => init fresh
    end 1 0.

(** [0, 1] with tolerance 1/1000: rejected, and both halves are accepted. *)
Definition unit_interval : Interval Q :=
  WorkQueue.whole quartic 0%Q 1%Q (1 # 1000)%Q.

Definition unit_leaves : list (Interval Q) :=
  [i1 quartic unit_interval; i2 quartic unit_interval].

Definition unit_value : Q :=
  (contribution quartic (i1 quartic unit_interval)
   + contribution quartic (i2 quartic unit_interval))%Q.

(** The state after a run, when the run is still going. *)
Definition after (schedule : list nat) : WorkQueue.State Q :=
  match WorkQueue.exec quartic schedule seeded_state with
  | WorkQueue.Running s => s
  | _ => seeded_state
  end.

End ExactSample.

(** * Further vocabulary *)

(** ** The value that is still to come, in arithmetic without rounding *)

(** The sum of a quantity over a list. *)
Definition sum_of {A : Type} (w : A -> Q) (l : list A) : Q :=
  foldr (fun a x => w a + x)%Q 0%Q l.

(** The value of the recursive integrator on an interval; the recursion
    ends within [levels + 1] levels. *)
Definition value (func : Q -> Q) (interval : Interval Q) : Q :=
  default 0%Q (simpson_rec (S (levels interval)) func interval).

Definition hand_value (func : Q -> Q) (th : WorkQueue.Thread Q) : Q :=
  match th with WorkQueue.Holding interval => value func interval | _ => 0%Q end.

(** [quad] and the values of the queued and held intervals add up to [v]. *)
Definition settled (func : Q -> Q) (v : Q) (s : WorkQueue.State Q) : Prop :=
  (WorkQueue.quad s + sum_of (value func) (live (WorkQueue.queue s))
   + sum_of (hand_value func) (WorkQueue.threads s) == v)%Q.

Section AcceptedAtOnce.
Context {T : Type} `{Double T}.

(** ** The flagged program on an interval that is accepted at once *)

(** A loop on its way from the [dequeue] to [quad += ...]. *)
Definition carried (th : Flagged.Thread T) : Z :=
  match th with
  | Flagged.TestDone (Some _) | Flagged.AddQuad _ => 1
  | _ => 0
  end.

(** A loop between [quad += ...] and [total_processed++]. *)
Definition credited (th : Flagged.Thread T) : Z :=
  match th with Flagged.CountProcessed => 1 | _ => 0 end.

(** A loop that is not splitting and has nothing but [seed] in its hands. *)
Definition calm (seed : Interval T) (th : Flagged.Thread T) : Prop :=
  match th with
  | Flagged.TestDone (Some interval) | Flagged.AddQuad interval => interval = seed
  | Flagged.EnterUpdate _ | Flagged.PushSecond _ | Flagged.AddTotal => False
  | _ => True
  end.

(** The states of the flagged program while the only interval is [seed]:
    it is in the queue, in the hands of one loop, or accounted for. *)
Definition undivided (func : T -> T) (seed : Interval T) (s : Flagged.State T) : Prop :=
  guarded s
  /\ Flagged.total s = 1 /\ 0 <= Flagged.total_processed s
  /\ Flagged.total_processed s + size (Flagged.queue s)
     + weigh carried (Flagged.threads s) + weigh credited (Flagged.threads s) = 1
  /\ Forall (calm seed) (Flagged.threads s)
  /\ Forall (fun interval => interval = seed) (live (Flagged.queue s))
  /\ Flagged.quad s
     = (if decide (Flagged.total_processed s + weigh credited (Flagged.threads s) = 0)
        then dlit 0 else (dlit 0 + contribution func seed)%D)
  /\ (forall t, Flagged.threads s !! t = Some Flagged.SetDone ->
      Flagged.total_processed s = 1)
  /\ (Flagged.done s = true -> Flagged.total_processed s = 1)
  /\ (forall t, Flagged.threads s !! t = Some Flagged.Gone -> Flagged.done s = true)
  /\ Flagged.threads s <> [].

End AcceptedAtOnce.

Section FlaggedCounting.
Context {T : Type} `{Double T}.

(** ** The counters of the flagged program *)

(** A loop inside [critical(queue_update)]. *)
Definition in_update (th : Flagged.Thread T) : Z :=
  match th with
  | Flagged.PushSecond _ | Flagged.AddTotal => 1
  | _ => 0
  end.

(** The lock of [critical(queue_update)] is taken exactly when one loop is
    inside; [total] is odd; a loop is out only if the flag is up; and while
    the flag is down every interval ever created is accepted, queued or in
    the hands of a loop, [total] lagging by two behind the second [enqueue]
    of a split until [total += 2]. *)
Definition flagged_counted (s : Flagged.State T) : Prop :=
  queue_wf (Flagged.queue s)
  /\ 0 <= Flagged.total_processed s
  /\ 1 <= Flagged.total s /\ Z.odd (Flagged.total s) = true
  /\ weigh in_update (Flagged.threads s) = (if Flagged.queue_update s then 1 else 0)
  /\ (forall t, Flagged.threads s !! t = Some Flagged.Gone -> Flagged.done s = true)
  /\ (Flagged.done s = false ->
      2 * (Flagged.total_processed s + size (Flagged.queue s)
           + weigh pending (Flagged.threads s))
      = Flagged.total s + 1).


End FlaggedCounting.

(** ** Polynomial integrands, in arithmetic without rounding *)

(** A polynomial of degree five at most, and its primitive that vanishes
    at 0. *)
Definition quintic (a0 a1 a2 a3 a4 a5 x : Q) : Q :=
  (a0 + x * (a1 + x * (a2 + x * (a3 + x * (a4 + x * a5)))))%Q.

Definition primitive (a0 a1 a2 a3 a4 a5 x : Q) : Q :=
  (x * (a0 + x * (a1 / 2 + x * (a2 / 3 + x * (a3 / 4 + x * (a4 / 5 + x * (a5 / 6)))))))%Q.

(** * The integrand: explicit Euler steps on a forced relaxation *)

(** The literal [0.0001] of [func1]. *)
Class Step (T : Type) := dstep : T.

#[export] Instance binary64_step : Step float := 0x1.a36e2eb1c432dp-14%float.
#[export] Instance exact_step : Step Q := (1 # 10000)%Q.

Section Integrand.

Context {T : Type} `{Double T}.

(** [euler]: [numsteps] times [y += step * (alpha - y)], from [y = init];
    no step at all when [numsteps] is not positive. *)
Definition euler (init step alpha : T) (numsteps : Z) : T :=
  Nat.iter (Z.to_nat numsteps) (fun y => (y + step * (alpha - y))%D) init.

(** [func1], given the [sin] of the C library: [alpha] is
    [100000.0 * sin(x * 100000.0)], and the value is that of a thousand
    steps of size [0.0001] from 0. *)
Definition func1 `{Step T} (sin : T -> T) (x : T) : T :=
  let alpha := (dlit 100000 * sin (x * dlit 100000))%D in
  euler (dlit 0) dstep alpha 1000.

End Integrand.

(** * The recursive program with a bound on the depth of its tasks *)

Section Tasks.

Context {T : Type} `{Double T}.

(** What the two recursive calls of a split give together. *)
Definition join (quad1 quad2 : option (result T)) : option (result T) :=
  match quad1, quad2 with
  | Some (Ok v1), Some (Ok v2) => Some (Ok (v1 + v2)%D)
  | Some Undefined, _ | _, Some Undefined => Some Undefined
  | Some (Exit e), _ | _, Some (Exit e) => Some (Exit e)
  | None, _ | _, None => None
  end.

(** [simpson] with [depth] and [max_task_depth]: below the bound the two
    halves are two tasks joined by [taskwait], from the bound on they are
    two plain calls; [depth + 1] has no defined value past [INT_MAX].
    [fuel] bounds the depth of the recursion. *)
Fixpoint simpson_tasks (fuel : nat) (func : T -> T) (interval : Interval T)
    (depth max_task_depth : Z) : option (result T) :=
  match fuel with
  | O => None
  | S n =>
      if accepts func interval then Some (Ok (contribution func interval))
      else if decide (depth < max_task_depth) then
        join (simpson_tasks n func (i1 func interval) (depth + 1) max_task_depth)
             (simpson_tasks n func (i2 func interval) (depth + 1) max_task_depth)
      else if decide (depth = INT_MAX) then Some Undefined
      else
        join (simpson_tasks n func (i1 func interval) (depth + 1) max_task_depth)
             (simpson_tasks n func (i2 func interval) (depth + 1) max_task_depth)
  end.

(** The number of tasks that a call creates: two for each split below the
    bound. *)
Fixpoint tasks_created (fuel : nat) (func : T -> T) (interval : Interval T)
    (depth max_task_depth : Z) : option Z :=
  match fuel with
  | O => None
  | S n =>
      if accepts func interval then Some 0
      else
        match tasks_created n func (i1 func interval) (depth + 1) max_task_depth,
              tasks_created n func (i2 func interval) (depth + 1) max_task_depth with
        | Some k1, Some k2 =>
            Some ((if decide (depth < max_task_depth) then 2 else 0) + k1 + k2)
        | _, _ => None
        end
  end.

(** The calls of the two [main]s: depth 0 and at most 16 levels of tasks,
    on [0, 10] with tolerance [1e-06]. *)
Definition main_tasks (fuel : nat) (func1 : T -> T) : option (result T) :=
  simpson_tasks fuel func1 (WorkQueue.whole func1 (dlit 0) (dlit 10) dmicro) 0 16.

Definition main_rec (fuel : nat) (func1 : T -> T) : option T :=
  simpson_rec fuel func1 (WorkQueue.whole func1 (dlit 0) (dlit 10) dmicro).

End Tasks.

(** ** The tasks of the recursive program

    [simpson] with [depth] and [max_task_depth], its tasks as separate units
    of work. A call that splits below the bound creates two tasks and waits
    for them at [taskwait]; from the bound on it makes two plain calls, the
    second after the first has returned. A created task is run at any time
    before its parent passes [taskwait], by any thread of the team; the
    tasks share only [quad1] and [quad2], each written by one task and read
    by the parent after [taskwait]. *)

Module TaskPool.
Section Program.

Context {T : Type} `{Double T}.

(** A call of [simpson] and the calls that it is waiting for. *)
Inductive Task :=
  | Call (interval : Interval T) (depth : Z)
      (* not started: the call of [main], a created task or a plain call *)
  | Wait (quad1 quad2 : Task)     (* at [taskwait], with its two tasks *)
  | Plain (quad1 quad2 : Task)    (* inside its two plain calls *)
  | Value (quad : T).             (* returned *)

Inductive Outcome :=
  | Running (task : Task)
  | Undef.                        (* [depth + 1] past [INT_MAX] *)

(** The body of [simpson] up to [taskwait], to the first plain call or to
    [return]. *)
Definition call (func : T -> T) (max_task_depth : Z) (interval : Interval T)
    (depth : Z) : Outcome :=
  if accepts func interval then Running (Value (contribution func interval))
  else if decide (depth < max_task_depth) then
    Running (Wait (Call (i1 func interval) (depth + 1))
                  (Call (i2 func interval) (depth + 1)))
  else if decide (depth = INT_MAX) then Undef
  else
    Running (Plain (Call (i1 func interval) (depth + 1))
                   (Call (i2 func interval) (depth + 1))).

(** [return quad1 + quad2], once both are there. *)
Definition sum (task quad1 quad2 : Task) : Task :=
  match quad1, quad2 with
  | Value v1, Value v2 => Value (v1 + v2)%D
  | _, _ => task
  end.

Definition inside (k : Task -> Task) (o : Outcome) : Outcome :=
  match o with
  | Running task => Running (k task)
  | Undef => Undef
  end.

(** One step of the call at [path] ([false] for [quad1], [true] for
    [quad2]): a call that has not started runs its body; a call whose two
    halves have returned returns their sum; the second plain call is not
    made before the first has returned. Anything else is left as it is. *)
Fixpoint step (func : T -> T) (max_task_depth : Z) (path : list bool) (task : Task)
    {struct task} : Outcome :=
  match task with
  | Call interval depth =>
      match path with
      | [] => call func max_task_depth interval depth
      | _ => Running task
      end
  | Wait quad1 quad2 =>
      match path with
      | [] => Running (sum task quad1 quad2)
      | false :: path' =>
          inside (fun quad1' => Wait quad1' quad2) (step func max_task_depth path' quad1)
      | true :: path' =>
          inside (fun quad2' => Wait quad1 quad2') (step func max_task_depth path' quad2)
      end
  | Plain quad1 quad2 =>
      match path with
      | [] => Running (sum task quad1 quad2)
      | false :: path' =>
          inside (fun quad1' => Plain quad1' quad2) (step func max_task_depth path' quad1)
      | true :: path' =>
          match quad1 with
          | Value _ =>
              inside (fun quad2' => Plain quad1 quad2')
                (step func max_task_depth path' quad2)
          | _ => Running task
          end
      end
  | Value _ => Running task
  end.

(** The calls run as [schedule] says. *)
Fixpoint exec (func : T -> T) (max_task_depth : Z) (schedule : list (list bool))
    (task : Task) : Outcome :=
  match schedule with
  | [] => Running task
  | path :: schedule' =>
      match step func max_task_depth path task with
      | Running task' => exec func max_task_depth schedule' task'
      | Undef => Undef
      end
  end.

Inductive Run :=
  | Returns (quad : T)
  | UndefinedBehaviour
  | Unfinished (task : Task).     (* the schedule ended first *)

(** A call of [simpson] under a schedule of its tasks. *)
Definition simpson (func : T -> T) (interval : Interval T) (depth max_task_depth : Z)
    (schedule : list (list bool)) : Run :=
  match exec func max_task_depth schedule (Call interval depth) with
  | Running (Value quad) => Returns quad
  | Running task => Unfinished task
  | Undef => UndefinedBehaviour
  end.

(** [main]: one thread of the team calls [simpson] at depth 0 with at most
    16 levels of tasks. *)
Definition main (func1 : T -> T) (schedule : list (list bool)) : Run :=
  simpson func1 (WorkQueue.whole func1 (dlit 0) (dlit 10) dmicro) 0 16 schedule.

(** What is still to be returned: [task] returns [v] when every call in it
    that has not started returns what the plain recursion returns. With
    [safe], the depths stay within [int]. *)
Inductive yields (func : T -> T) (safe : bool) : Task -> T -> Prop :=
  | yields_call fuel interval depth v :
      simpson_rec fuel func interval = Some v ->
      (safe = true -> depth + Z.of_nat fuel <= INT_MAX) ->
      yields func safe (Call interval depth) v
  | yields_wait quad1 quad2 v1 v2 :
      yields func safe quad1 v1 -> yields func safe quad2 v2 ->
      yields func safe (Wait quad1 quad2) (v1 + v2)%D
  | yields_plain quad1 quad2 v1 v2 :
      yields func safe quad1 v1 -> yields func safe quad2 v2 ->
      yields func safe (Plain quad1 quad2) (v1 + v2)%D
  | yields_value v : yields func safe (Value v) v.

End Program.

Arguments Task T : clear implicits.
Arguments Outcome T : clear implicits.
Arguments Run T : clear implicits.

End TaskPool.

(** ** Runs of queue operations *)

Section Runs.

Context {T : Type} `{Double T}.

(** [enqueue] of the intervals of a list, one after the other. *)
Fixpoint enqueue_all (ls : list (Interval T)) (queue_p : Queue T) : result (Queue T) :=
  match ls with
  | [] => Ok queue_p
  | interval :: ls' =>
      match enqueue interval queue_p with
      | Ok queue' => enqueue_all ls' queue'
      | Exit e => Exit e
      | Undefined => Undefined
      end
  end.

(** [n] times [dequeue]; the intervals in the order in which they come out. *)
Fixpoint dequeue_n (n : nat) (queue_p : Queue T) : result (list (Interval T) * Queue T) :=
  match n with
  | O => Ok ([], queue_p)
  | S n' =>
      match dequeue queue_p with
      | Ok (interval, queue') =>
          match dequeue_n n' queue' with
          | Ok (ls, queue'') => Ok (interval :: ls, queue'')
          | Exit e => Exit e
          | Undefined => Undefined
          end
      | Exit e => Exit e
      | Undefined => Undefined
      end
  end.

End Runs.

(** ** Intervals that no refinement resolves *)

Section Unresolvable.
Context {T : Type} `{Double T}.

(** A property of intervals that forces a split and passes to both halves. *)
Definition doomed (func : T -> T) (P : Interval T -> Prop) : Prop :=
  forall interval,
    P interval ->
    accepts func interval = false /\ P (i1 func interval) /\ P (i2 func interval).

(** The interval that a loop of the flagged program has in its hands. *)
Definition in_hand (th : Flagged.Thread T) : option (Interval T) :=
  match th with
  | Flagged.TestDone (Some interval) | Flagged.AddQuad interval
  | Flagged.EnterUpdate interval | Flagged.PushSecond interval => Some interval
  | _ => None
  end.

(** A loop that has accepted nothing and is not leaving. *)
Definition busy (th : Flagged.Thread T) : Prop :=
  match th with
  | Flagged.SetDone | Flagged.AddQuad _ | Flagged.CountProcessed | Flagged.Gone => False
  | _ => True
  end.

(** The flagged program while every interval has [P]: nothing is accepted
    and the flag is down. *)
Definition unresolved (P : Interval T -> Prop) (s : Flagged.State T) : Prop :=
  queue_wf (Flagged.queue s)
  /\ Flagged.total_processed s = 0 /\ 1 <= Flagged.total s
  /\ Flagged.done s = false
  /\ Forall P (live (Flagged.queue s))
  /\ Forall (fun th => busy th /\ forall interval, in_hand th = Some interval -> P interval)
       (Flagged.threads s)
  /\ Flagged.threads s <> [].

End Unresolvable.

(** Not a number, on binary64. *)
Definition nan (x : float) : Prop := Prim2SF x = S754_nan.

(** An interval with a boundary that is not a number. *)
Definition nan_bounded (interval : Interval float) : Prop :=
  nan (left interval) \/ nan (right interval).

Section Locks.
Context {T : Type} `{Double T}.

(** A loop of the flagged program that waits in front of a taken lock. *)
Definition waiting (s : Flagged.State T) (th : Flagged.Thread T) : bool :=
  match th with
  | Flagged.Entering => Flagged.queue_access s
  | Flagged.EnterUpdate _ => Flagged.queue_update s
  | _ => false
  end.

End Locks.

(** ** A queue that fills up *)

Section Piles.
Context {T : Type} `{Double T}.

(** The array of the queue after [k] splits, by one loop, of an interval
    [stuck] that is its own right half: [k] left halves [half], [stuck]
    above them, and [blank] in the slots that were never written. *)
Definition pile (stuck half blank : Interval T) (k : nat) : list (Interval T) :=
  replicate k half ++ stuck :: replicate (Z.to_nat MAXQUEUE - S k) blank.

(** The array between the two [enqueue]s of the next split. *)
Definition pile_between (half blank : Interval T) (k : nat) : list (Interval T) :=
  replicate (S k) half ++ replicate (Z.to_nat MAXQUEUE - S k) blank.

(** One loop of the work-queue program on that array: at the head of its
    loop, and with [stuck] dequeued. *)
Definition piled (stuck half blank : Interval T) (k : nat) : WorkQueue.State T :=
  {| WorkQueue.queue := {| entry := pile stuck half blank k; top := Z.of_nat k |};
     WorkQueue.total := 2 * Z.of_nat k + 1;
     WorkQueue.total_processed := 0;
     WorkQueue.quad := dlit 0;
     WorkQueue.threads := [WorkQueue.Polling];
     WorkQueue.accepted := [] |}.

Definition piled_holding (stuck half blank : Interval T) (k : nat) : WorkQueue.State T :=
  {| WorkQueue.queue := {| entry := pile stuck half blank k; top := Z.of_nat k - 1 |};
     WorkQueue.total := 2 * Z.of_nat k + 1;
     WorkQueue.total_processed := 0;
     WorkQueue.quad := dlit 0;
     WorkQueue.threads := [WorkQueue.Holding stuck];
     WorkQueue.accepted := [] |}.

(** One loop of the flagged program after [k] splits: the array, the index
    of the last entry, the two locks and the place of the loop. *)
Definition flagged_piled (entries : list (Interval T)) (last : Z) (k : nat)
    (access update : bool) (th : Flagged.Thread T) : Flagged.State T :=
  {| Flagged.queue := {| entry := entries; top := last |};
     Flagged.total := 2 * Z.of_nat k + 1;
     Flagged.total_processed := 0;
     Flagged.quad := dlit 0;
     Flagged.done := false;
     Flagged.queue_access := access;
     Flagged.queue_update := update;
     Flagged.threads := [th] |}.

End Piles.

(** ** What is accepted, in any arithmetic *)

Section Accepted.
Context {T : Type} `{Double T}.

(** The interval in the hands of a loop of the work-queue program. *)
Definition in_hands (th : WorkQueue.Thread T) : list (Interval T) :=
  match th with WorkQueue.Holding interval => [interval] | _ => [] end.

(** The intervals that are still to be worked on: those in the queue and
    those in the hands of the loops. *)
Definition outstanding (s : WorkQueue.State T) : list (Interval T) :=
  live (WorkQueue.queue s) ++ concat (in_hands <$> WorkQueue.threads s).

(** The accepted intervals of the recursion on each interval of a list. *)
Fixpoint leaves_of (fuel : nat) (func : T -> T) (intervals : list (Interval T))
    : option (list (Interval T)) :=
  match intervals with
  | [] => Some []
  | interval :: intervals' =>
      match leaves fuel func interval, leaves_of fuel func intervals' with
      | Some l, Some rest => Some (l ++ rest)
      | _, _ => None
      end
  end.

(** What the accepted intervals are and what [quad] is made of: every
    accepted interval passed the test with the tolerance [tolerance] and
    carries the values of [func]; there are [total_processed] of them; and
    [quad] is the sum of their contributions in the order of acceptance. *)
Definition accounted (func : T -> T) (tolerance : T) (s : WorkQueue.State T) : Prop :=
  Forall (fun interval => accepts func interval = true /\ tol interval = tolerance
                          /\ cached func interval)
    (WorkQueue.accepted s)
  /\ Z.of_nat (length (WorkQueue.accepted s)) = WorkQueue.total_processed s
  /\ WorkQueue.quad s = accumulate func (WorkQueue.accepted s) (dlit 0).

(** The accepted intervals and the leaves of what is outstanding are
    together the leaves [ls], up to their order. *)
Definition resolving (fuel : nat) (func : T -> T) (ls : list (Interval T))
    (s : WorkQueue.State T) : Prop :=
  exists rest,
    leaves_of fuel func (outstanding s) = Some rest
    /\ WorkQueue.accepted s ++ rest ≡ₚ ls.

End Accepted.

(** * Sample data for the work-queue program, on binary64 *)

Module QueueSample.

(** The state in which [main] would call [simpson] on the quartic over
    [0, 1] with tolerance 2^-10, with two loops. *)
Definition seeded : WorkQueue.State float :=
  WorkQueue.start 2 (Sample.seeded_queue Sample.unit_interval) 1 0.

(** The state after a run, when the run is still going. *)
Definition after (schedule : list nat) : WorkQueue.State float :=
  match WorkQueue.exec Sample.quartic schedule seeded with
  | WorkQueue.Running s => s
  | _ => seeded
  end.

(** Loop 0 splits [0, 1]; loop 1 takes the right half and loop 0 the left
    half; both find the queue empty. *)
Definition shared : list nat := [0; 0; 1; 0; 1; 0; 0; 1]%nat.

End QueueSample.

(** * Sample data for the flagged program, on binary64 *)

Module FlaggedSample.

(** The state in which [main] calls [simpson] on the quartic over [0, 10],
    with two loops. *)
Definition seeded : Flagged.State float :=
  Flagged.start 2 (Sample.seeded_queue (Sample.domain Sample.quartic)) 1 0.

(** The state after a run, when the run is still going. *)
Definition after (schedule : list nat) : Flagged.State float :=
  match Flagged.exec Sample.quartic schedule seeded with
  | Flagged.Running s => s
  | _ => seeded
  end.

(** Loop 0 splits the initial interval and then its right half. *)
Definition two_splits : list nat := replicate 14 0%nat.

(** Loop 0 is inside [critical(queue_access)], about to dequeue, when loop 1
    arrives in front of it. *)
Definition contended_access : list nat := [0; 0; 1]%nat.

(** Loop 0 splits the initial interval and dequeues its right half, loop 1
    dequeues the left half; both halves are rejected. Loop 0 is inside
    [critical(queue_update)], between its two [enqueue]s, when loop 1 arrives
    in front of it. *)
Definition contended_update : list nat :=
  (replicate 11 0 ++ replicate 4 1 ++ [0])%nat.

End FlaggedSample.

(** * Further sample data on the rationals *)

Module ExactRuns.

(** Two loops that share the halves of [0, 1]. *)
Definition interleaved : list nat := [0; 0; 1; 0; 1; 0; 0; 1]%nat.

Definition interleaved_value : Q :=
  (0 + contribution ExactSample.quartic (i2 ExactSample.quartic ExactSample.unit_interval)
   + contribution ExactSample.quartic (i1 ExactSample.quartic ExactSample.unit_interval))%Q.

Definition cube : Q -> Q := quintic 0 0 0 1 0 0.

End ExactRuns.

(** * Sample runs of the tasks *)

Module TaskSample.

(** The two halves of [0, 1] as tasks, the right one run first; and as
    plain calls, the second tried before the first has returned. *)
Definition right_first : list (list bool) := [[]; [true]; [false]; []].
Definition plain_calls : list (list bool) := [[]; [true]; [false]; [true]; []].

Definition unit_value : float :=
  (contribution Sample.quartic (i1 Sample.quartic Sample.unit_interval)
   + contribution Sample.quartic (i2 Sample.quartic Sample.unit_interval))%float.

End TaskSample.

(** * Verification *)

(** ** The queue is a bounded stack *)

Section QueueFacts.

Context {T : Type} `{Double T}.
Implicit Types (queue_p : Queue T) (interval : Interval T).

Lemma size_live queue_p :
  queue_wf queue_p -> Z.of_nat (length (live queue_p)) = size queue_p.
Proof.
  intros [Hlen Htop]. unfold live, size.
  rewrite length_take. lia.
Qed.

Lemma enqueue_ok interval queue_p :
  queue_wf queue_p -> size queue_p < MAXQUEUE ->
  enqueue interval queue_p
  = Ok {| entry := <[Z.to_nat (top queue_p + 1) := interval]> (entry queue_p);
          top := top queue_p + 1 |}.
Proof.
  intros [Hlen Htop] Hsize. unfold enqueue, size in *.
  destruct (decide (top queue_p = MAXQUEUE - 1)) as [Heq|_]; [lia|].
  cbv zeta. destruct (decide _) as [_|Hn]; [reflexivity|lia].
Qed.

Lemma enqueue_full interval queue_p :
  size queue_p = MAXQUEUE -> enqueue interval queue_p = Exit QueueOverflow.
Proof.
  unfold enqueue, size. intros Hsize.
  destruct (decide (top queue_p = MAXQUEUE - 1)); [reflexivity|lia].
Qed.

Lemma enqueue_inv interval queue_p q' :
  enqueue interval queue_p = Ok q' ->
  q' = {| entry := <[Z.to_nat (top queue_p + 1) := interval]> (entry queue_p);
          top := top queue_p + 1 |}
  /\ top queue_p <> MAXQUEUE - 1
  /\ 0 <= top queue_p + 1 < Z.of_nat (length (entry queue_p)).
Proof.
  unfold enqueue. destruct (decide (top queue_p = MAXQUEUE - 1)); [discriminate|].
  cbv zeta. destruct (decide _); [|discriminate].
  intros [= <-]. auto.
Qed.

Lemma enqueue_wf interval queue_p q' :
  queue_wf queue_p -> enqueue interval queue_p = Ok q' -> queue_wf q'.
Proof.
  intros [Hlen Htop] (-> & Hne & Hin)%enqueue_inv. unfold queue_wf. cbn.
  rewrite length_insert. lia.
Qed.

Lemma live_enqueue interval queue_p q' :
  -1 <= top queue_p ->
  enqueue interval queue_p = Ok q' -> live q' = live queue_p ++ [interval].
Proof.
  intros Htop (-> & Hne & Hin)%enqueue_inv. unfold live. cbn.
  replace (Z.to_nat (top queue_p + 1 + 1)) with (S (Z.to_nat (top queue_p + 1))) by lia.
  rewrite (take_S_r _ _ interval).
  - rewrite take_insert_ge by lia. reflexivity.
  - apply list_lookup_insert_eq. lia.
Qed.

Lemma dequeue_inv queue_p interval q' :
  dequeue queue_p = Ok (interval, q') ->
  0 <= top queue_p
  /\ entry queue_p !! Z.to_nat (top queue_p) = Some interval
  /\ q' = {| entry := entry queue_p; top := top queue_p - 1 |}.
Proof.
  unfold dequeue. destruct (decide (top queue_p = -1)); [discriminate|].
  destruct (decide (top queue_p < 0)); [discriminate|].
  destruct (entry queue_p !! Z.to_nat (top queue_p)) eqn:E; [|discriminate].
  intros [= <- <-]. split; [lia|auto].
Qed.

Lemma dequeue_ok queue_p :
  queue_wf queue_p -> isempty queue_p = false ->
  exists interval,
    dequeue queue_p = Ok (interval, {| entry := entry queue_p; top := top queue_p - 1 |})
    /\ entry queue_p !! Z.to_nat (top queue_p) = Some interval.
Proof.
  intros [Hlen Htop] Hne. unfold isempty in Hne.
  apply bool_decide_eq_false in Hne. unfold dequeue.
  destruct (decide (top queue_p = -1)); [contradiction|].
  destruct (decide (top queue_p < 0)); [lia|].
  destruct (lookup_lt_is_Some_2 (entry queue_p) (Z.to_nat (top queue_p))) as [i Hi]; [lia|].
  exists i. rewrite Hi. auto.
Qed.

Lemma dequeue_wf queue_p interval q' :
  queue_wf queue_p -> dequeue queue_p = Ok (interval, q') -> queue_wf q'.
Proof.
  intros [Hlen Htop] (Hpos & _ & ->)%dequeue_inv. unfold queue_wf. cbn. lia.
Qed.

Lemma live_dequeue queue_p interval q' :
  dequeue queue_p = Ok (interval, q') -> live queue_p = live q' ++ [interval].
Proof.
  intros (Hpos & Hlook & ->)%dequeue_inv. unfold live. cbn.
  replace (Z.to_nat (top queue_p + 1)) with (S (Z.to_nat (top queue_p))) by lia.
  replace (Z.to_nat (top queue_p - 1 + 1)) with (Z.to_nat (top queue_p)) by lia.
  apply take_S_r. exact Hlook.
Qed.

Lemma dequeue_exit queue_p e : dequeue queue_p = Exit e -> e = EmptyExtract.
Proof.
  unfold dequeue. destruct (decide _); [congruence|].
  destruct (decide _); [discriminate|].
  destruct (entry queue_p !! _); discriminate.
Qed.

Lemma enqueue_exit interval queue_p e :
  enqueue interval queue_p = Exit e -> e = QueueOverflow.
Proof.
  unfold enqueue. destruct (decide _); [congruence|].
  cbv zeta. destruct (decide _); discriminate.
Qed.

Lemma init_wf queue_p :
  Z.of_nat (length (entry queue_p)) = MAXQUEUE -> queue_wf (init queue_p).
Proof. intros Hlen. unfold queue_wf, init, MAXQUEUE in *. cbn. lia. Qed.

Lemma live_init queue_p : live (init queue_p) = [].
Proof. reflexivity. Qed.

End QueueFacts.

(** ** The counters of the work-queue program *)

(** Reading a field of a state that is written out. *)
Ltac fields :=
  cbn [WorkQueue.queue WorkQueue.total WorkQueue.total_processed WorkQueue.quad
       WorkQueue.threads WorkQueue.accepted top entry] in *.

Section Counters.

Import WorkQueue.
Context {T : Type} `{Double T}.
Implicit Types (s : State T) (ths : list (Thread T)) (func : T -> T).

Lemma weigh_cons {A : Type} (w : A -> Z) a l : weigh w (a :: l) = w a + weigh w l.
Proof. reflexivity. Qed.

Lemma weigh_insert {A : Type} (w : A -> Z) l t a a' :
  l !! t = Some a -> weigh w (<[t := a']> l) = weigh w l - w a + w a'.
Proof.
  revert t. induction l as [|x l IH]; intros [|t] Hlook; try discriminate.
  - injection Hlook as ->.
    change (<[0%nat := a']> (a :: l)) with (a' :: l).
    rewrite !weigh_cons. lia.
  - change (<[S t := a']> (x :: l)) with (x :: <[t := a']> l).
    rewrite !weigh_cons, (IH t Hlook). lia.
Qed.

Lemma weigh_nonneg {A : Type} (w : A -> Z) l :
  (forall a, 0 <= w a) -> 0 <= weigh w l.
Proof.
  intros Hw. induction l as [|a l IH]; [reflexivity|].
  rewrite weigh_cons. specialize (Hw a). lia.
Qed.

Lemma weigh_zero {A : Type} (w : A -> Z) l t a :
  (forall a, 0 <= w a) -> weigh w l = 0 -> l !! t = Some a -> w a = 0.
Proof.
  intros Hw. revert t. induction l as [|x l IH]; intros [|t] Hsum Hlook;
    try discriminate; rewrite weigh_cons in Hsum;
    pose proof (weigh_nonneg w l Hw); pose proof (Hw x).
  - injection Hlook as ->. lia.
  - apply (IH t); [lia|exact Hlook].
Qed.

Lemma weigh_replicate {A : Type} (w : A -> Z) n a :
  w a = 0 -> weigh w (replicate n a) = 0.
Proof.
  intros Ha. induction n as [|n IH]; [reflexivity|].
  cbn [replicate]. rewrite weigh_cons, IH, Ha. reflexivity.
Qed.

Lemma held_cons th ths : held (th :: ths) = holding th + held ths.
Proof. reflexivity. Qed.

Lemma held_nonneg ths : 0 <= held ths.
Proof.
  induction ths as [|th ths IH]; [reflexivity|].
  rewrite held_cons. destruct th; cbn; lia.
Qed.

Lemma held_insert ths t th th' :
  ths !! t = Some th ->
  held (<[t := th']> ths) = held ths - holding th + holding th'.
Proof.
  revert t. induction ths as [|x ths IH]; intros [|t] Hlook; try discriminate.
  - injection Hlook as ->.
    change (<[0%nat := th']> (th :: ths)) with (th' :: ths).
    rewrite !held_cons. lia.
  - change (<[S t := th']> (x :: ths)) with (x :: <[t := th']> ths).
    rewrite !held_cons, (IH t Hlook). lia.
Qed.

Lemma held_replicate_polling n : held (replicate n (@Polling T)) = 0.
Proof. induction n as [|n IH]; [reflexivity|]. cbn [replicate]. rewrite held_cons, IH. reflexivity. Qed.

Lemma size_enqueue interval (q q' : Queue T) :
  enqueue interval q = Ok q' -> size q' = size q + 1.
Proof. intros (-> & _)%enqueue_inv. reflexivity. Qed.

Lemma size_dequeue interval (q q' : Queue T) :
  dequeue q = Ok (interval, q') -> size q' = size q - 1.
Proof. intros (_ & _ & ->)%dequeue_inv. unfold size. cbn. lia. Qed.

Lemma poll_counted t s s' :
  threads s !! t = Some Polling ->
  counted s -> poll t s = Running s' -> counted s'.
Proof.
  intros Ht (Hwf & Hpos & Hone & Hcount). unfold poll.
  destruct (isempty (queue s)) eqn:Hempty.
  - intros [= <-]. unfold counted. fields.
    rewrite (held_insert _ _ _ _ Ht). cbn. auto with lia.
  - destruct (dequeue (queue s)) as [[interval q']| |] eqn:Hdeq; try discriminate.
    intros [= <-]. unfold counted. fields.
    rewrite (held_insert _ _ _ _ Ht), (size_dequeue _ _ _ Hdeq). cbn.
    split; [eauto using dequeue_wf|]. repeat split; lia.
Qed.

Lemma process_counted func t interval s s' :
  threads s !! t = Some (Holding interval) ->
  counted s -> process func t interval s = Running s' -> counted s'.
Proof.
  intros Ht (Hwf & Hpos & Hone & Hcount). unfold process.
  destruct (accepts func interval).
  - destruct (decide _); [discriminate|]. cbv zeta.
    destruct (decide _); [discriminate|].
    intros [= <-]. unfold counted. fields.
    rewrite (held_insert _ _ _ _ Ht). cbn. split; [assumption|]. repeat split; lia.
  - destruct (enqueue (i1 func interval) (queue s)) as [queue1| |] eqn:E1; try discriminate.
    destruct (enqueue (i2 func interval) queue1) as [queue2| |] eqn:E2; try discriminate.
    destruct (decide _); [discriminate|].
    intros [= <-]. unfold counted. fields.
    rewrite (held_insert _ _ _ _ Ht), (size_enqueue _ _ _ E2), (size_enqueue _ _ _ E1). cbn.
    split; [eauto using enqueue_wf|]. repeat split; lia.
Qed.

Lemma step_counted func t s s' :
  counted s -> step func t s = Running s' -> counted s'.
Proof.
  unfold step. intros Hc.
  destruct (threads s !! t) as [[|interval|]|] eqn:Ht.
  - eauto using poll_counted.
  - eauto using process_counted.
  - intros [= <-]. assumption.
  - intros [= <-]. assumption.
Qed.

Lemma exec_counted func schedule s s' :
  counted s -> exec func schedule s = Running s' -> counted s'.
Proof.
  revert s. induction schedule as [|t schedule IH]; intros s Hc; cbn.
  - intros [= <-]. assumption.
  - destruct (step func t s) as [s1| |] eqn:Hstep; try discriminate.
    eauto using step_counted.
Qed.

Lemma seeded_counted func l r tolerance num_threads (q : Queue T) s :
  Z.of_nat (length (entry q)) = MAXQUEUE ->
  seeded func l r tolerance num_threads q s -> counted s.
Proof.
  intros Hlen (q' & Henq & ->).
  pose proof (init_wf q Hlen) as Hwf.
  unfold counted, start. fields.
  rewrite held_replicate_polling, (size_enqueue _ _ _ Henq).
  split; [eauto using enqueue_wf|]. unfold size, init. cbn. lia.
Qed.

(** The counters that [counted] allows. *)
Lemma counted_counters s :
  counted s ->
  0 <= total_processed s <= total s /\ Z.odd (total s) = true.
Proof.
  intros (Hwf & Hpos & Hone & Hcount).
  pose proof (held_nonneg (threads s)).
  destruct Hwf as [_ Htop]. unfold size in Hcount.
  split; [lia|].
  replace (total s) with
    (1 + 2 * (total_processed s + (top (queue s) + 1) + held (threads s) - 1)) by lia.
  rewrite Z.odd_add_mul_2. reflexivity.
Qed.

(** The only test of the counters fires when nothing was ever split. *)
Lemma counted_converged s :
  counted s -> total_processed s = total s ->
  total s = 1 /\ size (queue s) = 0 /\ held (threads s) = 0.
Proof.
  intros (Hwf & Hpos & Hone & Hcount) Heq.
  pose proof (held_nonneg (threads s)).
  destruct Hwf as [_ Htop]. unfold size in *. lia.
Qed.

End Counters.

(** ** Claims on the stack and on the refinement step *)

Section StackClaims.

Context {T : Type} `{Double T}.
Implicit Types (queue_p : Queue T) (interval : Interval T).

(** C7. The queue is a bounded stack. For a queue as the program keeps it
    ([queue_wf]), with [live] its entries from the bottom to [top]: the
    number of entries is [size] and never exceeds [MAXQUEUE]; at capacity
    [enqueue] exits; below capacity [enqueue] appends the interval at the
    top, and a [dequeue] right after it returns that interval and leaves the
    entries and [top] as they were; any [dequeue] that returns removes the
    last entry of [live], that is the most recently inserted one still
    present. *)
Theorem stack_discipline queue_p interval :
  queue_wf queue_p ->
  (0 <= size queue_p <= MAXQUEUE /\ Z.of_nat (length (live queue_p)) = size queue_p)
  /\ (size queue_p = MAXQUEUE -> enqueue interval queue_p = Exit QueueOverflow)
  /\ (size queue_p < MAXQUEUE ->
      exists q1 q2,
        enqueue interval queue_p = Ok q1
        /\ queue_wf q1 /\ live q1 = live queue_p ++ [interval]
        /\ dequeue q1 = Ok (interval, q2)
        /\ queue_wf q2 /\ top q2 = top queue_p /\ live q2 = live queue_p)
  /\ (forall i q', dequeue queue_p = Ok (i, q') ->
        queue_wf q' /\ live queue_p = live q' ++ [i] /\ top q' = top queue_p - 1).
Proof.
  intros Hwf. split; [|split; [|split]].
  - split; [destruct Hwf as [_ Htop]; unfold size; lia | apply size_live, Hwf].
  - apply enqueue_full.
  - intros Hsize.
    pose proof (enqueue_ok interval queue_p Hwf Hsize) as Henq.
    set (q1 := {| entry := _; top := _ |}) in Henq.
    assert (Hwf1 : queue_wf q1) by eauto using enqueue_wf.
    assert (Hne : isempty q1 = false).
    { apply bool_decide_eq_false. destruct Hwf as [_ Htop]. subst q1. cbn. lia. }
    destruct (dequeue_ok q1 Hwf1 Hne) as (i & Hdeq & Hlook).
    assert (i = interval) as ->.
    { subst q1. cbn in Hlook. rewrite list_lookup_insert_eq in Hlook.
      - congruence.
      - destruct Hwf as [Hlen Htop]. unfold size in Hsize. lia. }
    eexists q1, _. split; [exact Henq|]. split; [exact Hwf1|].
    assert (Hlive1 : live q1 = live queue_p ++ [interval]).
    { apply (live_enqueue interval queue_p); [apply Hwf | exact Henq]. }
    split; [exact Hlive1|]. split; [exact Hdeq|].
    split; [eauto using dequeue_wf|].
    split; [subst q1; cbn; lia|].
    pose proof (live_dequeue _ _ _ Hdeq) as Hlive2.
    rewrite Hlive1 in Hlive2. apply app_inj_tail in Hlive2. symmetry. apply Hlive2.
  - intros i q' Hdeq. split; [eauto using dequeue_wf|].
    split; [eauto using live_dequeue|].
    apply dequeue_inv in Hdeq as (_ & _ & ->). cbn. reflexivity.
Qed.

End StackClaims.

Lemma stack_discipline_witness :
  queue_wf (init Sample.fresh)
  /\ exists q1 q2,
       enqueue (Sample.domain Sample.constant5) (init Sample.fresh) = Ok q1
       /\ dequeue q1 = Ok (Sample.domain Sample.constant5, q2)
       /\ live q2 = [].
Proof.
  assert (Hwf : queue_wf (init Sample.fresh)) by (apply init_wf; reflexivity).
  split; [exact Hwf|].
  destruct (stack_discipline (init Sample.fresh) (Sample.domain Sample.constant5) Hwf)
    as (_ & _ & Hpush & _).
  destruct Hpush as (q1 & q2 & Henq & _ & _ & Hdeq & _ & _ & Hlive); [reflexivity|].
  exists q1, q2. auto.
Defined.

Section StepClaims.

Import WorkQueue.
Context {T : Type} `{Double T}.
Implicit Types (s : State T) (func : T -> T) (interval : Interval T).

Lemma process_accept func t interval s :
  accepts func interval = true -> total_processed s <> INT_MAX ->
  exists s',
    observed (process func t interval s) = Some s'
    /\ quad s' = (quad s + contribution func interval)%D
    /\ accepted s' = interval :: accepted s
    /\ total_processed s' = total_processed s + 1
    /\ total s' = total s.
Proof.
  intros Hacc Hmax. unfold process. rewrite Hacc.
  destruct (decide _); [contradiction|]. cbv zeta.
  destruct (decide _); eexists; (split; [reflexivity|]); cbn; auto.
Qed.

Lemma process_reject func t interval s s' :
  accepts func interval = false ->
  observed (process func t interval s) = Some s' ->
  quad s' = quad s /\ accepted s' = accepted s
  /\ total_processed s' = total_processed s.
Proof.
  intros Hacc. unfold process. rewrite Hacc.
  destruct (enqueue (i1 func interval) (queue s)) as [queue1| |]; cbn; try discriminate.
  - destruct (enqueue (i2 func interval) queue1) as [queue2| |]; cbn; try discriminate.
    + destruct (decide _); cbn; [discriminate|]. intros [= <-]. auto.
    + intros [= <-]. auto.
  - intros [= <-]. auto.
Qed.

(** C2. The refinement step on a dequeued interval. With [h = right - left]
    and the cached [f_left], [f_mid], [f_right], the step computes
    [q1 = h/6 * (f_left + 4 f_mid + f_right)] and
    [q2 = h/12 * (f_left + 4 f(quarter) + 2 f_mid + 4 f(three-quarter) + f_right)];
    it accepts exactly when [|q2 - q1| < tol] or [h < 1e-12]; when it accepts
    it adds [q2 + (q2 - q1)/15] to [quad] (and counts the interval as
    processed), and when it does not it leaves [quad] as it was. *)
Theorem refinement_step func t interval s :
  threads s !! t = Some (Holding interval) ->
  let h := (right interval - left interval)%D in
  let mid := ((left interval + right interval) / dlit 2)%D in
  let quarter := ((left interval + mid) / dlit 2)%D in
  let three_quarter := ((mid + right interval) / dlit 2)%D in
  let q1 := (h / dlit 6
             * (f_left interval + dlit 4 * f_mid interval + f_right interval))%D in
  let q2 := (h / dlit 12
             * (f_left interval + dlit 4 * func quarter + dlit 2 * f_mid interval
                + dlit 4 * func three_quarter + f_right interval))%D in
  let accept := dlt (fabs (q2 - q1)%D) (tol interval) || dlt h dfloor in
  (accept = true -> total_processed s <> INT_MAX ->
   exists s',
     observed (step func t s) = Some s'
     /\ quad s' = (quad s + (q2 + (q2 - q1) / dlit 15))%D
     /\ accepted s' = interval :: accepted s
     /\ total_processed s' = total_processed s + 1)
  /\ (accept = false ->
      forall s', observed (step func t s) = Some s' ->
      quad s' = quad s /\ accepted s' = accepted s
      /\ total_processed s' = total_processed s).
Proof.
  intros Ht h0 mid quarter three_quarter q1' q2' accept.
  unfold step. rewrite Ht.
  assert (Hacc : accepts func interval = accept) by reflexivity.
  split.
  - intros Ha Hmax. rewrite <- Hacc in Ha.
    destruct (process_accept func t interval s Ha Hmax) as (s' & Hobs & Hq & Hl & Hp & _).
    exists s'. auto.
  - intros Ha s' Hobs. rewrite <- Hacc in Ha. eauto using process_reject.
Qed.

(** C5. The counters of the work-queue program. In the state in which
    [main] starts the loops, [total] is 1 and [total_processed] is 0. In
    every state that a schedule reaches from there, and in the memory at any
    exit, [0 <= total_processed <= total] and [total] is odd; a step adds 1
    to [total_processed] exactly when it accepts an interval, adds 2 to
    [total] exactly when it splits one, and otherwise leaves both alone. *)
Theorem counters_invariant func l r tolerance num_threads (q : Queue T) schedule s0 s :
  Z.of_nat (length (entry q)) = MAXQUEUE ->
  seeded func l r tolerance num_threads q s0 ->
  exec func schedule s0 = Running s ->
  (total s0 = 1 /\ total_processed s0 = 0)
  /\ counters_ok s
  /\ forall t,
       match step func t s with
       | Running s' => counters_ok s' /\ counters_move func t s s'
       | Exited _ s' => counters_ok s'
       | Undef => True
       end.
Proof.
  intros Hlen Hseed Hexec.
  assert (Hc : counted s).
  { eapply exec_counted; [|exact Hexec]. eauto using seeded_counted. }
  split; [destruct Hseed as (q' & _ & ->); auto|].
  split; [apply counted_counters, Hc|].
  intros t. destruct (step func t s) as [s'|e s'|] eqn:Hstep; [| |exact I].
  - split; [eapply counted_counters, step_counted; eauto|].
    unfold counters_move. unfold step in Hstep.
    destruct (threads s !! t) as [[|interval|]|] eqn:Ht.
    + unfold poll in Hstep. destruct (isempty (queue s)).
      * injection Hstep as <-. auto.
      * destruct (dequeue (queue s)) as [[i q']| |]; try discriminate.
        injection Hstep as <-. auto.
    + unfold process in Hstep. destruct (accepts func interval).
      * destruct (decide _); [discriminate|]. cbv zeta in Hstep.
        destruct (decide _); [discriminate|]. injection Hstep as <-. auto.
      * destruct (enqueue _ (queue s)) as [queue1| |]; try discriminate.
        destruct (enqueue _ queue1) as [queue2| |]; try discriminate.
        destruct (decide _); [discriminate|]. injection Hstep as <-. auto.
    + injection Hstep as <-. auto.
    + injection Hstep as <-. auto.
  - pose proof (counted_counters s Hc) as [Hle Hodd].
    unfold counters_ok. unfold step in Hstep.
    destruct (threads s !! t) as [[|interval|]|] eqn:Ht; try discriminate.
    + unfold poll in Hstep. destruct (isempty (queue s)); [discriminate|].
      destruct (dequeue (queue s)) as [[i q']| |]; try discriminate.
      injection Hstep as <- <-. auto.
    + unfold process in Hstep. destruct (accepts func interval).
      * destruct (decide _); [discriminate|]. cbv zeta in Hstep.
        destruct (decide _) as [Heq|]; [|discriminate].
        injection Hstep as <- <-. fields. rewrite Heq. split; [lia|assumption].
      * destruct (enqueue _ (queue s)) as [queue1| |]; try discriminate.
        -- destruct (enqueue _ queue1) as [queue2| |]; try discriminate.
           ++ destruct (decide _); discriminate.
           ++ injection Hstep as <- <-. auto.
        -- injection Hstep as <- <-. auto.
Qed.

End StepClaims.

Lemma refinement_step_witness :
  WorkQueue.threads (Sample.holding_whole Sample.constant5) !! 0%nat
  = Some (WorkQueue.Holding (Sample.domain Sample.constant5))
  /\ exists s',
       observed (WorkQueue.step Sample.constant5 0 (Sample.holding_whole Sample.constant5))
       = Some s'
       /\ WorkQueue.quad s' = 50%float.
Proof.
  assert (Ht : WorkQueue.threads (Sample.holding_whole Sample.constant5) !! 0%nat
               = Some (WorkQueue.Holding (Sample.domain Sample.constant5)))
    by reflexivity.
  split; [exact Ht|].
  destruct (refinement_step Sample.constant5 0 _ _ Ht) as [Hacc _].
  destruct Hacc as (s' & Hobs & Hquad & _); [vm_compute; reflexivity | discriminate |].
  exists s'. split; [exact Hobs|]. rewrite Hquad. vm_compute. reflexivity.
Defined.

Lemma counters_invariant_witness :
  Z.of_nat (length (entry Sample.fresh)) = MAXQUEUE
  /\ exists s0 s,
       seeded Sample.constant5 0%float 10%float dmicro 2 Sample.fresh s0
       /\ WorkQueue.exec Sample.constant5 [0%nat; 1%nat] s0 = WorkQueue.Running s
       /\ counters_ok s.
Proof.
  assert (Hlen : Z.of_nat (length (entry Sample.fresh)) = MAXQUEUE) by reflexivity.
  split; [exact Hlen|].
  eexists _, _.
  assert (Hseed : seeded Sample.constant5 0%float 10%float dmicro 2 Sample.fresh
                    (WorkQueue.start 2
                       {| entry := <[0%nat := Sample.domain Sample.constant5]>
                                     (entry Sample.fresh);
                          top := 0 |} 1 0)).
  { eexists. split; [|reflexivity]. reflexivity. }
  split; [exact Hseed|].
  assert (Hexec : WorkQueue.exec Sample.constant5 [0%nat; 1%nat]
                    (WorkQueue.start 2
                       {| entry := <[0%nat := Sample.domain Sample.constant5]>
                                     (entry Sample.fresh);
                          top := 0 |} 1 0)
                  = WorkQueue.Running
                      {| WorkQueue.queue :=
                           {| entry := <[0%nat := Sample.domain Sample.constant5]>
                                         (entry Sample.fresh);
                              top := -1 |};
                         WorkQueue.total := 1; WorkQueue.total_processed := 0;
                         WorkQueue.quad := 0%float;
                         WorkQueue.threads :=
                           [WorkQueue.Holding (Sample.domain Sample.constant5);
                            WorkQueue.Finished];
                         WorkQueue.accepted := [] |})
    by reflexivity.
  split; [exact Hexec|].
  exact (proj1 (proj2 (counters_invariant _ _ _ _ _ _ _ _ _ Hlen Hseed Hexec))).
Defined.

(** ** The loop that leaves on an empty queue, and the exit on convergence *)

Section EarlyExit.

Import WorkQueue.
Context {T : Type} `{Double T}.
Implicit Types (s : State T) (ths : list (Thread T)) (func : T -> T).

(** A loop that finds the queue empty leaves, whatever the counters say. *)
Lemma poll_empty_leaves t s :
  isempty (queue s) = true ->
  poll t s = Running {| queue := queue s; total := total s;
                        total_processed := total_processed s; quad := quad s;
                        threads := <[t := Finished]> (threads s);
                        accepted := accepted s |}.
Proof. intros Hempty. unfold poll. rewrite Hempty. reflexivity. Qed.

Lemma held_pos ths :
  0 < held ths -> exists t interval, ths !! t = Some (Holding interval).
Proof.
  induction ths as [|th ths IH]; [cbn; lia|].
  rewrite held_cons. destruct th as [|interval|]; cbn [holding].
  - intros Hpos. destruct IH as (t & i & Ht); [lia|]. exists (S t), i. exact Ht.
  - intros _. exists 0%nat, interval. reflexivity.
  - intros Hpos. destruct IH as (t & i & Ht); [lia|]. exists (S t), i. exact Ht.
Qed.

Lemma forallb_finished_lookup ths t th :
  forallb finished ths = true -> ths !! t = Some th -> th = Finished.
Proof.
  intros Hall Ht. rewrite forallb_forall in Hall.
  apply list_elem_of_lookup_2, list_elem_of_In, Hall in Ht.
  destruct th; [discriminate|discriminate|reflexivity].
Qed.

Lemma step_untouched func seed t s s' :
  accepts func seed = true ->
  untouched seed s -> step func t s = Running s' -> untouched seed s'.
Proof.
  intros Hacc (Hc & Htot & Hproc & Hheld & Hlive & Hsome) Hstep.
  pose proof (step_counted func t s s' Hc Hstep) as Hc'.
  unfold step in Hstep.
  destruct (threads s !! t) as [[|interval|]|] eqn:Ht.
  - unfold poll in Hstep. destruct (isempty (queue s)) eqn:Hempty.
    + injection Hstep as <-. unfold untouched. fields.
      split; [exact Hc'|]. split; [exact Htot|]. split; [exact Hproc|].
      split.
      { intros t' i Ht'. apply list_lookup_insert_Some in Ht'.
        destruct Ht' as [(_ & [=] & _)|(_ & Ht')]. eauto. }
      split; [exact Hlive|].
      destruct Hc' as (_ & _ & _ & Hcount). fields.
      apply bool_decide_eq_true in Hempty. unfold size in Hcount.
      destruct (held_pos (<[t := Finished]> (threads s))) as (t' & i & Ht'); [lia|].
      exists t', (Holding i). split; [exact Ht'|discriminate].
    + destruct (dequeue (queue s)) as [[i q']| |] eqn:Hdeq; try discriminate.
      injection Hstep as <-. unfold untouched. fields.
      split; [exact Hc'|]. split; [exact Htot|]. split; [exact Hproc|].
      pose proof (live_dequeue _ _ _ Hdeq) as Hl.
      assert (Hi : i = seed /\ live q' = []).
      { destruct Hlive as [Hnil|Hone]; rewrite Hl in *.
        - destruct (live q'); discriminate.
        - change [seed] with ([] ++ [seed]) in Hone.
          apply app_inj_tail in Hone as [-> ->]. auto. }
      destruct Hi as [-> Hq']. split.
      { intros t' i' Ht'. apply list_lookup_insert_Some in Ht'.
        destruct Ht' as [(_ & [= <-] & _)|(_ & Ht')]; eauto. }
      split; [left; exact Hq'|].
      exists t, (Holding seed). split; [|discriminate].
      apply list_lookup_insert_eq. eapply lookup_lt_Some, Ht.
  - pose proof (Hheld t interval Ht) as ->.
    unfold process in Hstep. rewrite Hacc in Hstep.
    destruct (decide _); [discriminate|]. cbv zeta in Hstep.
    destruct (decide _) as [|Hne]; [discriminate|]. fields. lia.
  - injection Hstep as <-. unfold untouched. eauto 10.
  - injection Hstep as <-. unfold untouched. eauto 10.
Qed.

Lemma exec_untouched func seed schedule s s' :
  accepts func seed = true ->
  untouched seed s -> exec func schedule s = Running s' -> untouched seed s'.
Proof.
  intros Hacc. revert s. induction schedule as [|t schedule IH]; intros s Hu; cbn.
  - intros [= <-]. assumption.
  - destruct (step func t s) as [s1| |] eqn:Hstep; try discriminate.
    eauto using step_untouched.
Qed.

(** If the initial interval passes the acceptance test, [simpson] does not
    return under any schedule: the process exits inside it, with status 0. *)
Lemma integrate_never_returns func l r tolerance num_threads schedule (q : Queue T) :
  Z.of_nat (length (entry q)) = MAXQUEUE -> (0 < num_threads)%nat ->
  accepts func (whole func l r tolerance) = true ->
  forall quad, integrate func l r tolerance num_threads schedule q <> Returns quad.
Proof.
  intros Hlen Hn Hacc quad0. unfold integrate.
  destruct (enqueue (whole func l r tolerance) (init q)) as [q'| |] eqn:Henq;
    try discriminate.
  unfold simpson.
  destruct (exec func schedule (start num_threads q' 1 0)) as [s| |] eqn:Hexec;
    try discriminate.
  assert (Hu : untouched (whole func l r tolerance) s).
  { eapply exec_untouched; [exact Hacc| |exact Hexec].
    unfold untouched.
    split; [eapply seeded_counted; [exact Hlen|]; exists q'; eauto|].
    unfold start. fields. split; [reflexivity|]. split; [reflexivity|].
    split.
    { intros t i Ht. apply lookup_replicate in Ht as [[=] _]. }
    split.
    { right. rewrite (live_enqueue _ (init q) _ (Z.le_refl (-1)) Henq). reflexivity. }
    exists 0%nat, Polling. split; [|discriminate].
    apply lookup_replicate. split; [reflexivity|lia]. }
  destruct Hu as (_ & _ & _ & _ & _ & (t & th & Ht & Hth)).
  destruct (forallb finished (threads s)) eqn:Hall; [|discriminate].
  contradiction Hth. eauto using forallb_finished_lookup.
Qed.

End EarlyExit.

(** C3. On the constant function 5 over [0, 10] the initial interval is
    accepted, [total_processed] reaches [total], and the process exits with
    status 0 inside [simpson]: [main] never gets the sum and prints no
    result, under any schedule and any number of loops. *)
Theorem main_exits_before_result :
  WorkQueue.main Sample.constant5 1 [0%nat; 0%nat] Sample.fresh
  = WorkQueue.Exits Converged
  /\ exit_code Converged = 0
  /\ forall n schedule quad,
       WorkQueue.main Sample.constant5 (S n) schedule Sample.fresh
       <> WorkQueue.Returns quad.
Proof.
  split; [reflexivity|]. split; [reflexivity|].
  intros n schedule quad. apply integrate_never_returns; [reflexivity|lia|reflexivity].
Qed.

(** C9. On the constant function 5 over [0, 10] with tolerance 1e-06 the
    recursive integrator returns 50, and the work-queue integrator with one
    loop returns nothing: whatever the length of the run, [simpson] has not
    returned, and after two steps the process has exited. *)
Theorem single_loop_differs_from_recursion :
  simpson_rec 1 Sample.constant5 (Sample.domain Sample.constant5) = Some 50%float
  /\ (forall k quad,
        WorkQueue.main Sample.constant5 1 (replicate k 0%nat) Sample.fresh
        <> WorkQueue.Returns quad)
  /\ forall k,
       WorkQueue.main Sample.constant5 1 (replicate (S (S k)) 0%nat) Sample.fresh
       = WorkQueue.Exits Converged.
Proof.
  split; [reflexivity|]. split.
  - intros k quad.
    apply integrate_never_returns; [reflexivity|lia|reflexivity].
  - intros k. reflexivity.
Qed.

(** ** The invariant of the intervals *)

Section Intervals.

Import WorkQueue.
Context {T : Type} `{Double T}.
Implicit Types (s : State T) (func : T -> T) (interval : Interval T).

Lemma whole_cached func l r tolerance : cached func (whole func l r tolerance).
Proof. unfold cached, whole. cbn. auto. Qed.

Lemma halves_cached func interval :
  cached func interval ->
  cached func (i1 func interval) /\ cached func (i2 func interval).
Proof.
  intros (Hl & Hr & Hm). unfold cached, i1, i2, fd, fe, d, e. cbn.
  unfold c in *. rewrite Hl, Hr, Hm. auto 10.
Qed.

Lemma halves_reuse_always func interval : halves_reuse func interval.
Proof. unfold halves_reuse. cbn. auto 20. Qed.

Lemma halves_ordered func interval :
  midpoint_between -> ordered interval ->
  ordered (i1 func interval) /\ ordered (i2 func interval).
Proof.
  intros Hmid Hord. unfold ordered, i1, i2 in *. cbn.
  destruct (Hmid _ _ Hord) as [Hlo Hhi]. unfold c. auto.
Qed.

(** A property that a split hands down to both halves holds of every
    interval that the program ever holds, once it holds of those it starts
    with. *)
Lemma step_everywhere (P : Interval T -> Prop) func t s s' :
  (forall interval, P interval -> P (i1 func interval) /\ P (i2 func interval)) ->
  queue_wf (queue s) ->
  everywhere P s -> step func t s = Running s' -> everywhere P s'.
Proof.
  intros Hsplit Hwf (Hq & Hh & Ha) Hstep. unfold step in Hstep.
  destruct (threads s !! t) as [[|interval|]|] eqn:Ht.
  - unfold poll in Hstep. destruct (isempty (queue s)).
    + injection Hstep as <-. unfold everywhere. fields.
      split; [exact Hq|]. split; [|exact Ha].
      intros t' i Ht'. apply list_lookup_insert_Some in Ht'.
      destruct Ht' as [(_ & [=] & _)|(_ & Ht')]. eauto.
    + destruct (dequeue (queue s)) as [[i q']| |] eqn:Hdeq; try discriminate.
      injection Hstep as <-. unfold everywhere. fields.
      rewrite (live_dequeue _ _ _ Hdeq) in Hq.
      apply Forall_app in Hq as [Hq' Hi]. apply List.Forall_inv in Hi.
      split; [exact Hq'|]. split; [|exact Ha].
      intros t' i' Ht'. apply list_lookup_insert_Some in Ht'.
      destruct Ht' as [(_ & [= <-] & _)|(_ & Ht')]; eauto.
  - pose proof (Hh t interval Ht) as HP.
    unfold process in Hstep. destruct (accepts func interval).
    + destruct (decide _); [discriminate|]. cbv zeta in Hstep.
      destruct (decide _); [discriminate|].
      injection Hstep as <-. unfold everywhere. fields.
      split; [exact Hq|]. split; [|constructor; assumption].
      intros t' i Ht'. apply list_lookup_insert_Some in Ht'.
      destruct Ht' as [(_ & [=] & _)|(_ & Ht')]. eauto.
    + destruct (enqueue _ (queue s)) as [queue1| |] eqn:E1; try discriminate.
      destruct (enqueue _ queue1) as [queue2| |] eqn:E2; try discriminate.
      destruct (decide _); [discriminate|].
      injection Hstep as <-. unfold everywhere. fields.
      destruct (Hsplit interval HP) as [H1 H2].
      pose proof (enqueue_wf _ _ _ Hwf E1) as Hwf1.
      rewrite (live_enqueue _ _ _ (proj1 (proj2 Hwf1)) E2).
      rewrite (live_enqueue _ _ _ (proj1 (proj2 Hwf)) E1).
      split; [repeat (apply Forall_app; split); auto|].
      split; [|exact Ha].
      intros t' i Ht'. apply list_lookup_insert_Some in Ht'.
      destruct Ht' as [(_ & [=] & _)|(_ & Ht')]. eauto.
  - injection Hstep as <-. unfold everywhere. auto.
  - injection Hstep as <-. unfold everywhere. auto.
Qed.

Lemma exec_everywhere (P : Interval T -> Prop) func schedule s s' :
  (forall interval, P interval -> P (i1 func interval) /\ P (i2 func interval)) ->
  counted s ->
  everywhere P s -> exec func schedule s = Running s' -> everywhere P s'.
Proof.
  intros Hsplit. revert s. induction schedule as [|t schedule IH]; intros s Hc He; cbn.
  - intros [= <-]. assumption.
  - destruct (step func t s) as [s1| |] eqn:Hstep; try discriminate.
    apply IH; [eauto using step_counted|].
    eapply step_everywhere; eauto. apply Hc.
Qed.

Lemma seeded_everywhere (P : Interval T -> Prop) func l r tolerance num_threads
    (q : Queue T) s :
  P (whole func l r tolerance) ->
  seeded func l r tolerance num_threads q s -> everywhere P s.
Proof.
  intros HP (q' & Henq & ->). unfold everywhere, start. fields.
  rewrite (live_enqueue _ (init q) _ (Z.le_refl (-1)) Henq).
  split; [repeat constructor; exact HP|]. split; [|constructor].
  intros t i Ht. apply lookup_replicate in Ht as [[=] _].
Qed.

(** C4. Every interval that the work-queue program creates and holds, in
    the queue, in a loop or among the accepted ones, carries the values of
    [func] at its boundaries and at its midpoint. A split copies from the
    parent what it can: the left half takes the parent's [left], [f_left]
    and, as its right side, the midpoint [c] with [f_mid]; the right half
    takes [c] with [f_mid] as its left side and the parent's [right] and
    [f_right]; the values at the quarter points become the midpoint values
    of the halves, and the tolerance is copied. If the initial interval has
    [left < right] and the arithmetic puts a midpoint strictly between
    ordered boundaries, every interval has [left < right]. *)
Theorem created_intervals func l r tolerance num_threads (q : Queue T) schedule s0 s :
  Z.of_nat (length (entry q)) = MAXQUEUE ->
  seeded func l r tolerance num_threads q s0 ->
  exec func schedule s0 = Running s ->
  everywhere (cached func) s
  /\ (forall interval, halves_reuse func interval)
  /\ (forall interval,
        cached func interval ->
        cached func (i1 func interval) /\ cached func (i2 func interval))
  /\ (midpoint_between -> dlt l r = true -> everywhere ordered s).
Proof.
  intros Hlen Hseed Hexec.
  pose proof (seeded_counted _ _ _ _ _ _ _ Hlen Hseed) as Hc.
  split.
  { eapply exec_everywhere; [| exact Hc | | exact Hexec].
    - apply halves_cached.
    - eapply seeded_everywhere; [|exact Hseed]. apply whole_cached. }
  split; [apply halves_reuse_always|].
  split; [apply halves_cached|].
  intros Hmid Hlt.
  eapply exec_everywhere; [| exact Hc | | exact Hexec].
  - intros interval. apply halves_ordered, Hmid.
  - eapply seeded_everywhere; [|exact Hseed]. exact Hlt.
Qed.

End Intervals.

(** ** Arithmetic without rounding *)

Lemma Qltb_lt (x y : Q) : Qltb x y = true <-> (x < y)%Q.
Proof.
  unfold Qltb. rewrite negb_true_iff, <- not_true_iff_false, Qle_bool_iff.
  split; [apply Qnot_le_lt | apply Qlt_not_le].
Qed.

Lemma Qltb_ge (x y : Q) : Qltb x y = false <-> (y <= x)%Q.
Proof.
  unfold Qltb. rewrite negb_false_iff. apply Qle_bool_iff.
Qed.

Lemma exact_midpoint_between : @midpoint_between Q exact.
Proof.
  intros x y Hxy. cbn in *. apply Qltb_lt in Hxy.
  change (inject_Z 2) with (2 # 1)%Q.
  split; apply Qltb_lt.
  - apply Qlt_shift_div_l; [reflexivity | lra].
  - apply Qlt_shift_div_r; [reflexivity | lra].
Qed.

Lemma created_intervals_witness :
  Z.of_nat (length (entry ExactSample.fresh)) = MAXQUEUE
  /\ seeded ExactSample.quartic 0%Q 1%Q (1 # 1000)%Q 2 ExactSample.fresh
       ExactSample.seeded_state
  /\ WorkQueue.exec ExactSample.quartic [0; 1; 0; 0; 0]%nat ExactSample.seeded_state
     = WorkQueue.Running (ExactSample.after [0; 1; 0; 0; 0]%nat)
  /\ everywhere (cached ExactSample.quartic) (ExactSample.after [0; 1; 0; 0; 0]%nat)
  /\ everywhere ordered (ExactSample.after [0; 1; 0; 0; 0]%nat).
Proof.
  assert (Hlen : Z.of_nat (length (entry ExactSample.fresh)) = MAXQUEUE) by reflexivity.
  assert (Hseed : seeded ExactSample.quartic 0%Q 1%Q (1 # 1000)%Q 2 ExactSample.fresh
                    ExactSample.seeded_state).
  { eexists. split; reflexivity. }
  assert (Hexec : WorkQueue.exec ExactSample.quartic [0; 1; 0; 0; 0]%nat
                    ExactSample.seeded_state
                  = WorkQueue.Running (ExactSample.after [0; 1; 0; 0; 0]%nat))
    by (vm_compute; reflexivity).
  destruct (created_intervals _ _ _ _ _ _ _ _ _ Hlen Hseed Hexec)
    as (Hcached & _ & _ & Hordered).
  split; [exact Hlen|]. split; [exact Hseed|]. split; [exact Hexec|].
  split; [exact Hcached|].
  apply Hordered; [exact exact_midpoint_between | reflexivity].
Defined.

(** On binary64 a split can produce an interval whose boundaries coincide.
    The initial interval [2^53, 2^53 + 2] of the function [x - 2^53] has
    [left < right] and the right cached values; its midpoint rounds to 2^53,
    it is rejected, and the run of one loop puts the left half
    [2^53, 2^53] in the queue. *)
Lemma binary64_split_collapses :
  ordered Sample.stalled
  /\ cached Sample.shifted Sample.stalled
  /\ exists s first second,
       WorkQueue.exec Sample.shifted [0; 0]%nat
         (WorkQueue.start 1 (Sample.seeded_queue Sample.stalled) 1 0)
       = WorkQueue.Running s
       /\ live (WorkQueue.queue s) = [first; second]
       /\ left first = Sample.two53 /\ right first = Sample.two53
       /\ ~ ordered first.
Proof.
  split; [reflexivity|]. split; [apply whole_cached|].
  eexists _, _, _. split; [vm_compute; reflexivity|].
  split; [vm_compute; reflexivity|].
  split; [reflexivity|]. split; [reflexivity|].
  unfold ordered. vm_compute. discriminate.
Qed.

(** ** Conservation of width *)

Section Widths.

Import WorkQueue.
Local Open Scope Q_scope.
Context {T : Type} `{Double T} (real : T -> Q).
Implicit Types (s : State T) (ths : list (Thread T)) (func : T -> T).

Lemma widths_cons interval (l : list (Interval T)) :
  widths real (interval :: l) = exact_width real interval + widths real l.
Proof. reflexivity. Qed.

Lemma widths_app (l1 l2 : list (Interval T)) :
  widths real (l1 ++ l2) == widths real l1 + widths real l2.
Proof.
  induction l1 as [|interval l1 IH].
  - change ([] ++ l2) with l2. change (widths real []) with 0. lra.
  - change ((interval :: l1) ++ l2) with (interval :: (l1 ++ l2)).
    rewrite !widths_cons, IH. lra.
Qed.

Lemma hands_width_cons th ths :
  hands_width real (th :: ths) = hand_width real th + hands_width real ths.
Proof. reflexivity. Qed.

Lemma hands_width_insert ths t th th' :
  ths !! t = Some th ->
  hands_width real (<[t := th']> ths)
  == hands_width real ths - hand_width real th + hand_width real th'.
Proof.
  revert t. induction ths as [|x ths IH]; intros [|t] Hlook; try discriminate.
  - injection Hlook as ->.
    change (<[0%nat := th']> (th :: ths)) with (th' :: ths).
    rewrite !hands_width_cons. lra.
  - change (<[S t := th']> (x :: ths)) with (x :: <[t := th']> ths).
    rewrite !hands_width_cons, (IH t Hlook). lra.
Qed.

Lemma hands_width_idle ths : held ths = 0%Z -> hands_width real ths == 0.
Proof.
  induction ths as [|th ths IH]; [reflexivity|].
  rewrite held_cons, hands_width_cons. intros Hheld.
  pose proof (held_nonneg ths).
  destruct th; cbn [holding hand_width] in *; try lia; rewrite IH by lia; lra.
Qed.

Lemma held_finished ths : forallb finished ths = true -> held ths = 0%Z.
Proof.
  induction ths as [|th ths IH]; [reflexivity|].
  cbn [forallb]. intros [Hth Hall]%andb_true_iff.
  rewrite held_cons, (IH Hall). destruct th; try discriminate. reflexivity.
Qed.

Lemma live_empty (q : Queue T) : size q = 0%Z -> live q = [].
Proof. unfold size, live. intros ->. reflexivity. Qed.

(** The halves share the midpoint and keep the outer boundaries. *)
Lemma halves_abut func interval :
  left (i1 func interval) = left interval
  /\ right (i1 func interval) = c interval
  /\ left (i2 func interval) = c interval
  /\ right (i2 func interval) = right interval.
Proof. repeat split. Qed.

Lemma halves_width func interval :
  exact_width real (i1 func interval) + exact_width real (i2 func interval)
  == exact_width real interval.
Proof.
  unfold exact_width. destruct (halves_abut func interval) as (-> & -> & -> & ->).
  ring.
Qed.

Lemma step_conserved w func t s s' :
  counted s -> conserved real w s -> step func t s = Running s' -> conserved real w s'.
Proof.
  intros (Hwf & _) Hw Hstep. unfold conserved in *. unfold step in Hstep.
  destruct (threads s !! t) as [[|interval|]|] eqn:Ht.
  - unfold poll in Hstep. destruct (isempty (queue s)).
    + injection Hstep as <-. fields.
      rewrite (hands_width_insert _ _ _ _ Ht). cbn [hand_width]. lra.
    + destruct (dequeue (queue s)) as [[i q']| |] eqn:Hdeq; try discriminate.
      injection Hstep as <-. fields.
      rewrite (hands_width_insert _ _ _ _ Ht). cbn [hand_width].
      rewrite (live_dequeue _ _ _ Hdeq), widths_app, widths_cons in Hw.
      cbn [widths foldr] in Hw. lra.
  - unfold process in Hstep. destruct (accepts func interval).
    + destruct (decide _); [discriminate|]. cbv zeta in Hstep.
      destruct (decide _); [discriminate|].
      injection Hstep as <-. fields.
      rewrite (hands_width_insert _ _ _ _ Ht), widths_cons. cbn [hand_width]. lra.
    + destruct (enqueue _ (queue s)) as [queue1| |] eqn:E1; try discriminate.
      destruct (enqueue _ queue1) as [queue2| |] eqn:E2; try discriminate.
      destruct (decide _); [discriminate|].
      injection Hstep as <-. fields.
      pose proof (enqueue_wf _ _ _ Hwf E1) as Hwf1.
      rewrite (live_enqueue _ _ _ (proj1 (proj2 Hwf1)) E2).
      rewrite (live_enqueue _ _ _ (proj1 (proj2 Hwf)) E1).
      rewrite (hands_width_insert _ _ _ _ Ht), !widths_app, !widths_cons.
      cbn [hand_width widths foldr].
      pose proof (halves_width func interval). lra.
  - injection Hstep as <-. exact Hw.
  - injection Hstep as <-. exact Hw.
Qed.

Lemma exec_conserved w func schedule s s' :
  counted s -> conserved real w s -> exec func schedule s = Running s' ->
  conserved real w s'.
Proof.
  revert s. induction schedule as [|t schedule IH]; intros s Hc Hw; cbn.
  - intros [= <-]. assumption.
  - destruct (step func t s) as [s1| |] eqn:Hstep; try discriminate.
    eauto using step_counted, step_conserved.
Qed.

Lemma seeded_conserved func l r tolerance num_threads (q : Queue T) s :
  seeded func l r tolerance num_threads q s -> conserved real (real r - real l) s.
Proof.
  intros (q' & Henq & ->). unfold conserved, start. fields.
  rewrite (live_enqueue _ (init q) _ (Z.le_refl (-1)) Henq).
  assert (Hidle : hands_width real (replicate num_threads (@Polling T)) == 0).
  { apply hands_width_idle, held_replicate_polling. }
  rewrite Hidle, live_init. change ([] ++ [whole func l r tolerance]) with [whole func l r tolerance].
  rewrite widths_cons. change (widths real []) with 0. unfold exact_width, whole.
  cbn [left right]. lra.
Qed.

End Widths.

Section Drained.

Import WorkQueue.
Context {T : Type} `{Double T}.
Implicit Types (s : State T) (func : T -> T).

Lemma not_all_finished (ths : list (Thread T)) t th th' :
  ths !! t = Some th -> finished th' = false ->
  forallb finished (<[t := th']> ths) = false.
Proof.
  intros Ht Hth'. apply not_true_is_false. intros Hall.
  assert (Hlook : <[t := th']> ths !! t = Some th').
  { apply list_lookup_insert_eq. eapply lookup_lt_Some, Ht. }
  pose proof (forallb_finished_lookup _ _ _ Hall Hlook) as ->. discriminate.
Qed.

Lemma step_drained func t s s' :
  drained s -> step func t s = Running s' -> drained s'.
Proof.
  intros Hd Hstep. unfold drained in *. unfold step in Hstep.
  destruct (threads s !! t) as [[|interval|]|] eqn:Ht.
  - unfold poll in Hstep. destruct (isempty (queue s)) eqn:Hempty.
    + injection Hstep as <-. fields. auto.
    + destruct (dequeue (queue s)) as [[i q']| |] eqn:Hdeq; try discriminate.
      injection Hstep as <-. fields.
      rewrite (not_all_finished _ _ _ _ Ht); [discriminate|reflexivity].
  - unfold process in Hstep. destruct (accepts func interval).
    + destruct (decide _); [discriminate|]. cbv zeta in Hstep.
      destruct (decide _); [discriminate|].
      injection Hstep as <-. fields.
      rewrite (not_all_finished _ _ _ _ Ht); [discriminate|reflexivity].
    + destruct (enqueue _ (queue s)) as [queue1| |] eqn:E1; try discriminate.
      destruct (enqueue _ queue1) as [queue2| |] eqn:E2; try discriminate.
      destruct (decide _); [discriminate|].
      injection Hstep as <-. fields.
      rewrite (not_all_finished _ _ _ _ Ht); [discriminate|reflexivity].
  - injection Hstep as <-. exact Hd.
  - injection Hstep as <-. exact Hd.
Qed.

Lemma exec_drained func schedule s s' :
  drained s -> exec func schedule s = Running s' -> drained s'.
Proof.
  revert s. induction schedule as [|t schedule IH]; intros s Hd; cbn.
  - intros [= <-]. assumption.
  - destruct (step func t s) as [s1| |] eqn:Hstep; try discriminate.
    eauto using step_drained.
Qed.

Lemma start_drained num_threads (q : Queue T) total0 processed0 :
  (0 < num_threads)%nat -> drained (start num_threads q total0 processed0).
Proof.
  intros Hn. unfold drained, start. fields.
  destruct num_threads as [|n]; [lia|]. cbn. discriminate.
Qed.

End Drained.

Section WidthClaim.

Import WorkQueue.
Local Open Scope Q_scope.
Context {T : Type} `{Double T} (real : T -> Q).
Implicit Types (s : State T) (func : T -> T).

Lemma converged_all_accepted w func t s s' :
  counted s -> conserved real w s ->
  step func t s = Exited Converged s' -> widths real (accepted s') == w.
Proof.
  intros Hc Hw Hstep. unfold step in Hstep.
  destruct (threads s !! t) as [[|interval|]|] eqn:Ht; try discriminate.
  - unfold poll in Hstep. destruct (isempty (queue s)); [discriminate|].
    destruct (dequeue (queue s)) as [[i q']| |] eqn:Hdeq; try discriminate.
    injection Hstep as -> _. apply dequeue_exit in Hdeq. discriminate.
  - unfold process in Hstep. destruct (accepts func interval).
    + destruct (decide _); [discriminate|]. cbv zeta in Hstep.
      destruct (decide _) as [Heq|]; [|discriminate].
      injection Hstep as <-. fields.
      destruct Hc as (Hwf & Hpos & Hone & Hcount).
      pose proof (held_insert _ _ _ Polling Ht) as Hheld.
      pose proof (held_nonneg (<[t := Polling]> (threads s))) as Hnn.
      cbn [holding] in Hheld.
      assert (Hsize : size (queue s) = 0%Z).
      { destruct Hwf as [_ Htop]. unfold size in *. lia. }
      assert (Hidle : held (<[t := Polling]> (threads s)) = 0%Z).
      { destruct Hwf as [_ Htop]. unfold size in *. lia. }
      pose proof (hands_width_insert real _ _ _ Polling Ht) as Hhands.
      rewrite (hands_width_idle real _ Hidle) in Hhands. cbn [hand_width] in Hhands.
      unfold conserved in Hw. rewrite (live_empty _ Hsize) in Hw.
      rewrite widths_cons. change (widths real []) with 0 in Hw. lra.
    + destruct (enqueue _ (queue s)) as [queue1| |] eqn:E1.
      * destruct (enqueue _ queue1) as [queue2| |] eqn:E2; try discriminate.
        -- destruct (decide _); discriminate.
        -- injection Hstep as -> _. apply enqueue_exit in E2. discriminate.
      * injection Hstep as -> _. apply enqueue_exit in E1. discriminate.
      * discriminate.
Qed.

(** The widths along a run of the work-queue program. *)
Lemma run_conserves_width func l r tolerance num_threads (q : Queue T) schedule s0 s :
  Z.of_nat (length (entry q)) = MAXQUEUE ->
  seeded func l r tolerance num_threads q s0 ->
  exec func schedule s0 = Running s ->
  conserved real (real r - real l) s
  /\ ((0 < num_threads)%nat -> forallb finished (threads s) = true ->
      widths real (accepted s) == real r - real l)
  /\ (forall t s', step func t s = Exited Converged s' ->
      widths real (accepted s') == real r - real l).
Proof.
  intros Hlen Hseed Hexec.
  pose proof (seeded_counted _ _ _ _ _ _ _ Hlen Hseed) as Hc0.
  pose proof (exec_counted _ _ _ _ Hc0 Hexec) as Hc.
  pose proof (exec_conserved real _ _ _ _ _ Hc0
                (seeded_conserved real _ _ _ _ _ _ _ Hseed) Hexec) as Hw.
  split; [exact Hw|]. split.
  - intros Hn Hall.
    assert (Hd : drained s).
    { eapply exec_drained; [|exact Hexec].
      destruct Hseed as (q' & _ & ->). apply start_drained, Hn. }
    pose proof (Hd Hall) as Hempty. apply bool_decide_eq_true in Hempty.
    unfold conserved in Hw.
    rewrite (live_empty (queue s)) in Hw by (unfold size; lia).
    rewrite (hands_width_idle real _ (held_finished _ Hall)) in Hw.
    change (widths real []) with 0 in Hw. lra.
  - intros t s' Hstep. eauto using converged_all_accepted.
Qed.

End WidthClaim.

(** The program computes the width [h] of each interval it refines, rounded,
    and never adds two widths. Had it done so, the sum would be rounded
    again: [-3, 2^54] with the quartic is rejected, hence split; its [h] is
    2^54 + 4 (2^54 + 3 rounded), the midpoint is 2^53 - 2, the halves have
    [h] 2^53 (2^53 + 1 rounded) and 2^53 + 2, and these add up in [double]
    to 2^54 (2^54 + 2 rounded). The boundaries themselves are exact: see
    [float_value] and the conservation of width below. *)
Lemma binary64_widths_differ :
  accepts Sample.quartic Sample.wide = false
  /\ h Sample.wide = 18014398509481988%float
  /\ c Sample.wide = 9007199254740990%float
  /\ h (i1 Sample.quartic Sample.wide) = 9007199254740992%float
  /\ h (i2 Sample.quartic Sample.wide) = 9007199254740994%float
  /\ (h (i1 Sample.quartic Sample.wide) + h (i2 Sample.quartic Sample.wide))%D
     = 18014398509481984%float
  /\ (h (i1 Sample.quartic Sample.wide) + h (i2 Sample.quartic Sample.wide))%D
     <> h Sample.wide.
Proof.
  repeat split; try (vm_compute; reflexivity).
  vm_compute. intros Heq.
  assert (Hb : PrimFloat.eqb 18014398509481984%float 18014398509481988%float = true)
    by (rewrite Heq; reflexivity).
  vm_compute in Hb. discriminate.
Qed.

(** ** Termination of the refinement *)

Section Termination.

Local Open Scope Q_scope.
Implicit Types (func : Q -> Q) (interval : Interval Q).

Lemma pow2_succ n : pow2 (S n) == 2 * pow2 n.
Proof.
  unfold pow2. rewrite Nat2Z.inj_succ, Z.pow_succ_r by lia.
  rewrite inject_Z_mult. reflexivity.
Qed.

Lemma half_width_left func interval :
  width (i1 func interval) == width interval * (1 # 2).
Proof.
  unfold width, i1, c. cbn. change (inject_Z 2) with (2 # 1). field.
Qed.

Lemma half_width_right func interval :
  width (i2 func interval) == width interval * (1 # 2).
Proof.
  unfold width, i2, c. cbn. change (inject_Z 2) with (2 # 1). field.
Qed.

Lemma below_floor_accepts func interval :
  width interval * (1000000000000 # 1) < 1 -> accepts func interval = true.
Proof.
  intros Hw. unfold accepts. apply orb_true_iff. right.
  cbn. apply Qltb_lt. fold (width interval). lra.
Qed.

(** An interval whose width is below [2^n * 1e-12] is resolved by [n + 1]
    levels of the recursion. *)
Lemma resolves_within n func interval :
  width interval * (1000000000000 # 1) < pow2 n ->
  exists ls, leaves (S n) func interval = Some ls.
Proof.
  revert interval. induction n as [|n IH]; intros interval Hw.
  - cbn [leaves]. rewrite below_floor_accepts by exact Hw. eauto.
  - cbn [leaves]. destruct (accepts func interval); [eauto|].
    rewrite pow2_succ in Hw.
    destruct (IH (i1 func interval)) as [l1 H1].
    { rewrite half_width_left. lra. }
    destruct (IH (i2 func interval)) as [l2 H2].
    { rewrite half_width_right. lra. }
    cbn [leaves] in H1, H2. rewrite H1, H2. eauto.
Qed.

Lemma levels_spec interval :
  width interval * (1000000000000 # 1) < pow2 (levels interval).
Proof.
  unfold levels, pow2.
  set (x := width interval * (1000000000000 # 1)).
  set (a := (Qfloor x + 1)%Z).
  apply Qlt_le_trans with (inject_Z a); [apply Qlt_floor|].
  rewrite <- Zle_Qle, Z2Nat.id by apply Z.log2_up_nonneg.
  destruct (Z_lt_le_dec 0 a) as [Hpos|Hneg].
  - apply Z.log2_log2_up_spec, Hpos.
  - pose proof (Z.pow_pos_nonneg 2 (Z.log2_up a) ltac:(lia) (Z.log2_up_nonneg a)).
    lia.
Qed.

Lemma simpson_rec_leaves {T : Type} `{Double T} fuel (f : T -> T) (i : Interval T) :
  is_Some (simpson_rec fuel f i) <-> is_Some (leaves fuel f i).
Proof.
  revert i. induction fuel as [|n IH]; intros i; cbn.
  - split; intros [? [=]].
  - destruct (accepts f i); [split; eauto|].
    pose proof (IH (i1 f i)) as IH1. pose proof (IH (i2 f i)) as IH2.
    destruct (simpson_rec n f (i1 f i)), (leaves n f (i1 f i)),
      (simpson_rec n f (i2 f i)), (leaves n f (i2 f i));
      split; intros Hs; eauto;
      repeat match goal with
             | Hx : is_Some None <-> _ |- _ =>
                 destruct Hx as [_ Hx]; destruct Hx as [? [=]]; eauto
             | Hx : _ <-> is_Some None |- _ =>
                 destruct Hx as [Hx _]; destruct Hx as [? [=]]; eauto
             | Hx : is_Some None |- _ => destruct Hx as [? [=]]
             end.
Qed.

(** The recursion ends within [levels + 1] levels. *)
Lemma recursion_terminates func interval :
  width interval * (1000000000000 # 1) < pow2 (levels interval)
  /\ (forall interval', width interval' < 1 # 1000000000000 ->
      accepts func interval' = true)
  /\ (exists ls, leaves (S (levels interval)) func interval = Some ls)
  /\ (exists quad, simpson_rec (S (levels interval)) func interval = Some quad).
Proof.
  split; [apply levels_spec|]. split.
  - intros interval' Hw. apply below_floor_accepts. lra.
  - pose proof (resolves_within _ func interval (levels_spec interval)) as Hls.
    split; [exact Hls|]. apply simpson_rec_leaves. destruct Hls as [ls Hls].
    rewrite Hls. eauto.
Qed.

End Termination.

Section Stuck.

Import WorkQueue.
Context {T : Type} `{Double T}.
Implicit Types (s : State T) (func : T -> T) (interval : Interval T).

(** An interval that is rejected and whose right half is the interval
    itself never goes away. *)
Lemma step_lingering func stuck t s s' :
  accepts func stuck = false -> i2 func stuck = stuck ->
  queue_wf (queue s) ->
  lingering stuck s -> step func t s = Running s' -> lingering stuck s'.
Proof.
  intros Hrej Hsame Hwf Hl Hstep. unfold lingering in *. unfold step in Hstep.
  destruct (threads s !! t) as [[|interval|]|] eqn:Ht.
  - unfold poll in Hstep. destruct (isempty (queue s)) eqn:Hempty.
    + injection Hstep as <-. fields. destruct Hl as [Hin|[t' Ht']].
      * apply bool_decide_eq_true in Hempty. unfold live in Hin.
        rewrite Hempty in Hin. cbn in Hin. inversion Hin.
      * right. exists t'. rewrite list_lookup_insert_ne; [exact Ht'|congruence].
    + destruct (dequeue (queue s)) as [[i q']| |] eqn:Hdeq; try discriminate.
      injection Hstep as <-. fields. destruct Hl as [Hin|[t' Ht']].
      * rewrite (live_dequeue _ _ _ Hdeq) in Hin.
        apply elem_of_app in Hin as [Hin|Hin]; [left; exact Hin|].
        apply list_elem_of_singleton in Hin as ->.
        right. exists t. apply list_lookup_insert_eq. eapply lookup_lt_Some, Ht.
      * right. exists t'. rewrite list_lookup_insert_ne; [exact Ht'|congruence].
  - unfold process in Hstep. destruct (accepts func interval) eqn:Hacc.
    + destruct (decide _); [discriminate|]. cbv zeta in Hstep.
      destruct (decide _); [discriminate|].
      injection Hstep as <-. fields. destruct Hl as [Hin|[t' Ht']]; [auto|].
      right. exists t'. rewrite list_lookup_insert_ne; [exact Ht'|].
      intros <-. congruence.
    + destruct (enqueue _ (queue s)) as [queue1| |] eqn:E1; try discriminate.
      destruct (enqueue _ queue1) as [queue2| |] eqn:E2; try discriminate.
      destruct (decide _); [discriminate|].
      injection Hstep as <-. fields.
      pose proof (enqueue_wf _ _ _ Hwf E1) as Hwf1.
      rewrite (live_enqueue _ _ _ (proj1 (proj2 Hwf1)) E2).
      rewrite (live_enqueue _ _ _ (proj1 (proj2 Hwf)) E1).
      destruct Hl as [Hin|[t' Ht']].
      * left. rewrite !elem_of_app. auto.
      * destruct (decide (t = t')) as [<-|Hne].
        -- assert (interval = stuck) as -> by congruence.
           left. rewrite Hsame. apply elem_of_app. right.
           apply list_elem_of_singleton. reflexivity.
        -- right. exists t'. rewrite list_lookup_insert_ne; [exact Ht'|exact Hne].
  - injection Hstep as <-. exact Hl.
  - injection Hstep as <-. exact Hl.
Qed.

Lemma exec_lingering func stuck schedule s s' :
  accepts func stuck = false -> i2 func stuck = stuck ->
  counted s ->
  lingering stuck s -> exec func schedule s = Running s' -> lingering stuck s'.
Proof.
  intros Hrej Hsame. revert s.
  induction schedule as [|t schedule IH]; intros s Hc Hl; cbn.
  - intros [= <-]. assumption.
  - destruct (step func t s) as [s1| |] eqn:Hstep; try discriminate.
    apply IH; [eauto using step_counted|].
    eapply step_lingering; eauto. apply Hc.
Qed.

(** If the initial interval is rejected and is its own right half,
    [simpson] never returns. *)
Lemma stuck_never_returns func l r tolerance num_threads schedule (q : Queue T) :
  Z.of_nat (length (entry q)) = MAXQUEUE -> (0 < num_threads)%nat ->
  accepts func (whole func l r tolerance) = false ->
  i2 func (whole func l r tolerance) = whole func l r tolerance ->
  forall quad, integrate func l r tolerance num_threads schedule q <> Returns quad.
Proof.
  intros Hlen Hn Hrej Hsame quad0. unfold integrate.
  destruct (enqueue (whole func l r tolerance) (init q)) as [q'| |] eqn:Henq;
    try discriminate.
  unfold simpson.
  destruct (exec func schedule (start num_threads q' 1 0)) as [s| |] eqn:Hexec;
    try discriminate.
  destruct (forallb finished (threads s)) eqn:Hall; [|discriminate].
  assert (Hseed : seeded func l r tolerance num_threads q (start num_threads q' 1 0))
    by (exists q'; auto).
  pose proof (seeded_counted _ _ _ _ _ _ _ Hlen Hseed) as Hc0.
  assert (Hl : lingering (whole func l r tolerance) s).
  { eapply exec_lingering; [exact Hrej|exact Hsame|exact Hc0| |exact Hexec].
    left. unfold start. fields.
    rewrite (live_enqueue _ (init q) _ (Z.le_refl (-1)) Henq).
    apply elem_of_app. right. apply list_elem_of_singleton. reflexivity. }
  assert (Hd : drained s).
  { eapply exec_drained; [|exact Hexec]. apply start_drained, Hn. }
  pose proof (Hd Hall) as Hempty. apply bool_decide_eq_true in Hempty.
  destruct Hl as [Hin|[t Ht]].
  - unfold live in Hin. rewrite Hempty in Hin. cbn in Hin. inversion Hin.
  - pose proof (forallb_finished_lookup _ _ _ Hall Ht). discriminate.
Qed.

End Stuck.

(** On binary64 the refinement of [2^53, 2^53 + 2] with the function
    [x - 2^53] and tolerance 1e-06 never ends: the interval is finite and
    ordered, its width 2 is not below the floor, the two estimates differ
    by 1/3, and its right half is the interval itself. The recursive
    integrator has no value at any depth, and [simpson] of the work-queue
    program does not return under any schedule. *)
Lemma binary64_refinement_stalls :
  dlt 0%float (tol Sample.stalled) = true
  /\ ordered Sample.stalled
  /\ accepts Sample.shifted Sample.stalled = false
  /\ i2 Sample.shifted Sample.stalled = Sample.stalled
  /\ (forall fuel, simpson_rec fuel Sample.shifted Sample.stalled = None)
  /\ (forall n schedule quad,
        WorkQueue.integrate Sample.shifted Sample.two53 Sample.two53_next dmicro
          (S n) schedule Sample.fresh
        <> WorkQueue.Returns quad).
Proof.
  assert (Hrej : accepts Sample.shifted Sample.stalled = false) by (vm_compute; reflexivity).
  assert (Hsame : i2 Sample.shifted Sample.stalled = Sample.stalled)
    by (vm_compute; reflexivity).
  split; [reflexivity|]. split; [reflexivity|].
  split; [exact Hrej|]. split; [exact Hsame|]. split.
  - induction fuel as [|n IH]; [reflexivity|].
    cbn [simpson_rec]. rewrite Hrej, Hsame, IH.
    destruct (simpson_rec n Sample.shifted (i1 Sample.shifted Sample.stalled)); reflexivity.
  - intros n schedule quad.
    apply stuck_never_returns; [reflexivity|lia|exact Hrej|exact Hsame].
Qed.



(** ** One loop against the recursion *)

Section OneLoop.

Import WorkQueue.
Context {T : Type} `{Double T}.
Implicit Types (s : State T) (func : T -> T) (interval : Interval T).

Lemma exec_app func schedule1 schedule2 s :
  exec func (schedule1 ++ schedule2) s
  = match exec func schedule1 s with
    | Running s' => exec func schedule2 s'
    | o => o
    end.
Proof.
  revert s. induction schedule1 as [|t schedule1 IH]; intros s; [reflexivity|].
  cbn. destruct (step func t s); auto.
Qed.

Lemma leaves_nonempty fuel func interval ls :
  leaves fuel func interval = Some ls -> (0 < length ls)%nat.
Proof.
  revert interval ls. induction fuel as [|n IH]; intros interval ls; [discriminate|].
  cbn. destruct (accepts func interval); [intros [= <-]; cbn; lia|].
  destruct (leaves n func (i1 func interval)) as [l1|] eqn:E1; [|discriminate].
  destruct (leaves n func (i2 func interval)) as [l2|]; [|discriminate].
  intros [= <-]. rewrite length_app. apply IH in E1. lia.
Qed.

(** The split, when there is room for the two halves. *)
Lemma process_split func t interval s :
  threads s !! t = Some (Holding interval) ->
  accepts func interval = false ->
  queue_wf (queue s) -> size (queue s) + 2 <= MAXQUEUE ->
  total s + 2 <= INT_MAX ->
  exists s',
    process func t interval s = Running s'
    /\ live (queue s') = live (queue s) ++ [i1 func interval; i2 func interval]
    /\ total s' = total s + 2 /\ total_processed s' = total_processed s
    /\ quad s' = quad s /\ accepted s' = accepted s
    /\ threads s' = <[t := Polling]> (threads s).
Proof.
  intros Ht Hrej Hwf Hroom Hmax. unfold process. rewrite Hrej.
  rewrite (enqueue_ok _ _ Hwf) by lia.
  set (queue1 := {| entry := _; top := _ |}).
  assert (E1 : enqueue (i1 func interval) (queue s) = Ok queue1)
    by (apply enqueue_ok; [assumption|lia]).
  pose proof (enqueue_wf _ _ _ Hwf E1) as Hwf1.
  assert (Hsize1 : size queue1 = size (queue s) + 1) by reflexivity.
  assert (E2 : enqueue (i2 func interval) queue1
               = Ok {| entry := <[Z.to_nat (top queue1 + 1) := i2 func interval]>
                                  (entry queue1);
                       top := top queue1 + 1 |})
    by (apply enqueue_ok; [assumption|lia]).
  rewrite E2. destruct (decide _); [lia|].
  eexists. split; [reflexivity|]. fields.
  rewrite (live_enqueue _ _ _ (proj1 (proj2 Hwf1)) E2).
  rewrite (live_enqueue _ _ _ (proj1 (proj2 Hwf)) E1).
  rewrite <- app_assoc. auto 10.
Qed.

(** The dequeue of the last entry. *)
Lemma poll_pop t s l interval :
  queue_wf (queue s) -> live (queue s) = l ++ [interval] ->
  exists s',
    poll t s = Running s'
    /\ live (queue s') = l
    /\ total s' = total s /\ total_processed s' = total_processed s
    /\ quad s' = quad s /\ accepted s' = accepted s
    /\ threads s' = <[t := Holding interval]> (threads s).
Proof.
  intros Hwf Hlive. unfold poll.
  assert (Hne : isempty (queue s) = false).
  { apply bool_decide_eq_false. intros Htop.
    pose proof (size_live _ Hwf) as Hsz. rewrite Hlive, length_app in Hsz.
    unfold size in Hsz. cbn in Hsz. lia. }
  rewrite Hne.
  destruct (dequeue_ok _ Hwf Hne) as (i & Hdeq & _). rewrite Hdeq.
  pose proof (live_dequeue _ _ _ Hdeq) as Hl. rewrite Hlive in Hl.
  apply app_inj_tail in Hl as [-> ->].
  eexists. split; [reflexivity|]. fields. auto 10.
Qed.

(** One loop that holds [interval] works through the whole refinement tree
    of [interval], right half first, and comes back to the head of the loop
    with the queue as it was. *)
Lemma run_subtree func fuel : forall interval ls s,
  leaves fuel func interval = Some ls ->
  threads s = [Holding interval] ->
  counted s ->
  size (queue s) + Z.of_nat fuel <= MAXQUEUE ->
  total s + 2 * Z.of_nat (length ls) - 2 <= INT_MAX ->
  (accepts func interval = true -> 0 < total_processed s + size (queue s)) ->
  exists k s',
    exec func (replicate k 0%nat) s = Running s'
    /\ threads s' = [Polling]
    /\ live (queue s') = live (queue s)
    /\ counted s'
    /\ accepted s' = ls ++ accepted s
    /\ quad s' = accumulate func ls (quad s)
    /\ total s' = total s + 2 * Z.of_nat (length ls) - 2
    /\ total_processed s' = total_processed s + Z.of_nat (length ls).
Proof.
  induction fuel as [|n IH]; intros interval ls s Hls Hth Hc Hroom Hmax Hfirst;
    [discriminate|].
  assert (Ht : threads s !! 0%nat = Some (Holding interval)) by (rewrite Hth; reflexivity).
  assert (Hheld : held (threads s) = 1) by (rewrite Hth; reflexivity).
  pose proof Hc as (Hwf & Hpos & Hone & Hcount).
  assert (Hsz : 0 <= size (queue s)) by (destruct Hwf as [_ ?]; unfold size; lia).
  cbn [leaves] in Hls. destruct (accepts func interval) eqn:Hacc.
  - (* accepted *)
    injection Hls as <-. cbn [length] in *.
    exists 1%nat.
    assert (Hstep : step func 0 s = process func 0 interval s)
      by (unfold step; rewrite Ht; reflexivity).
    cbn [replicate exec]. rewrite Hstep. unfold process. rewrite Hacc.
    destruct (decide _) as [Heq|_]; [lia|]. cbv zeta.
    destruct (decide _) as [Heq|_]; [fields; specialize (Hfirst eq_refl); lia|].
    eexists. split; [reflexivity|]. fields. rewrite Hth.
    split; [reflexivity|]. split; [reflexivity|].
    split.
    { unfold counted. fields. rewrite Hth in Hcount. cbn in Hcount |- *.
      repeat split; try apply Hwf; lia. }
    split; [reflexivity|]. split; [reflexivity|]. split; lia.
  - (* split *)
    destruct (leaves n func (i1 func interval)) as [l1|] eqn:E1; [|discriminate].
    destruct (leaves n func (i2 func interval)) as [l2|] eqn:E2; [|discriminate].
    injection Hls as <-.
    pose proof (leaves_nonempty _ _ _ _ E1) as Hl1.
    pose proof (leaves_nonempty _ _ _ _ E2) as Hl2.
    assert (Hn : (0 < n)%nat) by (destruct n; [discriminate|lia]).
    rewrite length_app in *.
    (* the split *)
    destruct (process_split func 0 interval s Ht Hacc Hwf) as
      (s1 & Hs1 & Hlive1 & Htot1 & Hproc1 & Hquad1 & Hacc1 & Hth1); [lia|lia|].
    assert (Hstep1 : step func 0 s = Running s1)
      by (unfold step; rewrite Ht; exact Hs1).
    pose proof (step_counted _ _ _ _ Hc Hstep1) as Hc1.
    rewrite Hth in Hth1. cbn in Hth1.
    (* the right half is dequeued *)
    destruct (poll_pop 0 s1 (live (queue s) ++ [i1 func interval]) (i2 func interval))
      as (s2 & Hs2 & Hlive2 & Htot2 & Hproc2 & Hquad2 & Hacc2 & Hth2).
    { apply Hc1. }
    { rewrite Hlive1, <- app_assoc. reflexivity. }
    assert (Hstep2 : step func 0 s1 = Running s2)
      by (unfold step; rewrite Hth1; exact Hs2).
    pose proof (step_counted _ _ _ _ Hc1 Hstep2) as Hc2.
    rewrite Hth1 in Hth2. cbn in Hth2.
    assert (Hsize2 : size (queue s2) = size (queue s) + 1).
    { rewrite <- (size_live (queue s2)), <- (size_live (queue s)) by (apply Hc2 || apply Hwf).
      rewrite Hlive2, length_app. cbn. lia. }
    (* its subtree *)
    destruct (IH (i2 func interval) l2 s2 E2 Hth2 Hc2) as
      (k2 & s3 & Hrun3 & Hth3 & Hlive3 & Hc3 & Hacc3 & Hquad3 & Htot3 & Hproc3);
      [lia|lia|lia|].
    (* the left half is dequeued *)
    destruct (poll_pop 0 s3 (live (queue s)) (i1 func interval))
      as (s4 & Hs4 & Hlive4 & Htot4 & Hproc4 & Hquad4 & Hacc4 & Hth4).
    { apply Hc3. }
    { rewrite Hlive3, Hlive2. reflexivity. }
    assert (Hstep4 : step func 0 s3 = Running s4)
      by (unfold step; rewrite Hth3; exact Hs4).
    pose proof (step_counted _ _ _ _ Hc3 Hstep4) as Hc4.
    rewrite Hth3 in Hth4. cbn in Hth4.
    assert (Hsize4 : size (queue s4) = size (queue s)).
    { rewrite <- (size_live (queue s4)), <- (size_live (queue s)) by (apply Hc4 || apply Hwf).
      rewrite Hlive4. reflexivity. }
    (* its subtree *)
    destruct (IH (i1 func interval) l1 s4 E1 Hth4 Hc4) as
      (k1 & s5 & Hrun5 & Hth5 & Hlive5 & Hc5 & Hacc5 & Hquad5 & Htot5 & Hproc5);
      [lia|lia|lia|].
    exists (1 + (1 + (k2 + (1 + k1))))%nat, s5.
    split.
    { rewrite !replicate_add. cbn [replicate].
      change [0%nat] with ([] ++ [0%nat]).
      cbn [app exec]. rewrite Hstep1. cbn [exec]. rewrite Hstep2.
      rewrite exec_app, Hrun3. cbn [app exec]. rewrite Hstep4. exact Hrun5. }
    split; [exact Hth5|].
    split; [rewrite Hlive5; exact Hlive4|].
    split; [exact Hc5|].
    split; [rewrite Hacc5, Hacc4, Hacc3, Hacc2, Hacc1, app_assoc; reflexivity|].
    split.
    { rewrite Hquad5, Hquad4, Hquad3, Hquad2, Hquad1. unfold accumulate.
      rewrite foldr_app. reflexivity. }
    split; lia.
Qed.

End OneLoop.

(** ** The flagged program: the lock and the dequeue *)

Ltac flagged_fields :=
  cbn [Flagged.queue Flagged.total Flagged.total_processed Flagged.quad
       Flagged.done Flagged.queue_access Flagged.queue_update Flagged.threads
       top entry] in *.

Section FlaggedFacts.

Import Flagged.
Context {T : Type} `{Double T}.
Implicit Types (s : State T) (ths : list (Thread T)) (func : T -> T).

Lemma in_access_nonneg (th : Thread T) : 0 <= in_access th.
Proof. destruct th; cbn; lia. Qed.

(** A loop inside the critical section holds its lock, alone. *)
Lemma inside_alone s t th :
  guarded s -> threads s !! t = Some th -> in_access th = 1 ->
  queue_access s = true /\ weigh in_access (threads s) = 1.
Proof.
  intros (_ & Hlock & _) Ht Hth.
  destruct (queue_access s); [auto|].
  pose proof (weigh_zero in_access _ _ _ in_access_nonneg Hlock Ht). lia.
Qed.

Lemma isempty_enqueue interval (q q' : Queue T) :
  -1 <= top q -> enqueue interval q = Ok q' -> isempty q' = false.
Proof.
  intros Htop (-> & _)%enqueue_inv. apply bool_decide_eq_false. cbn. lia.
Qed.

(** Leaving the critical section: nobody is inside afterwards. *)
Lemma guarded_leave s t th th' (q' : Queue T) tot proc qd dn upd :
  guarded s -> threads s !! t = Some th -> in_access th = 1 -> in_access th' = 0 ->
  queue_wf q' ->
  guarded {| queue := q'; total := tot; total_processed := proc; quad := qd;
             done := dn; queue_access := false; queue_update := upd;
             threads := <[t := th']> (threads s) |}.
Proof.
  intros Hg Ht Hth Hth' Hwf'.
  destruct (inside_alone _ _ _ Hg Ht Hth) as [_ Hone].
  assert (Hzero : weigh in_access (<[t := th']> (threads s)) = 0).
  { rewrite (weigh_insert _ _ _ _ _ Ht). lia. }
  unfold guarded. flagged_fields.
  split; [exact Hwf'|]. split; [exact Hzero|].
  intros t' Ht'.
  pose proof (weigh_zero in_access _ _ _ in_access_nonneg Hzero Ht'). discriminate.
Qed.

(** A step outside the critical section that leaves the queue non-empty
    where it was. *)
Lemma guarded_outside s t th th' (q' : Queue T) tot proc qd dn upd :
  guarded s -> threads s !! t = Some th -> in_access th = 0 -> in_access th' = 0 ->
  queue_wf q' -> (isempty (queue s) = false -> isempty q' = false) ->
  guarded {| queue := q'; total := tot; total_processed := proc; quad := qd;
             done := dn; queue_access := queue_access s; queue_update := upd;
             threads := <[t := th']> (threads s) |}.
Proof.
  intros (Hwf & Hlock & Hext) Ht Hth Hth' Hwf' Hkeep.
  unfold guarded. flagged_fields.
  split; [exact Hwf'|]. split.
  - rewrite (weigh_insert _ _ _ _ _ Ht). lia.
  - intros t' Ht'. apply list_lookup_insert_Some in Ht'.
    destruct Ht' as [(_ & -> & _)|(_ & Ht')]; [discriminate|]. eauto.
Qed.

Lemma step_guarded func t s s' :
  guarded s -> step func t s = Running s' -> guarded s'.
Proof.
  intros Hg Hstep. pose proof Hg as (Hwf & Hlock & Hext).
  unfold step in Hstep.
  destruct (threads s !! t) as [th|] eqn:Ht; [|injection Hstep as <-; exact Hg].
  destruct th as [| | | | |work|interval| |interval|interval| |].
  - (* AtWhile *)
    injection Hstep as <-. unfold move.
    apply (guarded_outside s t AtWhile); auto. destruct (done s); reflexivity.
  - (* Entering *)
    destruct (queue_access s) eqn:Hacc; injection Hstep as <-; [exact Hg|].
    unfold guarded. flagged_fields. split; [exact Hwf|]. split.
    + rewrite (weigh_insert _ _ _ _ _ Ht), Hlock.
      destruct (isempty (queue s)); reflexivity.
    + intros t' Ht'. apply list_lookup_insert_Some in Ht'.
      destruct Ht' as [(_ & Heq & _)|(_ & Ht')]; [|eauto].
      destruct (isempty (queue s)); [discriminate|reflexivity].
  - (* Extract *)
    destruct (dequeue (queue s)) as [[interval q']| |] eqn:Hdeq; try discriminate.
    injection Hstep as <-.
    apply (guarded_leave s t Extract); eauto using dequeue_wf.
  - (* Compare *)
    destruct (decide _); injection Hstep as <-.
    + unfold move, guarded. flagged_fields. split; [exact Hwf|]. split.
      * rewrite (weigh_insert _ _ _ _ _ Ht). cbn [in_access]. lia.
      * intros t' Ht'. apply list_lookup_insert_Some in Ht'.
        destruct Ht' as [(_ & [=] & _)|(_ & Ht')]. eauto.
    + apply (guarded_leave s t Compare); auto.
  - (* SetDone *)
    injection Hstep as <-. apply (guarded_leave s t SetDone); auto.
  - (* TestDone *)
    destruct (done s).
    + injection Hstep as <-. apply (guarded_outside s t (TestDone work)); auto.
    + destruct work as [interval|]; injection Hstep as <-; unfold move.
      * apply (guarded_outside s t (TestDone (Some interval))); auto.
        destruct (accepts func interval); reflexivity.
      * apply (guarded_outside s t (TestDone None)); auto.
  - (* AddQuad *)
    injection Hstep as <-. apply (guarded_outside s t (AddQuad interval)); auto.
  - (* CountProcessed *)
    destruct (decide _); [discriminate|]. injection Hstep as <-.
    apply (guarded_outside s t CountProcessed); auto.
  - (* EnterUpdate *)
    destruct (queue_update s); [injection Hstep as <-; exact Hg|].
    destruct (enqueue _ (queue s)) as [q'| |] eqn:Henq; try discriminate.
    injection Hstep as <-.
    apply (guarded_outside s t (EnterUpdate interval)); eauto using enqueue_wf.
    intros _. eapply isempty_enqueue; [apply Hwf|exact Henq].
  - (* PushSecond *)
    destruct (enqueue _ (queue s)) as [q'| |] eqn:Henq; try discriminate.
    injection Hstep as <-.
    apply (guarded_outside s t (PushSecond interval)); eauto using enqueue_wf.
    intros _. eapply isempty_enqueue; [apply Hwf|exact Henq].
  - (* AddTotal *)
    destruct (decide _); [discriminate|]. injection Hstep as <-.
    apply (guarded_outside s t AddTotal); auto.
  - (* Gone *)
    injection Hstep as <-. exact Hg.
Qed.

Lemma exec_guarded func schedule s s' :
  guarded s -> exec func schedule s = Running s' -> guarded s'.
Proof.
  revert s. induction schedule as [|t schedule IH]; intros s Hg; cbn.
  - intros [= <-]. assumption.
  - destruct (step func t s) as [s1| |] eqn:Hstep; try discriminate.
    eauto using step_guarded.
Qed.

Lemma start_guarded num_threads (q : Queue T) total0 processed0 :
  queue_wf q -> guarded (start num_threads q total0 processed0).
Proof.
  intros Hwf. unfold guarded, start. flagged_fields.
  split; [exact Hwf|]. split; [apply weigh_replicate; reflexivity|].
  intros t Ht. apply lookup_replicate in Ht as [[=] _].
Qed.

(** In a guarded state the [dequeue] of a loop finds an entry. *)
Lemma guarded_dequeues func t s :
  guarded s -> threads s !! t = Some Extract ->
  exists interval q', dequeue (queue s) = Ok (interval, q')
    /\ exists s', step func t s = Running s'
         /\ threads s' !! t = Some (TestDone (Some interval)).
Proof.
  intros (Hwf & _ & Hext) Ht.
  destruct (dequeue_ok _ Hwf (Hext t Ht)) as (interval & Hdeq & _).
  eexists _, _. split; [exact Hdeq|].
  unfold step. rewrite Ht, Hdeq. eexists. split; [reflexivity|].
  flagged_fields. apply list_lookup_insert_eq. eapply lookup_lt_Some, Ht.
Qed.

Lemma guarded_no_empty_extract func t s s' :
  guarded s -> step func t s <> Exited EmptyExtract s'.
Proof.
  intros Hg Hstep. unfold step in Hstep.
  destruct (threads s !! t) as [th|] eqn:Ht; [|discriminate].
  destruct th; try discriminate;
    repeat match type of Hstep with
           | context [if ?b then _ else _] => destruct b; try discriminate
           | context [match ?w with Some _ => _ | None => _ end] =>
               destruct w; try discriminate
           end.
  - destruct (guarded_dequeues func t s Hg Ht) as (i & q' & Hdeq & _).
    rewrite Hdeq in Hstep. discriminate.
  - destruct (enqueue _ (queue s)) as [q'| |] eqn:Henq; try discriminate.
    injection Hstep as -> _. apply enqueue_exit in Henq. discriminate.
  - destruct (enqueue _ (queue s)) as [q'| |] eqn:Henq; try discriminate.
    injection Hstep as -> _. apply enqueue_exit in Henq. discriminate.
Qed.

End FlaggedFacts.

(** ** The dequeue behind the emptiness check *)

Section GuardedDequeue.

Context {T : Type} `{Double T}.

Lemma poll_runs t (s : WorkQueue.State T) :
  queue_wf (WorkQueue.queue s) -> exists s', WorkQueue.poll t s = WorkQueue.Running s'.
Proof.
  intros Hwf. unfold WorkQueue.poll.
  destruct (isempty (WorkQueue.queue s)) eqn:Hempty; [eauto|].
  destruct (dequeue_ok _ Hwf Hempty) as (interval & -> & _). eauto.
Qed.

(** C10. [dequeue] is called only behind an emptiness check that returned
    false, and then returns an interval. On a queue as the program keeps it,
    [dequeue] after [isempty] returned 0 returns the last entry. In the
    work-queue program, in every state that a schedule reaches, the critical
    section of a loop at the head of its loop runs to its end: the process
    never exits with "Attempt to extract from empty queue". The same holds
    in the flagged program, where other loops may enqueue between the check
    and the [dequeue]: a loop that saw the queue non-empty dequeues an
    interval. *)
Theorem dequeue_behind_check (func : T -> T) l r tolerance num_threads (q q' : Queue T) :
  Z.of_nat (length (entry q)) = MAXQUEUE ->
  enqueue (WorkQueue.whole func l r tolerance) (init q) = Ok q' ->
  (forall queue_p : Queue T,
     queue_wf queue_p -> isempty queue_p = false ->
     exists interval queue',
       dequeue queue_p = Ok (interval, queue')
       /\ live queue_p = live queue' ++ [interval])
  /\ (forall schedule s t,
        WorkQueue.exec func schedule (WorkQueue.start num_threads q' 1 0)
        = WorkQueue.Running s ->
        (WorkQueue.threads s !! t = Some WorkQueue.Polling ->
         exists s', WorkQueue.step func t s = WorkQueue.Running s')
        /\ forall s', WorkQueue.step func t s <> WorkQueue.Exited EmptyExtract s')
  /\ (forall schedule s t,
        Flagged.exec func schedule (Flagged.start num_threads q' 1 0)
        = Flagged.Running s ->
        (Flagged.threads s !! t = Some Flagged.Extract ->
         exists interval s',
           Flagged.step func t s = Flagged.Running s'
           /\ Flagged.threads s' !! t = Some (Flagged.TestDone (Some interval)))
        /\ forall s', Flagged.step func t s <> Flagged.Exited EmptyExtract s').
Proof.
  intros Hlen Henq. split; [|split].
  - intros queue_p Hwf Hne.
    destruct (dequeue_ok _ Hwf Hne) as (interval & Hdeq & _).
    eexists _, _. split; [exact Hdeq|]. eauto using live_dequeue.
  - intros schedule s t Hexec.
    assert (Hc : counted s).
    { eapply exec_counted; [|exact Hexec].
      eapply seeded_counted; [exact Hlen|]. exists q'. eauto. }
    split.
    + intros Ht. unfold WorkQueue.step. rewrite Ht. apply poll_runs, Hc.
    + intros s' Hstep. unfold WorkQueue.step in Hstep.
      destruct (WorkQueue.threads s !! t) as [[|interval|]|] eqn:Ht; try discriminate.
      * destruct (poll_runs t s (proj1 Hc)) as [s1 Hs1]. congruence.
      * unfold WorkQueue.process in Hstep.
        destruct (accepts func interval).
        -- destruct (decide _); [discriminate|]. cbv zeta in Hstep.
           destruct (decide _); discriminate.
        -- destruct (enqueue _ (WorkQueue.queue s)) as [queue1| |] eqn:E1;
             try discriminate.
           ++ destruct (enqueue _ queue1) as [queue2| |] eqn:E2; try discriminate.
              ** destruct (decide _); discriminate.
              ** injection Hstep as -> _. apply enqueue_exit in E2. discriminate.
           ++ injection Hstep as -> _. apply enqueue_exit in E1. discriminate.
  - intros schedule s t Hexec.
    assert (Hg : guarded s).
    { eapply exec_guarded; [|exact Hexec].
      apply start_guarded. eapply enqueue_wf; [|exact Henq]. apply init_wf, Hlen. }
    split.
    + intros Ht.
      destruct (guarded_dequeues func t s Hg Ht) as (i & _ & _ & s' & Hs' & Hth).
      eauto.
    + intros s'. apply guarded_no_empty_extract, Hg.
Qed.

End GuardedDequeue.

Lemma dequeue_behind_check_witness :
  Z.of_nat (length (entry Sample.fresh)) = MAXQUEUE
  /\ enqueue (Sample.domain Sample.quartic) (init Sample.fresh)
     = Ok (Sample.seeded_queue (Sample.domain Sample.quartic))
  /\ exists interval queue',
       dequeue (Sample.seeded_queue (Sample.domain Sample.quartic))
       = Ok (interval, queue').
Proof.
  assert (Hlen : Z.of_nat (length (entry Sample.fresh)) = MAXQUEUE) by reflexivity.
  assert (Henq : enqueue (WorkQueue.whole Sample.quartic 0%float 10%float dmicro)
                   (init Sample.fresh)
                 = Ok (Sample.seeded_queue (Sample.domain Sample.quartic)))
    by reflexivity.
  split; [exact Hlen|]. split; [exact Henq|].
  destruct (dequeue_behind_check Sample.quartic _ _ _ 2 _ _ Hlen Henq) as (Hpop & _ & _).
  destruct (Hpop (Sample.seeded_queue (Sample.domain Sample.quartic)))
    as (interval & queue' & Hdeq & _).
  - eapply enqueue_wf; [|exact Henq]. apply init_wf, Hlen.
  - reflexivity.
  - eauto.
Defined.

(** ** What one loop computes *)

Section OneLoopResult.

Import WorkQueue.
Context {T : Type} `{Double T}.
Implicit Types (s : State T) (func : T -> T) (interval : Interval T).

Lemma tiles_app l m r (ls1 ls2 : list (Interval T)) :
  tiles l m ls1 -> tiles m r ls2 -> tiles l r (ls1 ++ ls2).
Proof.
  revert l. induction ls1 as [|interval ls1 IH]; intros l H1 H2; [contradiction|].
  destruct ls1 as [|interval' ls1].
  - destruct H1 as [<- <-]. destruct ls2 as [|i2' ls2]; [contradiction|].
    cbn [app tiles]. auto.
  - destruct H1 as [<- H1]. change (tiles (left interval)
      r (interval :: (interval' :: ls1) ++ ls2)).
    cbn [app tiles]. split; [reflexivity|]. apply (IH _ H1 H2).
Qed.

(** The accepted intervals of the recursion tile the interval it starts
    from, whatever the arithmetic. *)
Lemma leaves_tile fuel func interval ls :
  leaves fuel func interval = Some ls -> tiles (left interval) (right interval) ls.
Proof.
  revert interval ls. induction fuel as [|n IH]; intros interval ls; [discriminate|].
  cbn [leaves]. destruct (accepts func interval); [intros [= <-]; cbn; auto|].
  destruct (leaves n func (i1 func interval)) as [l1|] eqn:E1; [|discriminate].
  destruct (leaves n func (i2 func interval)) as [l2|] eqn:E2; [|discriminate].
  intros [= <-]. apply IH in E1, E2. cbn [i1 i2 left right] in E1, E2.
  eapply tiles_app; eauto.
Qed.

(** X1. When the initial interval is rejected and the recursion on it ends,
    with accepted intervals [ls], the work-queue program with one loop
    accepts the same intervals, from right to left, adds their
    contributions to [quad] in that order, and [simpson] returns that
    sum, provided the depth of the recursion fits the queue and the number
    of intervals fits an [int]. *)
Theorem one_loop_resolves_the_same_leaves fuel func l r tolerance (q : Queue T) ls :
  Z.of_nat (length (entry q)) = MAXQUEUE ->
  leaves fuel func (whole func l r tolerance) = Some ls ->
  accepts func (whole func l r tolerance) = false ->
  Z.of_nat fuel <= MAXQUEUE ->
  2 * Z.of_nat (length ls) - 1 <= INT_MAX ->
  exists k s0 s,
    seeded func l r tolerance 1 q s0
    /\ exec func (replicate k 0%nat) s0 = Running s
    /\ threads s = [Finished]
    /\ accepted s = ls
    /\ quad s = accumulate func ls (dlit 0)
    /\ integrate func l r tolerance 1 (replicate k 0%nat) q
       = Returns (accumulate func ls (dlit 0)).
Proof.
  intros Hlen Hls Hrej Hfuel Hmax.
  assert (Hwf0 : queue_wf (init q)) by (apply init_wf, Hlen).
  assert (Henq : exists q', enqueue (whole func l r tolerance) (init q) = Ok q').
  { eexists. apply enqueue_ok; [exact Hwf0|]. unfold size, init, MAXQUEUE. cbn. lia. }
  destruct Henq as [q' Henq].
  set (s0 := start 1 q' 1 0).
  assert (Hseed : seeded func l r tolerance 1 q s0) by (exists q'; auto).
  pose proof (seeded_counted _ _ _ _ _ _ _ Hlen Hseed) as Hc0.
  assert (Hlive0 : live (queue s0) = [] ++ [whole func l r tolerance]).
  { unfold s0, start. fields.
    rewrite (live_enqueue _ (init q) _ (Z.le_refl (-1)) Henq). reflexivity. }
  (* the initial interval is dequeued *)
  destruct (poll_pop 0 s0 [] _ (proj1 Hc0) Hlive0)
    as (s1 & Hs1 & Hlive1 & Htot1 & Hproc1 & Hquad1 & Hacc1 & Hth1).
  assert (Hstep1 : step func 0 s0 = Running s1) by exact Hs1.
  pose proof (step_counted _ _ _ _ Hc0 Hstep1) as Hc1.
  change (threads s1 = [Holding (whole func l r tolerance)]) in Hth1.
  assert (Hsize1 : size (queue s1) = 0).
  { rewrite <- (size_live (queue s1)) by apply Hc1. rewrite Hlive1. reflexivity. }
  (* its tree *)
  destruct (run_subtree func fuel _ ls s1 Hls Hth1 Hc1)
    as (k & s2 & Hrun2 & Hth2 & Hlive2 & Hc2 & Hacc2 & Hquad2 & Htot2 & Hproc2).
  { lia. }
  { rewrite Htot1. unfold s0, start. fields. lia. }
  { rewrite Hrej. discriminate. }
  (* the queue is empty: the loop leaves *)
  assert (Hempty : isempty (queue s2) = true).
  { apply bool_decide_eq_true.
    pose proof (size_live (queue s2) (proj1 Hc2)) as Hsz.
    rewrite Hlive2, Hlive1 in Hsz. unfold size in Hsz. cbn in Hsz. lia. }
  pose proof (poll_empty_leaves 0 s2 Hempty) as Hs3.
  set (s3 := {| queue := queue s2; total := _ |}) in Hs3.
  assert (Hstep3 : step func 0 s2 = Running s3)
    by (unfold step; rewrite Hth2; exact Hs3).
  assert (Hexec : exec func (replicate (1 + (k + 1)) 0%nat) s0 = Running s3).
  { rewrite !replicate_add. cbn [replicate app exec]. rewrite Hstep1.
    rewrite exec_app, Hrun2. cbn [exec]. rewrite Hstep3. reflexivity. }
  exists (1 + (k + 1))%nat, s0, s3.
  split; [exact Hseed|]. split; [exact Hexec|].
  assert (Hth3 : threads s3 = [Finished]) by (unfold s3; fields; rewrite Hth2; reflexivity).
  assert (Hquad3 : quad s3 = accumulate func ls (dlit 0)).
  { unfold s3. fields. rewrite Hquad2, Hquad1. reflexivity. }
  split; [exact Hth3|].
  split; [unfold s3; fields; rewrite Hacc2, Hacc1; apply app_nil_r|].
  split; [exact Hquad3|].
  unfold integrate. rewrite Henq. unfold simpson. fold s0. rewrite Hexec.
  rewrite Hth3. cbn [forallb finished andb]. rewrite Hquad3. reflexivity.
Qed.

End OneLoopResult.

(** ** A bound on the steps of the work-queue program *)

Section Potential.

Import WorkQueue.
Implicit Types (s : State Q) (func : Q -> Q) (interval : Interval Q).

Lemma levels_le n interval :
  (width interval * (1000000000000 # 1) < pow2 n)%Q -> (levels interval <= n)%nat.
Proof.
  unfold levels, pow2. set (x := (width interval * (1000000000000 # 1))%Q).
  intros Hx.
  assert (Hfloor : Qfloor x < 2 ^ Z.of_nat n).
  { rewrite Zlt_Qlt. eapply Qle_lt_trans; [apply Qfloor_le|exact Hx]. }
  destruct (Z_lt_le_dec 0 (Qfloor x + 1)) as [Hpos|Hneg].
  - assert (Hlog : Z.log2_up (Qfloor x + 1) <= Z.of_nat n)
      by (apply Z.log2_up_le_pow2; lia).
    lia.
  - rewrite Z.log2_up_nonpos by lia. lia.
Qed.

Lemma rejected_wide func interval :
  accepts func interval = false -> (1 <= width interval * (1000000000000 # 1))%Q.
Proof.
  unfold accepts. intros [_ Hfloor]%orb_false_iff.
  cbn in Hfloor. apply Qltb_ge in Hfloor. fold (width interval) in Hfloor. lra.
Qed.

Lemma levels_pos interval :
  (1 <= width interval * (1000000000000 # 1))%Q -> (1 <= levels interval)%nat.
Proof.
  unfold levels. set (x := (width interval * (1000000000000 # 1))%Q). intros Hx.
  assert (Hfloor : 1 <= Qfloor x).
  { change 1 with (Qfloor 1). apply Qfloor_resp_le, Hx. }
  pose proof (Z.log2_up_pos (Qfloor x + 1) ltac:(lia)). lia.
Qed.

Lemma levels_half func interval :
  accepts func interval = false ->
  (levels (i1 func interval) + 1 <= levels interval)%nat
  /\ (levels (i2 func interval) + 1 <= levels interval)%nat.
Proof.
  intros Hrej.
  pose proof (levels_pos _ (rejected_wide _ _ Hrej)) as Hpos.
  pose proof (levels_spec interval) as Hspec.
  destruct (levels interval) as [|n]; [lia|].
  rewrite pow2_succ in Hspec.
  split.
  - enough (levels (i1 func interval) <= n)%nat by lia.
    apply levels_le. rewrite half_width_left. lra.
  - enough (levels (i2 func interval) <= n)%nat by lia.
    apply levels_le. rewrite half_width_right. lra.
Qed.

Lemma rank_pos interval : 1 <= rank interval.
Proof.
  unfold rank.
  pose proof (Z.pow_le_mono_r 2 1 (Z.of_nat (levels interval) + 1)). lia.
Qed.

Lemma rank_split func interval :
  accepts func interval = false ->
  1 + rank (i1 func interval) + rank (i2 func interval) <= rank interval.
Proof.
  intros Hrej. destruct (levels_half func interval Hrej) as [H1 H2].
  unfold rank.
  pose proof (Z.pow_le_mono_r 2 (Z.of_nat (levels (i1 func interval)) + 1)
                (Z.of_nat (levels interval))).
  pose proof (Z.pow_le_mono_r 2 (Z.of_nat (levels (i2 func interval)) + 1)
                (Z.of_nat (levels interval))).
  rewrite (Z.pow_add_r 2 (Z.of_nat (levels interval)) 1) by lia.
  change (2 ^ 1) with 2. lia.
Qed.

Lemma weigh_app {A : Type} (w : A -> Z) l1 l2 :
  weigh w (l1 ++ l2) = weigh w l1 + weigh w l2.
Proof.
  induction l1 as [|a l1 IH]; [reflexivity|].
  change ((a :: l1) ++ l2) with (a :: (l1 ++ l2)). rewrite !weigh_cons, IH. lia.
Qed.

Lemma effort_nonneg (th : Thread Q) : 0 <= effort th.
Proof. destruct th as [|interval|]; cbn; [lia| |lia]. pose proof (rank_pos interval). lia. Qed.

Lemma potential_nonneg s : 0 <= potential s.
Proof.
  unfold potential.
  pose proof (weigh_nonneg effort (threads s) effort_nonneg).
  pose proof (weigh_nonneg (fun interval => 2 * rank interval) (live (queue s))) as Hq.
  assert (0 <= weigh (fun interval => 2 * rank interval) (live (queue s))).
  { apply Hq. intros interval. pose proof (rank_pos interval). lia. }
  lia.
Qed.

Lemma step_idle func t s : productive t s = false -> step func t s = Running s.
Proof.
  unfold productive, step.
  destruct (threads s !! t) as [[|interval|]|]; try discriminate; reflexivity.
Qed.

(** Every step of a loop that has not left takes one off the potential, at
    least. *)
Lemma step_potential func t s s' :
  counted s -> productive t s = true -> step func t s = Running s' ->
  potential s' + 1 <= potential s.
Proof.
  intros (Hwf & _) Hprod Hstep. unfold potential. unfold productive in Hprod.
  unfold step in Hstep.
  destruct (threads s !! t) as [[|interval|]|] eqn:Ht; try discriminate.
  - unfold poll in Hstep. destruct (isempty (queue s)).
    + injection Hstep as <-. fields.
      rewrite (weigh_insert _ _ _ _ _ Ht). cbn [effort]. lia.
    + destruct (dequeue (queue s)) as [[i q']| |] eqn:Hdeq; try discriminate.
      injection Hstep as <-. fields.
      rewrite (weigh_insert _ _ _ _ _ Ht), (live_dequeue _ _ _ Hdeq), weigh_app.
      cbn [effort]. rewrite weigh_cons. cbn [weigh foldr]. lia.
  - pose proof (rank_pos interval) as Hr.
    unfold process in Hstep. destruct (accepts func interval) eqn:Hacc.
    + destruct (decide _); [discriminate|]. cbv zeta in Hstep.
      destruct (decide _); [discriminate|].
      injection Hstep as <-. fields.
      rewrite (weigh_insert _ _ _ _ _ Ht). cbn [effort]. lia.
    + destruct (enqueue _ (queue s)) as [queue1| |] eqn:E1; try discriminate.
      destruct (enqueue _ queue1) as [queue2| |] eqn:E2; try discriminate.
      destruct (decide _); [discriminate|].
      injection Hstep as <-. fields.
      pose proof (enqueue_wf _ _ _ Hwf E1) as Hwf1.
      rewrite (live_enqueue _ _ _ (proj1 (proj2 Hwf1)) E2).
      rewrite (live_enqueue _ _ _ (proj1 (proj2 Hwf)) E1).
      rewrite (weigh_insert _ _ _ _ _ Ht), !weigh_app, !weigh_cons.
      cbn [effort weigh foldr].
      pose proof (rank_split func interval Hacc). lia.
Qed.

Lemma productive_potential t s : productive t s = true -> 1 <= potential s.
Proof.
  unfold productive, potential. intros Hprod.
  assert (0 <= weigh (fun interval => 2 * rank interval) (live (queue s))).
  { apply weigh_nonneg. intros i. pose proof (rank_pos i). lia. }
  destruct (threads s !! t) as [th|] eqn:Ht; [|discriminate].
  pose proof (weigh_insert effort _ _ _ Finished Ht) as Hi.
  pose proof (weigh_nonneg effort (<[t := Finished]> (threads s)) effort_nonneg).
  destruct th as [|interval|]; try discriminate; cbn [effort] in Hi; [lia|].
  pose proof (rank_pos interval). lia.
Qed.

Lemma work_bounded func schedule s :
  counted s -> Z.of_nat (work func schedule s) <= potential s.
Proof.
  revert s. induction schedule as [|t schedule IH]; intros s Hc.
  - cbn. apply potential_nonneg.
  - cbn [work]. destruct (productive t s) eqn:Hprod.
    + pose proof (productive_potential _ _ Hprod).
      destruct (step func t s) as [s'| |] eqn:Hstep; [|lia|lia].
      pose proof (step_potential _ _ _ _ Hc Hprod Hstep).
      pose proof (IH s' (step_counted _ _ _ _ Hc Hstep)). lia.
    + rewrite (step_idle _ _ _ Hprod). cbn. apply IH, Hc.
Qed.

Lemma seeded_potential func l r tolerance num_threads (q : Queue Q) s :
  seeded func l r tolerance num_threads q s ->
  potential s = 2 * rank (whole func l r tolerance) + Z.of_nat num_threads.
Proof.
  intros (q' & Henq & ->). unfold potential, start. fields.
  rewrite (live_enqueue _ (init q) _ (Z.le_refl (-1)) Henq), live_init.
  cbn [app]. rewrite weigh_cons. cbn [weigh foldr].
  assert (Hth : weigh effort (replicate num_threads (@Polling Q)) = Z.of_nat num_threads).
  { induction num_threads as [|n IH]; [reflexivity|].
    cbn [replicate]. rewrite weigh_cons, IH. cbn [effort]. lia. }
  rewrite Hth. lia.
Qed.

End Potential.

(** ** The claim on widths *)

Section WidthClaims.

Import WorkQueue.
Local Open Scope Q_scope.
Context {T : Type} `{Double T} (real : T -> Q).
Implicit Types (s : State T) (func : T -> T) (interval : Interval T).

Lemma leaves_widths fuel func interval ls :
  leaves fuel func interval = Some ls -> widths real ls == exact_width real interval.
Proof.
  revert interval ls. induction fuel as [|n IH]; intros interval ls; [discriminate|].
  cbn [leaves]. destruct (accepts func interval).
  - intros [= <-]. rewrite widths_cons. change (widths real []) with 0. lra.
  - destruct (leaves n func (i1 func interval)) as [l1|] eqn:E1; [|discriminate].
    destruct (leaves n func (i2 func interval)) as [l2|] eqn:E2; [|discriminate].
    intros [= <-]. rewrite widths_app, (IH _ _ E1), (IH _ _ E2).
    apply halves_width.
Qed.

(** C6. Splitting preserves the total width, in any arithmetic of [double]
    and so in binary64, the widths being the exact differences of the
    numbers that the boundaries stand for ([real] gives the number of a
    [double]). The two halves of a split share the computed midpoint [c] and
    keep the outer boundaries of the parent, so
    [(c - left) + (right - c) = right - left] whatever [c] was rounded to.
    So in every state of a run of the work-queue program, for any number of
    loops and under any schedule, the widths of the accepted, queued and
    held intervals add up to the width of the domain; when the run is
    complete (every loop has left, or the process exits on convergence) the
    widths of the accepted intervals add up to it; and so do the widths of
    the accepted intervals of the recursion, which abut and span the
    interval they come from. *)
Theorem width_conserved func l r tolerance num_threads (q : Queue T) schedule s0 s :
  Z.of_nat (length (entry q)) = MAXQUEUE ->
  seeded func l r tolerance num_threads q s0 ->
  exec func schedule s0 = Running s ->
  (forall interval,
     (left (i1 func interval) = left interval
      /\ right (i1 func interval) = c interval
      /\ left (i2 func interval) = c interval
      /\ right (i2 func interval) = right interval)
     /\ (real (c interval) - real (left interval))
        + (real (right interval) - real (c interval))
        == real (right interval) - real (left interval)
     /\ exact_width real (i1 func interval) + exact_width real (i2 func interval)
        == exact_width real interval)
  /\ conserved real (real r - real l) s
  /\ ((0 < num_threads)%nat -> forallb finished (threads s) = true ->
      widths real (accepted s) == real r - real l)
  /\ (forall t s', step func t s = Exited Converged s' ->
      widths real (accepted s') == real r - real l)
  /\ (forall fuel ls,
        leaves fuel func (whole func l r tolerance) = Some ls ->
        widths real ls == real r - real l
        /\ tiles l r ls).
Proof.
  intros Hlen Hseed Hexec.
  destruct (run_conserves_width real _ _ _ _ _ _ _ _ _ Hlen Hseed Hexec)
    as (Hcons & Hdone & Hexit).
  split; [|split; [exact Hcons|split; [exact Hdone|split; [exact Hexit|]]]].
  - intros interval. split; [apply halves_abut|]. split; [ring|apply halves_width].
  - intros fuel ls Hls. split.
    + rewrite (leaves_widths _ _ _ _ Hls). reflexivity.
    + exact (leaves_tile _ _ _ _ Hls).
Qed.

End WidthClaims.

(** ** The claims on widths and on termination *)

Section ExactClaims.

Import WorkQueue.
Implicit Types (s : State Q) (func : Q -> Q) (interval : Interval Q).

Lemma accumulate_from func ls (quad0 : Q) :
  (accumulate func ls quad0 == quad0 + accumulate func ls 0)%Q.
Proof.
  induction ls as [|interval ls IH].
  - unfold accumulate. cbn [foldr]. lra.
  - change (accumulate func (interval :: ls) quad0)
      with (accumulate func ls quad0 + contribution func interval)%Q.
    change (accumulate func (interval :: ls) 0%Q)
      with (accumulate func ls 0%Q + contribution func interval)%Q.
    rewrite IH. lra.
Qed.

(** X2. Without rounding the order of the additions does not matter: the value
    of the recursion is the sum that one loop accumulates. *)
Lemma simpson_rec_accumulate fuel func interval quad ls :
  simpson_rec fuel func interval = Some quad ->
  leaves fuel func interval = Some ls ->
  (quad == accumulate func ls (dlit 0))%Q.
Proof.
  revert interval quad ls. induction fuel as [|n IH]; intros interval quad ls;
    [discriminate|].
  cbn [simpson_rec leaves]. destruct (accepts func interval).
  - intros [= <-] [= <-].
    change (contribution func interval == 0 + contribution func interval)%Q.
    generalize (contribution func interval). intros x. lra.
  - destruct (simpson_rec n func (i1 func interval)) as [v1|] eqn:S1; [|discriminate].
    destruct (simpson_rec n func (i2 func interval)) as [v2|] eqn:S2; [|discriminate].
    destruct (leaves n func (i1 func interval)) as [l1|] eqn:E1; [|discriminate].
    destruct (leaves n func (i2 func interval)) as [l2|] eqn:E2; [|discriminate].
    intros [= <-] [= <-].
    pose proof (IH _ _ _ S1 E1) as H1. pose proof (IH _ _ _ S2 E2) as H2.
    assert (Happ : accumulate func (l1 ++ l2) (dlit 0)
                   = accumulate func l1 (accumulate func l2 (dlit 0)))
      by apply foldr_app.
    rewrite Happ, accumulate_from.
    change (@dlit Q exact 0) with 0%Q in *. change (@dadd Q exact) with Qplus.
    rewrite H1, H2. lra.
Qed.

(** C8. In arithmetic without rounding the refinement ends, whatever the
    function, the tolerance and the domain. An interval narrower than 1e-12
    is accepted whatever the tolerance, and a split halves the width; so
    with [levels] the least [n] such that [width * 10^12 < 2^n], the
    recursive integrator returns a value within [levels + 1] levels, and the
    work-queue program, with any number of loops and under any schedule,
    performs at most [2 * (2^(levels + 1) - 1) + num_threads] steps of its
    loops. *)
Theorem refinement_terminates func l r tolerance num_threads (q : Queue Q) s0 :
  Z.of_nat (length (entry q)) = MAXQUEUE ->
  seeded func l r tolerance num_threads q s0 ->
  (forall interval,
     (width interval < 1 # 1000000000000)%Q -> accepts func interval = true)
  /\ (forall interval,
        (width (i1 func interval) == width interval * (1 # 2))%Q
        /\ (width (i2 func interval) == width interval * (1 # 2))%Q)
  /\ (forall interval,
        (width interval * (1000000000000 # 1) < pow2 (levels interval))%Q
        /\ exists quad, simpson_rec (S (levels interval)) func interval = Some quad)
  /\ (forall schedule,
        Z.of_nat (work func schedule s0)
        <= 2 * (2 ^ (Z.of_nat (levels (whole func l r tolerance)) + 1) - 1)
           + Z.of_nat num_threads).
Proof.
  intros Hlen Hseed. split; [|split; [|split]].
  - intros interval. apply (recursion_terminates func interval).
  - intros interval. split; [apply half_width_left|apply half_width_right].
  - intros interval.
    destruct (recursion_terminates func interval) as (Hspec & _ & _ & Hquad). auto.
  - intros schedule.
    pose proof (work_bounded func schedule s0 (seeded_counted _ _ _ _ _ _ _ Hlen Hseed)).
    rewrite (seeded_potential _ _ _ _ _ _ _ Hseed) in *. exact H.
Qed.

End ExactClaims.

Lemma width_conserved_witness :
  Z.of_nat (length (entry Sample.fresh)) = MAXQUEUE
  /\ seeded Sample.quartic (-3)%float 18014398509481984%float dmicro 2 Sample.fresh
       Sample.wide_seeded
  /\ WorkQueue.exec Sample.quartic [0; 0; 1]%nat Sample.wide_seeded
     = WorkQueue.Running (Sample.wide_after [0; 0; 1]%nat)
  /\ live (WorkQueue.queue (Sample.wide_after [0; 0; 1]%nat))
     = [i1 Sample.quartic Sample.wide]
  /\ WorkQueue.threads (Sample.wide_after [0; 0; 1]%nat)
     = [WorkQueue.Polling; WorkQueue.Holding (i2 Sample.quartic Sample.wide)]
  /\ (float_value 18014398509481984 - float_value (-3) == 18014398509481987 # 1)%Q
  /\ conserved float_value (float_value 18014398509481984 - float_value (-3))%Q
       (Sample.wide_after [0; 0; 1]%nat).
Proof.
  assert (Hlen : Z.of_nat (length (entry Sample.fresh)) = MAXQUEUE) by reflexivity.
  assert (Hseed : seeded Sample.quartic (-3)%float 18014398509481984%float dmicro 2
                    Sample.fresh Sample.wide_seeded).
  { eexists. split; reflexivity. }
  assert (Hexec : WorkQueue.exec Sample.quartic [0; 0; 1]%nat Sample.wide_seeded
                  = WorkQueue.Running (Sample.wide_after [0; 0; 1]%nat))
    by (vm_compute; reflexivity).
  split; [exact Hlen|]. split; [exact Hseed|]. split; [exact Hexec|].
  split; [vm_compute; reflexivity|]. split; [vm_compute; reflexivity|].
  split; [vm_compute; reflexivity|].
  exact (proj1 (proj2 (width_conserved float_value _ _ _ _ _ _ _ _ _ Hlen Hseed Hexec))).
Defined.

Lemma refinement_terminates_witness :
  Z.of_nat (length (entry ExactSample.fresh)) = MAXQUEUE
  /\ seeded ExactSample.quartic 0%Q 1%Q (1 # 1000)%Q 2 ExactSample.fresh
       ExactSample.seeded_state
  /\ forall schedule,
       Z.of_nat (work ExactSample.quartic schedule ExactSample.seeded_state)
       <= 2 * (2 ^ (40 + 1) - 1) + 2.
Proof.
  assert (Hlen : Z.of_nat (length (entry ExactSample.fresh)) = MAXQUEUE) by reflexivity.
  assert (Hseed : seeded ExactSample.quartic 0%Q 1%Q (1 # 1000)%Q 2 ExactSample.fresh
                    ExactSample.seeded_state).
  { eexists. split; reflexivity. }
  split; [exact Hlen|]. split; [exact Hseed|].
  exact (proj2 (proj2 (proj2 (refinement_terminates _ _ _ _ _ _ _ Hlen Hseed)))).
Defined.

(** ** The flagged program never sees its counters equal after a split *)

Section FlaggedSpin.

Import Flagged.
Context {T : Type} `{Double T}.
Implicit Types (s : State T) (func : T -> T).

(** The routine parts of [spinning] for the next place [th'] of the loop;
    what is left is the clause on [Compare] and the clause on the first
    split. *)
Ltac spin th' :=
  exists th'; flagged_fields;
  split; [first [reflexivity | assumption]|];
  split; [assumption|];
  split; [eauto using enqueue_wf, dequeue_wf|];
  split; [lia|];
  split; [cbn [pending]; lia|];
  split; [discriminate|];
  split; [discriminate|];
  split; [try (intros [=])|].

Lemma step_spinning func seed s s' :
  accepts func seed = false ->
  spinning seed s -> step func 0 s = Running s' -> spinning seed s'.
Proof.
  intros Hrej (th & Hth & Hdone & Hwf & Htot & Hcount & Hnd & Hng & Hcmp & Hfirst) Hstep.
  unfold step in Hstep. rewrite Hth in Hstep. cbn [lookup list_lookup] in Hstep.
  assert (Hsz : 0 <= size (queue s)) by (destruct Hwf as [_ ?]; unfold size; lia).
  unfold spinning.
  destruct th as [| | | | |work|interval| |interval|interval| |];
    try contradiction; cbn [pending] in Hcount.
  - (* AtWhile *)
    rewrite Hdone in Hstep. injection Hstep as <-. unfold move. try rewrite Hth.
    spin (@Entering T).
    intros Hone. destruct (Hfirst Hone). split; assumption.
  - (* Entering *)
    destruct (queue_access s).
    { injection Hstep as <-. spin (@Entering T). exact Hfirst. }
    injection Hstep as <-. try rewrite Hth.
    destruct (isempty (queue s)) eqn:Hempty.
    + apply bool_decide_eq_true in Hempty.
      assert (Hthree : 3 <= total s).
      { destruct Htot as [Hone|]; [|assumption].
        destruct (Hfirst Hone) as [_ Hlive].
        pose proof (size_live _ Hwf) as Hl. rewrite Hlive in Hl.
        unfold size in Hl. cbn in Hl. lia. }
      spin (@Compare T).
      * unfold size. lia.
      * intros Hone. lia.
    + spin (@Extract T).
      intros Hone. destruct (Hfirst Hone). split; assumption.
  - (* Extract *)
    destruct (dequeue (queue s)) as [[interval q']| |] eqn:Hdeq; try discriminate.
    injection Hstep as <-. try rewrite Hth.
    pose proof (size_dequeue _ _ _ Hdeq) as Hsize.
    spin (TestDone (Some interval)).
    intros Hone. destruct (Hfirst Hone) as [Hp Hlive]. split; [assumption|].
    pose proof (live_dequeue _ _ _ Hdeq) as Hl. rewrite Hlive in Hl.
    change [seed] with ([] ++ [seed]) in Hl. apply app_inj_tail in Hl as [_ ->].
    reflexivity.
  - (* Compare *)
    destruct (Hcmp eq_refl) as [Hzero Hthree].
    destruct (decide _) as [Heq|_]; [lia|].
    injection Hstep as <-. try rewrite Hth.
    spin (@TestDone T None). intros Hone. lia.
  - (* TestDone *)
    rewrite Hdone in Hstep. destruct work as [interval|].
    + injection Hstep as <-. unfold move. try rewrite Hth.
      destruct (accepts func interval) eqn:Hacc.
      * spin (AddQuad interval).
        intros Hone. destruct (Hfirst Hone) as [_ ->]. congruence.
      * spin (EnterUpdate interval).
        intros Hone. destruct (Hfirst Hone) as [? ->]. split; [assumption|reflexivity].
    + injection Hstep as <-. unfold move. try rewrite Hth.
      spin (@AtWhile T).
      intros Hone. destruct (Hfirst Hone) as [_ []].
  - (* AddQuad *)
    injection Hstep as <-. try rewrite Hth.
    spin (@CountProcessed T).
    intros Hone. destruct (Hfirst Hone) as [_ []].
  - (* CountProcessed *)
    destruct (decide _); [discriminate|]. injection Hstep as <-. try rewrite Hth.
    spin (@AtWhile T).
    intros Hone. destruct (Hfirst Hone) as [_ []].
  - (* EnterUpdate *)
    destruct (queue_update s).
    { injection Hstep as <-. spin (EnterUpdate interval). exact Hfirst. }
    destruct (enqueue _ (queue s)) as [q'| |] eqn:Henq; try discriminate.
    injection Hstep as <-. try rewrite Hth.
    pose proof (size_enqueue _ _ _ Henq) as Hsize.
    spin (PushSecond interval).
    intros Hone. destruct (Hfirst Hone) as [? ->]. split; [assumption|reflexivity].
  - (* PushSecond *)
    destruct (enqueue _ (queue s)) as [q'| |] eqn:Henq; try discriminate.
    injection Hstep as <-. try rewrite Hth.
    pose proof (size_enqueue _ _ _ Henq) as Hsize.
    spin (@AddTotal T).
    intros Hone. destruct (Hfirst Hone) as [? _]. split; [assumption|exact I].
  - (* AddTotal *)
    destruct (decide _); [discriminate|]. injection Hstep as <-. try rewrite Hth.
    spin (@AtWhile T).
    intros Hone. lia.
Qed.

Lemma exec_spinning func seed schedule s s' :
  accepts func seed = false ->
  spinning seed s -> exec func schedule s = Running s' -> spinning seed s'.
Proof.
  intros Hrej. revert s. induction schedule as [|t schedule IH]; intros s Hs; cbn.
  - intros [= <-]. assumption.
  - destruct (step func t s) as [s1| |] eqn:Hstep; try discriminate.
    apply IH. destruct t as [|t].
    + eauto using step_spinning.
    + destruct Hs as (th & Hth & Hrest). unfold step in Hstep.
      rewrite Hth in Hstep. cbn in Hstep. injection Hstep as <-.
      exists th. auto.
Qed.

(** X4. With one loop, once the initial interval is rejected, [simpson] of the
    flagged program never returns: after a split [total] is [2s + 1] for
    [s] splits and [total_processed] is at most [s + 1], so the loop never
    finds them equal and keeps polling the empty queue. *)
Theorem flagged_one_loop_never_returns func l r tolerance schedule (q : Queue T) :
  Z.of_nat (length (entry q)) = MAXQUEUE ->
  accepts func (WorkQueue.whole func l r tolerance) = false ->
  forall quad, integrate func l r tolerance 1 schedule q <> Returns quad.
Proof.
  intros Hlen Hrej quad0. unfold integrate.
  destruct (enqueue (WorkQueue.whole func l r tolerance) (init q)) as [q'| |] eqn:Henq;
    try discriminate.
  unfold simpson.
  destruct (exec func schedule (start 1 q' 1 0)) as [s| |] eqn:Hexec; try discriminate.
  assert (Hs : spinning (WorkQueue.whole func l r tolerance) s).
  { eapply exec_spinning; [exact Hrej| |exact Hexec].
    exists AtWhile. unfold start. flagged_fields.
    pose proof (enqueue_wf _ _ _ (init_wf q Hlen) Henq) as Hwf.
    pose proof (size_enqueue _ _ _ Henq) as Hsize.
    split; [reflexivity|]. split; [reflexivity|]. split; [exact Hwf|].
    split; [left; reflexivity|].
    split; [rewrite Hsize; unfold size, init; cbn; lia|].
    split; [discriminate|]. split; [discriminate|]. split; [intros [=]|].
    intros _. unfold first_split. flagged_fields. split; [reflexivity|].
    rewrite (live_enqueue _ (init q) _ (Z.le_refl (-1)) Henq). reflexivity. }
  destruct Hs as (th & Hth & _ & _ & _ & _ & _ & Hng & _).
  rewrite Hth. cbn. destruct th; try discriminate. contradiction.
Qed.

End FlaggedSpin.

(** ** Completion declared while work is held *)

(** C1. Both work-queue programs can declare completion while the queue is
    only momentarily empty. In src/lifo-algorithm/solver2-1Queue.c a loop
    that finds the queue empty leaves at once, without looking at the
    counters: with two loops on [0, 10], loop 0 dequeues the initial
    interval, then loop 1 finds the queue empty and is out of its loop while
    [total_processed] is 0, [total] is 1 and loop 0 still holds the interval.
    In the flagged program the test [total_processed == total] is made under
    [critical(queue_access)], which does not exclude [critical(queue_update)]:
    with two loops on the quartic over [0, 1], loop 0 dequeues the initial
    interval, rejects it and enqueues its left half; loop 1 dequeues and
    accepts that half, comes back, finds the queue empty and the counters
    both 1, and raises [done] while loop 0 still has the right half to
    enqueue. Both loops then leave and [simpson] returns the contribution of
    the left half alone. *)
Theorem completion_declared_while_work_is_held :
  (exists s,
     WorkQueue.exec Sample.quartic [0%nat; 1%nat]
       (WorkQueue.start 2 (Sample.seeded_queue (Sample.domain Sample.quartic)) 1 0)
     = WorkQueue.Running s
     /\ WorkQueue.threads s
        = [WorkQueue.Holding (Sample.domain Sample.quartic); WorkQueue.Finished]
     /\ isempty (WorkQueue.queue s) = true
     /\ WorkQueue.total_processed s = 0 /\ WorkQueue.total s = 1)
  /\ (exists s,
        Flagged.exec Sample.quartic (replicate 5 0%nat ++ replicate 10 1%nat)
          (Flagged.start 2 (Sample.seeded_queue Sample.unit_interval) 1 0)
        = Flagged.Running s
        /\ Flagged.done s = true
        /\ Flagged.threads s
           = [Flagged.PushSecond Sample.unit_interval; Flagged.TestDone None]
        /\ isempty (Flagged.queue s) = true
        /\ Flagged.total_processed s = 1 /\ Flagged.total s = 1)
  /\ Flagged.integrate Sample.quartic 0%float 1%float 0x1p-10%float 2
       (replicate 5 0%nat ++ replicate 11 1%nat ++ replicate 3 0%nat) Sample.fresh
     = Flagged.Returns
         (0 + contribution Sample.quartic (i1 Sample.quartic Sample.unit_interval))%float
  /\ simpson_rec 2 Sample.quartic Sample.unit_interval
     = Some (contribution Sample.quartic (i1 Sample.quartic Sample.unit_interval)
             + contribution Sample.quartic (i2 Sample.quartic Sample.unit_interval))%float.
Proof.
  split; [eexists; repeat split|].
  split; [eexists; split; [vm_compute; reflexivity|]; repeat split|].
  split; vm_compute; reflexivity.
Qed.

Lemma flagged_one_loop_never_returns_witness :
  Z.of_nat (length (entry Sample.fresh)) = MAXQUEUE
  /\ accepts Sample.quartic Sample.unit_interval = false
  /\ forall schedule quad,
       Flagged.integrate Sample.quartic 0%float 1%float 0x1p-10%float 1 schedule
         Sample.fresh
       <> Flagged.Returns quad.
Proof.
  assert (Hlen : Z.of_nat (length (entry Sample.fresh)) = MAXQUEUE) by reflexivity.
  assert (Hrej : accepts Sample.quartic
                   (WorkQueue.whole Sample.quartic 0%float 1%float 0x1p-10%float)
                 = false) by (vm_compute; reflexivity).
  split; [exact Hlen|]. split; [exact Hrej|].
  intros schedule. exact (flagged_one_loop_never_returns _ _ _ _ schedule _ Hlen Hrej).
Defined.

Lemma one_loop_resolves_the_same_leaves_witness :
  Z.of_nat (length (entry Sample.fresh)) = MAXQUEUE
  /\ leaves 2 Sample.quartic Sample.unit_interval
     = Some [i1 Sample.quartic Sample.unit_interval;
             i2 Sample.quartic Sample.unit_interval]
  /\ accepts Sample.quartic Sample.unit_interval = false
  /\ exists k,
       WorkQueue.integrate Sample.quartic 0%float 1%float 0x1p-10%float 1
         (replicate k 0%nat) Sample.fresh
       = WorkQueue.Returns
           (0 + contribution Sample.quartic (i2 Sample.quartic Sample.unit_interval)
            + contribution Sample.quartic (i1 Sample.quartic Sample.unit_interval))%float.
Proof.
  assert (Hlen : Z.of_nat (length (entry Sample.fresh)) = MAXQUEUE) by reflexivity.
  assert (Hls : leaves 2 Sample.quartic
                  (WorkQueue.whole Sample.quartic 0%float 1%float 0x1p-10%float)
                = Some [i1 Sample.quartic Sample.unit_interval;
                        i2 Sample.quartic Sample.unit_interval])
    by (vm_compute; reflexivity).
  assert (Hrej : accepts Sample.quartic
                   (WorkQueue.whole Sample.quartic 0%float 1%float 0x1p-10%float)
                 = false) by (vm_compute; reflexivity).
  split; [exact Hlen|]. split; [exact Hls|]. split; [exact Hrej|].
  destruct (one_loop_resolves_the_same_leaves 2 _ _ _ _ _ _ Hlen Hls Hrej)
    as (k & _ & _ & _ & _ & _ & _ & _ & Hret); [unfold MAXQUEUE; lia|cbn; unfold INT_MAX; lia|].
  exists k. exact Hret.
Defined.

(** ** Further properties of the two work-queue programs *)

Section Further.

Import WorkQueue.
Context {T : Type} `{Double T}.
Implicit Types (s : State T) (func : T -> T).

Lemma step_pristine func seed t s s' :
  counted s -> 3 <= total s \/ pristine seed s ->
  step func t s = Running s' -> 3 <= total s' \/ pristine seed s'.
Proof.
  intros Hc Hinv Hstep. pose proof Hc as (Hwf & Hpos & Hone & Hcount).
  unfold step in Hstep.
  destruct (threads s !! t) as [[|interval|]|] eqn:Ht.
  - unfold poll in Hstep. destruct (isempty (queue s)).
    + injection Hstep as <-. fields.
      destruct Hinv as [|(Ha & Hq & Hh)]; [auto|]. right. unfold pristine. fields.
      split; [exact Ha|]. split; [exact Hq|].
      intros t' i Ht'. apply list_lookup_insert_Some in Ht'.
      destruct Ht' as [(_ & [=] & _)|(_ & Ht')]. eauto.
    + destruct (dequeue (queue s)) as [[i q']| |] eqn:Hdeq; try discriminate.
      injection Hstep as <-. fields.
      destruct Hinv as [|(Ha & Hq & Hh)]; [auto|]. right. unfold pristine. fields.
      rewrite (live_dequeue _ _ _ Hdeq) in Hq.
      apply Forall_app in Hq as [Hq' Hi]. apply List.Forall_inv in Hi.
      split; [exact Ha|]. split; [exact Hq'|].
      intros t' i' Ht'. apply list_lookup_insert_Some in Ht'.
      destruct Ht' as [(_ & [= <-] & _)|(_ & Ht')]; eauto.
  - unfold process in Hstep. destruct (accepts func interval).
    + destruct (decide _); [discriminate|]. cbv zeta in Hstep.
      destruct (decide _) as [|Hne]; [discriminate|].
      injection Hstep as <-. fields. left.
      pose proof (held_insert _ _ _ Polling Ht) as Hi.
      pose proof (held_nonneg (<[t := Polling]> (threads s))).
      cbn [holding] in Hi. destruct Hwf as [_ Htop]. unfold size in Hcount. lia.
    + destruct (enqueue _ (queue s)) as [queue1| |] eqn:E1; try discriminate.
      destruct (enqueue _ queue1) as [queue2| |] eqn:E2; try discriminate.
      destruct (decide _); [discriminate|].
      injection Hstep as <-. fields. left. lia.
  - injection Hstep as <-. exact Hinv.
  - injection Hstep as <-. exact Hinv.
Qed.

Lemma exec_pristine func seed schedule s s' :
  counted s -> 3 <= total s \/ pristine seed s ->
  exec func schedule s = Running s' -> 3 <= total s' \/ pristine seed s'.
Proof.
  revert s. induction schedule as [|t schedule IH]; intros s Hc Hinv; cbn.
  - intros [= <-]. assumption.
  - destruct (step func t s) as [s1| |] eqn:Hstep; try discriminate.
    eauto using step_counted, step_pristine.
Qed.

(** X3. The exit on convergence of the first program fires only on the initial
    interval: when the process exits with "Convergence reached", [total] is
    still 1, nothing was ever split, the queue is empty and the interval
    just accepted is the only one ever created. *)
Theorem convergence_exit_only_without_split
    func l r tolerance num_threads (q : Queue T) schedule s0 s t s' :
  Z.of_nat (length (entry q)) = MAXQUEUE ->
  seeded func l r tolerance num_threads q s0 ->
  exec func schedule s0 = Running s ->
  step func t s = Exited Converged s' ->
  total s' = 1 /\ total_processed s' = 1
  /\ isempty (queue s') = true
  /\ accepted s' = [whole func l r tolerance].
Proof.
  intros Hlen Hseed Hexec Hstep.
  pose proof (seeded_counted _ _ _ _ _ _ _ Hlen Hseed) as Hc0.
  pose proof (exec_counted _ _ _ _ Hc0 Hexec) as Hc.
  assert (Hinv : 3 <= total s \/ pristine (whole func l r tolerance) s).
  { eapply exec_pristine; [exact Hc0| |exact Hexec]. right.
    destruct (seeded_everywhere (fun i => i = whole func l r tolerance)
                _ _ _ _ _ _ _ eq_refl Hseed) as (Hq & Hh & _).
    destruct Hseed as (q' & _ & ->). split; [reflexivity|]. auto. }
  unfold step in Hstep.
  destruct (threads s !! t) as [[|interval|]|] eqn:Ht; try discriminate.
  - unfold poll in Hstep. destruct (isempty (queue s)); [discriminate|].
    destruct (dequeue (queue s)) as [[i q']| |] eqn:Hdeq; try discriminate.
    injection Hstep as -> _. apply dequeue_exit in Hdeq. discriminate.
  - unfold process in Hstep. destruct (accepts func interval).
    + destruct (decide _); [discriminate|]. cbv zeta in Hstep.
      destruct (decide _) as [Heq|]; [|discriminate].
      injection Hstep as <-. fields.
      destruct Hc as (Hwf & Hpos & Hone & Hcount).
      pose proof (held_insert _ _ _ Polling Ht) as Hi.
      pose proof (held_nonneg (<[t := Polling]> (threads s))).
      cbn [holding] in Hi. destruct Hwf as [_ Htop]. unfold size in Hcount.
      assert (Htot : total s = 1) by lia.
      split; [exact Htot|]. split; [lia|].
      split; [apply bool_decide_eq_true; lia|].
      destruct Hinv as [|(Ha & _ & Hh)]; [lia|].
      rewrite Ha, (Hh t interval Ht). reflexivity.
    + destruct (enqueue _ (queue s)) as [queue1| |] eqn:E1; try discriminate.
      * destruct (enqueue _ queue1) as [queue2| |] eqn:E2; try discriminate.
        -- destruct (decide _); discriminate.
        -- injection Hstep as -> _. apply enqueue_exit in E2. discriminate.
      * injection Hstep as -> _. apply enqueue_exit in E1. discriminate.
Qed.

End Further.

Lemma convergence_exit_only_without_split_witness :
  Z.of_nat (length (entry Sample.fresh)) = MAXQUEUE
  /\ exists s0 s s',
       seeded Sample.constant5 0%float 10%float dmicro 1 Sample.fresh s0
       /\ WorkQueue.exec Sample.constant5 [0%nat] s0 = WorkQueue.Running s
       /\ WorkQueue.step Sample.constant5 0 s = WorkQueue.Exited Converged s'
       /\ WorkQueue.total s' = 1.
Proof.
  assert (Hlen : Z.of_nat (length (entry Sample.fresh)) = MAXQUEUE) by reflexivity.
  split; [exact Hlen|].
  eexists _, _, _.
  assert (Hseed : seeded Sample.constant5 0%float 10%float dmicro 1 Sample.fresh
                    (WorkQueue.start 1
                       (Sample.seeded_queue (Sample.domain Sample.constant5)) 1 0)).
  { eexists. split; reflexivity. }
  split; [exact Hseed|].
  assert (Hexec : WorkQueue.exec Sample.constant5 [0%nat]
                    (WorkQueue.start 1
                       (Sample.seeded_queue (Sample.domain Sample.constant5)) 1 0)
                  = WorkQueue.Running
                      {| WorkQueue.queue :=
                           {| entry := entry (Sample.seeded_queue
                                                (Sample.domain Sample.constant5));
                              top := -1 |};
                         WorkQueue.total := 1; WorkQueue.total_processed := 0;
                         WorkQueue.quad := 0%float;
                         WorkQueue.threads :=
                           [WorkQueue.Holding (Sample.domain Sample.constant5)];
                         WorkQueue.accepted := [] |})
    by reflexivity.
  split; [exact Hexec|].
  assert (Hstep : WorkQueue.step Sample.constant5 0
                    {| WorkQueue.queue :=
                         {| entry := entry (Sample.seeded_queue
                                              (Sample.domain Sample.constant5));
                            top := -1 |};
                       WorkQueue.total := 1; WorkQueue.total_processed := 0;
                       WorkQueue.quad := 0%float;
                       WorkQueue.threads :=
                         [WorkQueue.Holding (Sample.domain Sample.constant5)];
                       WorkQueue.accepted := [] |}
                  = WorkQueue.Exited Converged
                      {| WorkQueue.queue :=
                           {| entry := entry (Sample.seeded_queue
                                                (Sample.domain Sample.constant5));
                              top := -1 |};
                         WorkQueue.total := 1; WorkQueue.total_processed := 1;
                         WorkQueue.quad := 50%float;
                         WorkQueue.threads := [WorkQueue.Polling];
                         WorkQueue.accepted := [Sample.domain Sample.constant5] |})
    by reflexivity.
  split; [exact Hstep|].
  exact (proj1 (convergence_exit_only_without_split _ _ _ _ _ _ _ _ _ _ _
                  Hlen Hseed Hexec Hstep)).
Defined.

Lemma simpson_rec_accumulate_witness :
  simpson_rec 2 ExactSample.quartic ExactSample.unit_interval
  = Some ExactSample.unit_value
  /\ leaves 2 ExactSample.quartic ExactSample.unit_interval
     = Some ExactSample.unit_leaves
  /\ (ExactSample.unit_value
      == accumulate ExactSample.quartic ExactSample.unit_leaves 0)%Q.
Proof.
  assert (Hrec : simpson_rec 2 ExactSample.quartic ExactSample.unit_interval
                 = Some ExactSample.unit_value) by reflexivity.
  assert (Hls : leaves 2 ExactSample.quartic ExactSample.unit_interval
                = Some ExactSample.unit_leaves) by reflexivity.
  split; [exact Hrec|]. split; [exact Hls|].
  exact (simpson_rec_accumulate _ _ _ _ _ Hrec Hls).
Defined.

(** * Further properties *)

Section Fuel.

Context {T : Type} `{Double T}.

(** A deeper bound on the recursion does not change its value. *)
Lemma simpson_rec_more_fuel n m (func : T -> T) (interval : Interval T) v :
  simpson_rec n func interval = Some v -> (n <= m)%nat ->
  simpson_rec m func interval = Some v.
Proof.
  revert m interval v. induction n as [|n IH]; intros m interval v; [discriminate|].
  intros Hv Hle. destruct m as [|m]; [lia|].
  cbn [simpson_rec] in *. destruct (accepts func interval); [exact Hv|].
  destruct (simpson_rec n func (i1 func interval)) as [v1|] eqn:E1; [|discriminate].
  destruct (simpson_rec n func (i2 func interval)) as [v2|] eqn:E2; [|discriminate].
  rewrite (IH m _ _ E1), (IH m _ _ E2) by lia. exact Hv.
Qed.

End Fuel.

Section Settled.

Import WorkQueue.
Local Open Scope Q_scope.
Implicit Types (s : State Q) (ths : list (Thread Q)) (func : Q -> Q).

Lemma sum_of_cons {A : Type} (w : A -> Q) a l : sum_of w (a :: l) = w a + sum_of w l.
Proof. reflexivity. Qed.

Lemma sum_of_app {A : Type} (w : A -> Q) l1 l2 :
  sum_of w (l1 ++ l2) == sum_of w l1 + sum_of w l2.
Proof.
  induction l1 as [|a l1 IH].
  - change ([] ++ l2) with l2. change (sum_of w []) with 0. lra.
  - change ((a :: l1) ++ l2) with (a :: (l1 ++ l2)).
    rewrite !sum_of_cons, IH. lra.
Qed.

Lemma sum_of_insert {A : Type} (w : A -> Q) l t a a' :
  l !! t = Some a -> sum_of w (<[t := a']> l) == sum_of w l - w a + w a'.
Proof.
  revert t. induction l as [|x l IH]; intros [|t] Hlook; try discriminate.
  - injection Hlook as ->.
    change (<[0%nat := a']> (a :: l)) with (a' :: l).
    rewrite !sum_of_cons. lra.
  - change (<[S t := a']> (x :: l)) with (x :: <[t := a']> l).
    rewrite !sum_of_cons, (IH t Hlook). lra.
Qed.

Lemma sum_of_finished func ths :
  forallb finished ths = true -> sum_of (hand_value func) ths == 0.
Proof.
  induction ths as [|th ths IH]; [reflexivity|].
  cbn [forallb]. intros [Hth Hall]%andb_true_iff.
  rewrite sum_of_cons, (IH Hall). destruct th; try discriminate. cbn. lra.
Qed.

Lemma value_some func interval :
  simpson_rec (S (levels interval)) func interval = Some (value func interval).
Proof.
  unfold value.
  destruct (recursion_terminates func interval) as (_ & _ & _ & v & ->). reflexivity.
Qed.

Lemma value_accepted func interval :
  accepts func interval = true -> value func interval = contribution func interval.
Proof. intros Hacc. unfold value. cbn [simpson_rec]. rewrite Hacc. reflexivity. Qed.

Lemma value_split func interval :
  accepts func interval = false ->
  value func interval = value func (i1 func interval) + value func (i2 func interval).
Proof.
  intros Hrej. destruct (levels_half func interval Hrej) as [H1 H2].
  unfold value at 1. cbn [simpson_rec]. rewrite Hrej.
  rewrite (simpson_rec_more_fuel _ (levels interval) _ _ _ (value_some func (i1 func interval)))
    by lia.
  rewrite (simpson_rec_more_fuel _ (levels interval) _ _ _ (value_some func (i2 func interval)))
    by lia.
  reflexivity.
Qed.

Lemma step_settled v func t s s' :
  counted s -> settled func v s -> step func t s = Running s' -> settled func v s'.
Proof.
  intros (Hwf & _) Hv Hstep. unfold settled in *. unfold step in Hstep.
  destruct (threads s !! t) as [[|interval|]|] eqn:Ht.
  - unfold poll in Hstep. destruct (isempty (queue s)).
    + injection Hstep as <-. fields.
      rewrite (sum_of_insert _ _ _ _ _ Ht). cbn [hand_value]. lra.
    + destruct (dequeue (queue s)) as [[i q']| |] eqn:Hdeq; try discriminate.
      injection Hstep as <-. fields.
      rewrite (sum_of_insert _ _ _ _ _ Ht). cbn [hand_value].
      rewrite (live_dequeue _ _ _ Hdeq), sum_of_app, sum_of_cons in Hv.
      change (sum_of (value func) []) with 0 in Hv. lra.
  - unfold process in Hstep. destruct (accepts func interval) eqn:Hacc.
    + pose proof (value_accepted _ _ Hacc) as Hval.
      set (x := contribution func interval) in *.
      destruct (decide _); [discriminate|]. cbv zeta in Hstep.
      destruct (decide _); [discriminate|].
      injection Hstep as <-. fields.
      rewrite (sum_of_insert _ _ _ _ _ Ht). cbn [hand_value].
      rewrite Hval. change (@dadd Q exact) with Qplus. lra.
    + destruct (enqueue _ (queue s)) as [queue1| |] eqn:E1; try discriminate.
      destruct (enqueue _ queue1) as [queue2| |] eqn:E2; try discriminate.
      destruct (decide _); [discriminate|].
      injection Hstep as <-. fields.
      pose proof (enqueue_wf _ _ _ Hwf E1) as Hwf1.
      rewrite (live_enqueue _ _ _ (proj1 (proj2 Hwf1)) E2).
      rewrite (live_enqueue _ _ _ (proj1 (proj2 Hwf)) E1).
      rewrite (sum_of_insert _ _ _ _ _ Ht), !sum_of_app, !sum_of_cons.
      cbn [hand_value]. change (sum_of (value func) []) with 0.
      rewrite (value_split _ _ Hacc). lra.
  - injection Hstep as <-. exact Hv.
  - injection Hstep as <-. exact Hv.
Qed.

Lemma exec_settled v func schedule s s' :
  counted s -> settled func v s -> exec func schedule s = Running s' -> settled func v s'.
Proof.
  revert s. induction schedule as [|t schedule IH]; intros s Hc Hv; cbn.
  - intros [= <-]. assumption.
  - destruct (step func t s) as [s1| |] eqn:Hstep; try discriminate.
    eauto using step_counted, step_settled.
Qed.

Lemma seeded_settled func l r tolerance num_threads (q : Queue Q) s :
  seeded func l r tolerance num_threads q s ->
  settled func (value func (whole func l r tolerance)) s.
Proof.
  intros (q' & Henq & ->). unfold settled, start. fields.
  rewrite (live_enqueue _ (init q) _ (Z.le_refl (-1)) Henq), live_init.
  assert (Hidle : sum_of (hand_value func) (replicate num_threads (@Polling Q)) == 0).
  { induction num_threads as [|n IH]; [reflexivity|].
    cbn [replicate]. rewrite sum_of_cons, IH. cbn. lra. }
  rewrite Hidle. cbn [app]. rewrite sum_of_cons.
  change (sum_of (value func) []) with 0. change (@dlit Q exact 0) with 0. lra.
Qed.

(** When [simpson] returns, [quad] is the value of the recursion. *)
Lemma returned_quad_is_value
    func l r tolerance num_threads schedule (q : Queue Q) quad :
  Z.of_nat (length (entry q)) = MAXQUEUE -> (0 < num_threads)%nat ->
  integrate func l r tolerance num_threads schedule q = Returns quad ->
  exists v,
    simpson_rec (S (levels (whole func l r tolerance))) func (whole func l r tolerance)
    = Some v
    /\ quad == v.
Proof.
  intros Hlen Hn. unfold integrate.
  destruct (enqueue (whole func l r tolerance) (init q)) as [q'| |] eqn:Henq;
    try discriminate.
  unfold simpson.
  destruct (exec func schedule (start num_threads q' 1 0)) as [s| |] eqn:Hexec;
    try discriminate.
  destruct (forallb finished (threads s)) eqn:Hall; [|discriminate].
  intros [= <-].
  assert (Hseed : seeded func l r tolerance num_threads q (start num_threads q' 1 0))
    by (exists q'; auto).
  pose proof (seeded_counted _ _ _ _ _ _ _ Hlen Hseed) as Hc0.
  pose proof (exec_settled _ _ _ _ _ Hc0 (seeded_settled _ _ _ _ _ _ _ Hseed) Hexec) as Hv.
  assert (Hd : drained s).
  { eapply exec_drained; [|exact Hexec]. apply start_drained, Hn. }
  pose proof (Hd Hall) as Hempty. apply bool_decide_eq_true in Hempty.
  exists (value func (whole func l r tolerance)). split; [apply value_some|].
  unfold settled in Hv.
  rewrite (live_empty (queue s)) in Hv by (unfold size; lia).
  rewrite (sum_of_finished _ _ Hall) in Hv.
  change (sum_of (value func) []) with 0 in Hv. lra.
Qed.

(** X6. In arithmetic without rounding the result of the work-queue program
    does not depend on the schedule or on the number of loops. The recursive
    integrator has a value [v] on the initial interval; in every state that
    any schedule reaches, [quad] and the values of the recursion on the
    queued and held intervals add up to [v]; and whenever [simpson] returns,
    the sum it returns is [v]. *)
Theorem any_schedule_returns_the_recursive_value
    func l r tolerance num_threads (q : Queue Q) :
  Z.of_nat (length (entry q)) = MAXQUEUE -> (0 < num_threads)%nat ->
  exists v,
    simpson_rec (S (levels (whole func l r tolerance))) func (whole func l r tolerance)
    = Some v
    /\ (forall schedule s0 s,
          seeded func l r tolerance num_threads q s0 ->
          exec func schedule s0 = Running s ->
          quad s + sum_of (value func) (live (queue s))
          + sum_of (hand_value func) (threads s) == v)
    /\ (forall schedule quad,
          integrate func l r tolerance num_threads schedule q = Returns quad ->
          quad == v).
Proof.
  intros Hlen Hn. exists (value func (whole func l r tolerance)).
  split; [apply value_some|]. split.
  - intros schedule s0 s Hseed Hexec.
    change (settled func (value func (whole func l r tolerance)) s).
    eapply exec_settled; [| |exact Hexec].
    + exact (seeded_counted _ _ _ _ _ _ _ Hlen Hseed).
    + exact (seeded_settled _ _ _ _ _ _ _ Hseed).
  - intros schedule quad Hret.
    destruct (returned_quad_is_value _ _ _ _ _ _ _ _ Hlen Hn Hret) as (v & Hv & Hquad).
    rewrite value_some in Hv. injection Hv as <-. exact Hquad.
Qed.

End Settled.

(** ** What is accepted, in any arithmetic *)

Section AcceptedFacts.

Import WorkQueue.
Context {T : Type} `{Double T}.
Implicit Types (s : State T) (ths : list (Thread T)) (func : T -> T)
  (interval : Interval T).

Lemma leaves_more_fuel n m func interval ls :
  leaves n func interval = Some ls -> (n <= m)%nat ->
  leaves m func interval = Some ls.
Proof.
  revert m interval ls. induction n as [|n IH]; intros m interval ls; [discriminate|].
  intros Hls Hle. destruct m as [|m]; [lia|].
  cbn [leaves] in *. destruct (accepts func interval); [exact Hls|].
  destruct (leaves n func (i1 func interval)) as [l1|] eqn:E1; [|discriminate].
  destruct (leaves n func (i2 func interval)) as [l2|] eqn:E2; [|discriminate].
  rewrite (IH m _ _ E1), (IH m _ _ E2) by lia. exact Hls.
Qed.

Lemma leaves_of_app fuel func l1 l2 :
  leaves_of fuel func (l1 ++ l2)
  = match leaves_of fuel func l1, leaves_of fuel func l2 with
    | Some r1, Some r2 => Some (r1 ++ r2)
    | _, _ => None
    end.
Proof.
  induction l1 as [|interval l1 IH]; cbn [app leaves_of].
  - destruct (leaves_of fuel func l2); reflexivity.
  - rewrite IH. destruct (leaves fuel func interval), (leaves_of fuel func l1),
      (leaves_of fuel func l2); try reflexivity. rewrite app_assoc. reflexivity.
Qed.

Lemma leaves_of_perm fuel func l1 l2 :
  l1 ≡ₚ l2 ->
  forall r1, leaves_of fuel func l1 = Some r1 ->
  exists r2, leaves_of fuel func l2 = Some r2 /\ r1 ≡ₚ r2.
Proof.
  induction 1 as [|x l l' _ IH|x y l|l l' l'' _ IH1 _ IH2]; intros r1; cbn [leaves_of].
  - intros [= <-]. eauto.
  - destruct (leaves fuel func x) as [lx|]; [|discriminate].
    destruct (leaves_of fuel func l) as [r|]; [|discriminate].
    intros [= <-]. destruct (IH r eq_refl) as (r' & -> & Hperm).
    eexists. split; [reflexivity|]. rewrite Hperm. reflexivity.
  - destruct (leaves fuel func y) as [ly|]; [|discriminate].
    destruct (leaves fuel func x) as [lx|]; [|discriminate].
    destruct (leaves_of fuel func l) as [r|]; [|discriminate].
    intros [= <-]. eexists. split; [reflexivity|].
    rewrite !app_assoc. apply Permutation_app_tail, Permutation_app_comm.
  - intros Hr1. destruct (IH1 _ Hr1) as (r2 & Hr2 & Hp12).
    destruct (IH2 _ Hr2) as (r3 & Hr3 & Hp23).
    exists r3. split; [exact Hr3|]. etrans; eauto.
Qed.

(** The hands after loop [t] has changed places. *)
Lemma hands_insert ths t th th' :
  ths !! t = Some th ->
  concat (in_hands <$> <[t := th']> ths) ++ in_hands th
  ≡ₚ concat (in_hands <$> ths) ++ in_hands th'.
Proof.
  revert t. induction ths as [|x ths IH]; intros [|t] Hlook; try discriminate.
  - injection Hlook as ->. cbn [insert list_insert fmap list_fmap concat].
    rewrite <- !app_assoc.
    rewrite (Permutation_app_comm (in_hands th')), app_assoc.
    rewrite (Permutation_app_comm (in_hands th)). rewrite <- app_assoc. reflexivity.
  - cbn [insert list_insert fmap list_fmap concat]. rewrite <- !app_assoc.
    apply Permutation_app_head. apply (IH t Hlook).
Qed.

Lemma hands_finished ths :
  forallb finished ths = true -> concat (in_hands <$> ths) = [].
Proof.
  induction ths as [|th ths IH]; [reflexivity|].
  cbn [forallb]. intros [Hth Hall]%andb_true_iff.
  cbn [fmap list_fmap concat]. rewrite (IH Hall).
  destruct th; try discriminate. reflexivity.
Qed.

Lemma step_accounted func tolerance t s s' :
  everywhere (fun interval => tol interval = tolerance /\ cached func interval) s ->
  accounted func tolerance s -> step func t s = Running s' ->
  accounted func tolerance s'.
Proof.
  intros (_ & Hh & _) (Hall & Hlen & Hquad) Hstep. unfold step in Hstep.
  destruct (threads s !! t) as [[|interval|]|] eqn:Ht.
  - unfold poll in Hstep. destruct (isempty (queue s)).
    + injection Hstep as <-. unfold accounted. auto.
    + destruct (dequeue (queue s)) as [[i q']| |]; try discriminate.
      injection Hstep as <-. unfold accounted. auto.
  - unfold process in Hstep. destruct (accepts func interval) eqn:Hacc.
    + destruct (decide _); [discriminate|]. cbv zeta in Hstep.
      destruct (decide _); [discriminate|].
      injection Hstep as <-. unfold accounted. fields.
      destruct (Hh t interval Ht) as [Htol Hc].
      split; [constructor; auto|]. split; [cbn [length]; lia|].
      rewrite Hquad. reflexivity.
    + destruct (enqueue _ (queue s)) as [queue1| |]; try discriminate.
      destruct (enqueue _ queue1) as [queue2| |]; try discriminate.
      destruct (decide _); [discriminate|].
      injection Hstep as <-. unfold accounted. auto.
  - injection Hstep as <-. unfold accounted. auto.
  - injection Hstep as <-. unfold accounted. auto.
Qed.

Lemma halves_keep func tolerance interval :
  tol interval = tolerance /\ cached func interval ->
  (tol (i1 func interval) = tolerance /\ cached func (i1 func interval))
  /\ (tol (i2 func interval) = tolerance /\ cached func (i2 func interval)).
Proof.
  intros [Htol Hc]. destruct (halves_cached func interval Hc). auto.
Qed.

Lemma exec_accounted func tolerance schedule : forall s s',
  counted s ->
  everywhere (fun interval => tol interval = tolerance /\ cached func interval) s ->
  accounted func tolerance s -> exec func schedule s = Running s' ->
  accounted func tolerance s'.
Proof.
  induction schedule as [|t schedule IH]; intros s s' Hc He Ha; cbn.
  - intros [= <-]. assumption.
  - destruct (step func t s) as [s1| |] eqn:Hstep; try discriminate.
    apply IH.
    + eauto using step_counted.
    + eapply step_everywhere; [|apply Hc|exact He|exact Hstep].
      intros interval. apply halves_keep.
    + eauto using step_accounted.
Qed.

Lemma step_resolving fuel func ls t s s' :
  queue_wf (queue s) ->
  resolving fuel func ls s -> step func t s = Running s' -> resolving fuel func ls s'.
Proof.
  intros Hwf (rest & Hrest & Hperm) Hstep. unfold resolving, outstanding in *.
  unfold step in Hstep.
  destruct (threads s !! t) as [[|interval|]|] eqn:Ht.
  - unfold poll in Hstep. destruct (isempty (queue s)).
    + injection Hstep as <-. fields.
      pose proof (hands_insert _ _ _ Finished Ht) as Hh. cbn [in_hands] in Hh.
      rewrite !app_nil_r in Hh.
      assert (Hout : live (queue s) ++ concat (in_hands <$> threads s)
                     ≡ₚ live (queue s) ++ concat (in_hands <$> <[t := Finished]> (threads s)))
        by (rewrite Hh; reflexivity).
      destruct (leaves_of_perm fuel func _ _ Hout _ Hrest) as (r2 & Hr2 & Hp).
      exists r2. split; [exact Hr2|]. rewrite <- Hp. exact Hperm.
    + destruct (dequeue (queue s)) as [[i q']| |] eqn:Hdeq; try discriminate.
      injection Hstep as <-. fields.
      pose proof (hands_insert _ _ _ (Holding i) Ht) as Hh. cbn [in_hands] in Hh.
      rewrite app_nil_r in Hh.
      rewrite (live_dequeue _ _ _ Hdeq) in Hrest.
      assert (Hout : (live q' ++ [i]) ++ concat (in_hands <$> threads s)
                     ≡ₚ live q' ++ concat (in_hands <$> <[t := Holding i]> (threads s))).
      { rewrite Hh, <- app_assoc. apply Permutation_app_head, Permutation_app_comm. }
      destruct (leaves_of_perm fuel func _ _ Hout _ Hrest) as (r2 & Hr2 & Hp).
      exists r2. split; [exact Hr2|]. rewrite <- Hp. exact Hperm.
  - pose proof (hands_insert _ _ _ Polling Ht) as Hh. cbn [in_hands] in Hh.
    rewrite app_nil_r in Hh.
    assert (Hout : live (queue s) ++ concat (in_hands <$> threads s)
                   ≡ₚ interval :: (live (queue s)
                                   ++ concat (in_hands <$> <[t := Polling]> (threads s)))).
    { rewrite <- Hh, app_assoc. symmetry. apply Permutation_cons_append. }
    destruct (leaves_of_perm fuel func _ _ Hout _ Hrest) as (r2 & Hr2 & Hp).
    cbn [leaves_of] in Hr2.
    destruct (leaves fuel func interval) as [l|] eqn:Hl; [|discriminate].
    destruct (leaves_of fuel func
                (live (queue s) ++ concat (in_hands <$> <[t := Polling]> (threads s))))
      as [r|] eqn:Hr; [|discriminate].
    injection Hr2 as <-.
    destruct fuel as [|n]; [discriminate|]. cbn [leaves] in Hl.
    unfold process in Hstep. destruct (accepts func interval) eqn:Hacc.
    + destruct (decide _); [discriminate|]. cbv zeta in Hstep.
      destruct (decide _); [discriminate|].
      injection Hstep as <-. fields.
      injection Hl as <-.
      exists r. split; [exact Hr|].
      rewrite <- Hperm, Hp. cbn [app]. rewrite <- Permutation_middle. reflexivity.
    + destruct (enqueue _ (queue s)) as [queue1| |] eqn:E1; try discriminate.
      destruct (enqueue _ queue1) as [queue2| |] eqn:E2; try discriminate.
      destruct (decide _); [discriminate|].
      injection Hstep as <-. fields.
      pose proof (enqueue_wf _ _ _ Hwf E1) as Hwf1.
      rewrite (live_enqueue _ _ _ (proj1 (proj2 Hwf1)) E2).
      rewrite (live_enqueue _ _ _ (proj1 (proj2 Hwf)) E1).
      destruct (leaves n func (i1 func interval)) as [l1|] eqn:L1; [|discriminate].
      destruct (leaves n func (i2 func interval)) as [l2|] eqn:L2; [|discriminate].
      injection Hl as <-.
      apply (leaves_more_fuel _ (S n)) in L1; [|lia].
      apply (leaves_more_fuel _ (S n)) in L2; [|lia].
      assert (Hout' : i1 func interval :: i2 func interval
                      :: (live (queue s)
                          ++ concat (in_hands <$> <[t := Polling]> (threads s)))
                      ≡ₚ ((live (queue s) ++ [i1 func interval]) ++ [i2 func interval])
                         ++ concat (in_hands <$> <[t := Polling]> (threads s))).
      { rewrite <- !app_assoc. cbn [app].
        rewrite <- Permutation_middle. apply perm_skip.
        rewrite <- Permutation_middle. reflexivity. }
      destruct (leaves_of_perm (S n) func _ _ Hout' (l1 ++ l2 ++ r)) as (r3 & Hr3 & Hp3).
      { cbn [leaves_of]. rewrite L1, L2, Hr. reflexivity. }
      exists r3. split; [exact Hr3|].
      rewrite <- Hp3, <- Hperm, Hp, <- app_assoc. reflexivity.
  - injection Hstep as <-. eauto.
  - injection Hstep as <-. eauto.
Qed.

Lemma exec_resolving fuel func ls schedule : forall s s',
  counted s ->
  resolving fuel func ls s -> exec func schedule s = Running s' ->
  resolving fuel func ls s'.
Proof.
  induction schedule as [|t schedule IH]; intros s s' Hc Hr; cbn.
  - intros [= <-]. assumption.
  - destruct (step func t s) as [s1| |] eqn:Hstep; try discriminate.
    apply IH; [eauto using step_counted|].
    eapply step_resolving; eauto. apply Hc.
Qed.

End AcceptedFacts.

Section AcceptedClaims.

Import WorkQueue.
Context {T : Type} `{Double T}.
Implicit Types (s : State T) (func : T -> T).

Lemma hands_replicate_polling n : concat (in_hands <$> replicate n (@Polling T)) = [].
Proof. induction n as [|n IH]; [reflexivity|exact IH]. Qed.

(** X7. What [quad] is made of, in any arithmetic and under any schedule:
    in every state of a run of the work-queue program, [quad] is the sum of
    the contributions of the intervals accepted so far, added to [0.0] in
    the order of their acceptance; [total_processed] is their number; and
    each of them passed the acceptance test with the tolerance of the
    initial interval, not a share of it, on the values of [func] at its
    boundaries and midpoint. *)
Theorem quad_is_the_sum_of_the_accepted
    func l r tolerance num_threads (q : Queue T) schedule s0 s :
  Z.of_nat (length (entry q)) = MAXQUEUE ->
  seeded func l r tolerance num_threads q s0 ->
  exec func schedule s0 = Running s ->
  quad s = accumulate func (accepted s) (dlit 0)
  /\ Z.of_nat (length (accepted s)) = total_processed s
  /\ Forall (fun interval =>
               accepts func interval = true /\ tol interval = tolerance
               /\ cached func interval)
       (accepted s).
Proof.
  intros Hlen Hseed Hexec.
  pose proof (seeded_counted _ _ _ _ _ _ _ Hlen Hseed) as Hc0.
  assert (He0 : everywhere (fun interval => tol interval = tolerance /\ cached func interval) s0).
  { eapply seeded_everywhere; [|exact Hseed]. split; [reflexivity|apply whole_cached]. }
  assert (Ha0 : accounted func tolerance s0).
  { destruct Hseed as (q' & _ & ->). unfold accounted, start. fields.
    split; [constructor|]. split; reflexivity. }
  destruct (exec_accounted func tolerance schedule _ _ Hc0 He0 Ha0 Hexec)
    as (Hall & Hn & Hquad).
  auto.
Qed.

(** X8. The intervals that the work-queue program accepts are those that
    the recursion accepts, in any arithmetic and under any schedule: when
    the recursion on the initial interval ends with the accepted intervals
    [ls], the accepted intervals of a run together with the accepted
    intervals of the recursion on what is queued or held are [ls] up to
    their order; so when [simpson] returns it has accepted exactly [ls], in
    some order, and returns the sum of their contributions in that order. *)
Theorem accepted_intervals_are_the_leaves
    fuel func l r tolerance num_threads (q : Queue T) schedule s0 s ls :
  Z.of_nat (length (entry q)) = MAXQUEUE -> (0 < num_threads)%nat ->
  seeded func l r tolerance num_threads q s0 ->
  exec func schedule s0 = Running s ->
  leaves fuel func (whole func l r tolerance) = Some ls ->
  resolving fuel func ls s
  /\ (forallb finished (threads s) = true ->
      accepted s ≡ₚ ls
      /\ integrate func l r tolerance num_threads schedule q
         = Returns (accumulate func (accepted s) (dlit 0))).
Proof.
  intros Hlen Hn Hseed Hexec Hls.
  pose proof (seeded_counted _ _ _ _ _ _ _ Hlen Hseed) as Hc0.
  assert (Hr0 : resolving fuel func ls s0).
  { destruct Hseed as (q' & Henq & ->). exists ls. unfold outstanding, start. fields.
    rewrite (live_enqueue _ (init q) _ (Z.le_refl (-1)) Henq), live_init.
    rewrite hands_replicate_polling. cbn [app leaves_of]. rewrite Hls, app_nil_r.
    split; reflexivity. }
  pose proof (exec_resolving fuel func ls schedule _ _ Hc0 Hr0 Hexec) as Hr.
  split; [exact Hr|].
  intros Hall.
  assert (Hd : drained s).
  { eapply exec_drained; [|exact Hexec].
    destruct Hseed as (q' & _ & ->). apply start_drained, Hn. }
  pose proof (Hd Hall) as Hempty. apply bool_decide_eq_true in Hempty.
  destruct Hr as (rest & Hrest & Hperm). unfold outstanding in Hrest.
  rewrite (hands_finished _ Hall) in Hrest. unfold live in Hrest.
  rewrite Hempty in Hrest. cbn in Hrest. injection Hrest as <-.
  rewrite app_nil_r in Hperm. split; [exact Hperm|].
  assert (Ha0 : accounted func tolerance s0).
  { destruct Hseed as (q' & _ & ->). unfold accounted, start. fields.
    split; [constructor|]. split; reflexivity. }
  assert (He0 : everywhere (fun interval => tol interval = tolerance /\ cached func interval) s0).
  { eapply seeded_everywhere; [|exact Hseed]. split; [reflexivity|apply whole_cached]. }
  destruct (exec_accounted func tolerance schedule _ _ Hc0 He0 Ha0 Hexec)
    as (_ & _ & Hquad).
  destruct Hseed as (q' & Henq & ->).
  unfold integrate. rewrite Henq. unfold simpson. rewrite Hexec, Hall, Hquad. reflexivity.
Qed.

End AcceptedClaims.

Lemma weigh_lookup_le {A : Type} (w : A -> Z) l t a :
  (forall a, 0 <= w a) -> l !! t = Some a -> w a <= weigh w l.
Proof.
  intros Hw. revert t. induction l as [|x l IH]; intros [|t] Hlook; try discriminate;
    rewrite weigh_cons; pose proof (weigh_nonneg w l Hw); pose proof (Hw x).
  - injection Hlook as ->. lia.
  - specialize (IH t Hlook). lia.
Qed.

Section Undivided.

Import Flagged.
Context {T : Type} `{Double T}.
Implicit Types (s : State T) (ths : list (Thread T)) (func : T -> T).

Lemma carried_nonneg (th : Thread T) : 0 <= carried th.
Proof. destruct th as [| | | | |[?|]| | | | | |]; cbn; lia. Qed.

Lemma credited_nonneg (th : Thread T) : 0 <= credited th.
Proof. destruct th; cbn; lia. Qed.

Lemma forallb_gone_lookup ths t th :
  forallb gone ths = true -> ths !! t = Some th -> th = Gone.
Proof.
  intros Hall Ht. rewrite forallb_forall in Hall.
  apply list_elem_of_lookup_2, list_elem_of_In, Hall in Ht.
  destruct th; try discriminate. reflexivity.
Qed.

(** The rest of [undivided] after loop [t] has moved to [th'], when the
    queue and the counters are as they were up to what the move accounts
    for. *)
Lemma step_undivided func seed t s :
  accepts func seed = true ->
  undivided func seed s ->
  exists s', step func t s = Running s' /\ undivided func seed s'.
Proof.
  intros Hacc Hu.
  pose proof Hu as (Hg & Htot & Hpos & Hsum & Hcalm & Hlive & Hquad & Hset & Hdone & Hgone & Hne).
  pose proof Hg as (Hwf & _ & _).
  assert (Hsz : 0 <= size (queue s)) by (destruct Hwf as [_ ?]; unfold size; lia).
  pose proof (weigh_nonneg carried (threads s) carried_nonneg) as Hc0.
  pose proof (weigh_nonneg credited (threads s) credited_nonneg) as Hk0.
  destruct (threads s !! t) as [th|] eqn:Ht.
  2: { exists s. split; [unfold step; rewrite Ht; reflexivity|exact Hu]. }
  pose proof (weigh_lookup_le carried _ _ _ carried_nonneg Ht) as Hcle.
  pose proof (weigh_lookup_le credited _ _ _ credited_nonneg Ht) as Hkle.
  pose proof (Forall_lookup_1 _ _ _ _ Hcalm Ht) as Hth.
  assert (Hlt : (t < length (threads s))%nat) by (eapply lookup_lt_Some, Ht).
  assert (Hins : forall th', <[t := th']> (threads s) <> []).
  { intros th' Hnil. apply (f_equal length) in Hnil. rewrite length_insert in Hnil.
    cbn in Hnil. lia. }
  assert (Hothers : forall th' t' x,
            <[t := th']> (threads s) !! t' = Some x -> x = th' \/ threads s !! t' = Some x).
  { intros th' t' x Hx. apply list_lookup_insert_Some in Hx.
    destruct Hx as [(_ & <- & _)|(_ & Hx)]; auto. }
  (* the step, then the invariant of the lock, then the rest *)
  assert (Hrun : forall s', step func t s = Running s' -> guarded s')
    by (intros s'; apply step_guarded, Hg).
  destruct th as [| | | | |work|interval| |interval|interval| |];
    try contradiction; cbn [carried credited] in Hcle, Hkle.
  - (* AtWhile *)
    assert (Hs' : step func t s = Running (move t (if done s then Gone else Entering) s))
      by (unfold step; rewrite Ht; reflexivity).
    eexists. split; [exact Hs'|].
    split; [exact (Hrun _ Hs')|]. unfold move. flagged_fields.
    rewrite !(weigh_insert _ _ _ _ _ Ht).
    assert (Hz : carried (if done s then Gone else @Entering T) = 0
                 /\ credited (if done s then Gone else @Entering T) = 0)
      by (destruct (done s); auto).
    destruct Hz as [-> ->]. cbn [carried credited].
    replace (weigh credited (threads s) - 0 + 0) with (weigh credited (threads s)) by lia.
    split; [exact Htot|]. split; [exact Hpos|]. split; [lia|].
    split; [apply Forall_insert; [exact Hcalm|destruct (done s); exact I]|].
    split; [exact Hlive|]. split; [exact Hquad|].
    split.
    { intros t' Ht'. apply Hothers in Ht' as [Heq|Ht']; [destruct (done s); discriminate|eauto]. }
    split; [exact Hdone|]. split; [|apply Hins].
    intros t' Ht'. apply Hothers in Ht' as [Heq|Ht']; [|eauto].
    destruct (done s); [reflexivity|discriminate].
  - (* Entering *)
    destruct (queue_access s) eqn:Hlock.
    { exists s. split; [unfold step; rewrite Ht, Hlock; reflexivity|exact Hu]. }
    assert (Hs' : step func t s
                  = Running {| queue := queue s; total := total s;
                               total_processed := total_processed s; quad := quad s;
                               done := done s; queue_access := true;
                               queue_update := queue_update s;
                               threads := <[t := if isempty (queue s) then Compare else Extract]>
                                            (threads s) |})
      by (unfold step; rewrite Ht, Hlock; reflexivity).
    eexists. split; [exact Hs'|].
    split; [exact (Hrun _ Hs')|]. flagged_fields.
    rewrite !(weigh_insert _ _ _ _ _ Ht).
    assert (Hz : carried (if isempty (queue s) then Compare else @Extract T) = 0
                 /\ credited (if isempty (queue s) then Compare else @Extract T) = 0)
      by (destruct (isempty (queue s)); auto).
    destruct Hz as [-> ->]. cbn [carried credited].
    replace (weigh credited (threads s) - 0 + 0) with (weigh credited (threads s)) by lia.
    split; [exact Htot|]. split; [exact Hpos|]. split; [lia|].
    split; [apply Forall_insert; [exact Hcalm|destruct (isempty (queue s)); exact I]|].
    split; [exact Hlive|]. split; [exact Hquad|].
    split.
    { intros t' Ht'. apply Hothers in Ht' as [Heq|Ht'];
        [destruct (isempty (queue s)); discriminate|eauto]. }
    split; [exact Hdone|]. split; [|apply Hins].
    intros t' Ht'. apply Hothers in Ht' as [Heq|Ht']; [|eauto].
    destruct (isempty (queue s)); discriminate.
  - (* Extract *)
    destruct (guarded_dequeues func t s Hg Ht) as (interval & q' & Hdeq & s' & Hs' & _).
    exists s'. split; [exact Hs'|]. split; [exact (Hrun _ Hs')|].
    unfold step in Hs'. rewrite Ht, Hdeq in Hs'. injection Hs' as <-. flagged_fields.
    pose proof (size_dequeue _ _ _ Hdeq) as Hsize.
    pose proof (live_dequeue _ _ _ Hdeq) as Hl. rewrite Hl in Hlive.
    apply Forall_app in Hlive as [Hlive' Hi]. apply List.Forall_inv in Hi.
    rewrite !(weigh_insert _ _ _ _ _ Ht). cbn [carried credited].
    replace (weigh credited (threads s) - 0 + 0) with (weigh credited (threads s)) by lia.
    split; [exact Htot|]. split; [exact Hpos|]. split; [lia|].
    split; [apply Forall_insert; [exact Hcalm|exact Hi]|].
    split; [exact Hlive'|]. split; [exact Hquad|].
    split.
    { intros t' Ht'. apply Hothers in Ht' as [Heq|Ht']; [discriminate|eauto]. }
    split; [exact Hdone|]. split; [|apply Hins].
    intros t' Ht'. apply Hothers in Ht' as [Heq|Ht']; [discriminate|eauto].
  - (* Compare *)
    destruct (decide (total_processed s = total s)) as [Heq|Hneq].
    + eexists. split; [unfold step; rewrite Ht; destruct (decide (total_processed s = total s)); [reflexivity|contradiction]|].
      assert (Hs' : step func t s = Running (move t SetDone s))
        by (unfold step; rewrite Ht; destruct (decide (total_processed s = total s)); [reflexivity|contradiction]).
      split; [exact (Hrun _ Hs')|]. unfold move. flagged_fields.
      rewrite !(weigh_insert _ _ _ _ _ Ht). cbn [carried credited].
      replace (weigh credited (threads s) - 0 + 0) with (weigh credited (threads s)) by lia.
      split; [exact Htot|]. split; [exact Hpos|]. split; [lia|].
      split; [apply Forall_insert; [exact Hcalm|exact I]|].
      split; [exact Hlive|]. split; [exact Hquad|].
      split; [intros; lia|].
      split; [exact Hdone|]. split; [|apply Hins].
      intros t' Ht'. apply Hothers in Ht' as [Heq'|Ht']; [discriminate|eauto].
    + eexists. split; [unfold step; rewrite Ht; destruct (decide (total_processed s = _)); [contradiction|reflexivity]|].
      assert (Hs' : step func t s
                    = Running {| queue := queue s; total := total s;
                                 total_processed := total_processed s; quad := quad s;
                                 done := done s; queue_access := false;
                                 queue_update := queue_update s;
                                 threads := <[t := TestDone None]> (threads s) |})
        by (unfold step; rewrite Ht; destruct (decide (total_processed s = _)); [contradiction|reflexivity]).
      split; [exact (Hrun _ Hs')|]. flagged_fields.
      rewrite !(weigh_insert _ _ _ _ _ Ht). cbn [carried credited].
      replace (weigh credited (threads s) - 0 + 0) with (weigh credited (threads s)) by lia.
      split; [exact Htot|]. split; [exact Hpos|]. split; [lia|].
      split; [apply Forall_insert; [exact Hcalm|exact I]|].
      split; [exact Hlive|]. split; [exact Hquad|].
      split.
      { intros t' Ht'. apply Hothers in Ht' as [Heq|Ht']; [discriminate|eauto]. }
      split; [exact Hdone|]. split; [|apply Hins].
      intros t' Ht'. apply Hothers in Ht' as [Heq|Ht']; [discriminate|eauto].
  - (* SetDone *)
    pose proof (Hset t Ht) as Hone.
    assert (Hs' : step func t s
                  = Running {| queue := queue s; total := total s;
                               total_processed := total_processed s; quad := quad s;
                               done := true; queue_access := false;
                               queue_update := queue_update s;
                               threads := <[t := TestDone None]> (threads s) |})
      by (unfold step; rewrite Ht; reflexivity).
    eexists. split; [exact Hs'|].
    split; [exact (Hrun _ Hs')|]. flagged_fields.
    rewrite !(weigh_insert _ _ _ _ _ Ht). cbn [carried credited].
    replace (weigh credited (threads s) - 0 + 0) with (weigh credited (threads s)) by lia.
    split; [exact Htot|]. split; [exact Hpos|]. split; [lia|].
    split; [apply Forall_insert; [exact Hcalm|exact I]|].
    split; [exact Hlive|]. split; [exact Hquad|].
    split; [intros; exact Hone|].
    split; [intros; exact Hone|]. split; [reflexivity|apply Hins].
  - (* TestDone *)
    destruct (done s) eqn:Hd.
    + (* break *)
      pose proof (Hdone eq_refl) as Hone.
      assert (Hwork : work = None).
      { destruct work as [interval|]; [cbn in Hcle; lia|reflexivity]. }
      subst work.
      assert (Hs' : step func t s = Running (move t Gone s))
        by (unfold step; rewrite Ht, Hd; reflexivity).
      eexists. split; [exact Hs'|].
      split; [exact (Hrun _ Hs')|]. unfold move. flagged_fields.
      rewrite !(weigh_insert _ _ _ _ _ Ht). cbn [carried credited].
      replace (weigh credited (threads s) - 0 + 0) with (weigh credited (threads s)) by lia.
      split; [exact Htot|]. split; [exact Hpos|]. split; [lia|].
      split; [apply Forall_insert; [exact Hcalm|exact I]|].
      split; [exact Hlive|]. split; [exact Hquad|].
      split; [intros; exact Hone|].
      split; [intros; exact Hone|]. split; [intros; exact Hd|apply Hins].
    + destruct work as [interval|].
      * cbn in Hth. subst interval.
        assert (Hs' : step func t s = Running (move t (AddQuad seed) s))
          by (unfold step; rewrite Ht, Hd, Hacc; reflexivity).
        eexists. split; [exact Hs'|].
        split; [exact (Hrun _ Hs')|]. unfold move. flagged_fields.
        rewrite !(weigh_insert _ _ _ _ _ Ht). cbn [carried credited].
        replace (weigh credited (threads s) - 0 + 0) with (weigh credited (threads s)) by lia.
        split; [exact Htot|]. split; [exact Hpos|]. split; [lia|].
        split; [apply Forall_insert; [exact Hcalm|reflexivity]|].
        split; [exact Hlive|]. split; [exact Hquad|].
        split.
        { intros t' Ht'. apply Hothers in Ht' as [Heq|Ht']; [discriminate|eauto]. }
        split; [intros Hd'; congruence|]. split; [|apply Hins].
        intros t' Ht'. apply Hothers in Ht' as [Heq|Ht']; [discriminate|].
        rewrite Hd. eauto.
      * eexists. split; [unfold step; rewrite Ht, Hd; reflexivity|].
        assert (Hs' : step func t s = Running (move t AtWhile s))
          by (unfold step; rewrite Ht, Hd; reflexivity).
        split; [exact (Hrun _ Hs')|]. unfold move. flagged_fields.
        rewrite !(weigh_insert _ _ _ _ _ Ht). cbn [carried credited].
        replace (weigh credited (threads s) - 0 + 0) with (weigh credited (threads s)) by lia.
        split; [exact Htot|]. split; [exact Hpos|]. split; [lia|].
        split; [apply Forall_insert; [exact Hcalm|exact I]|].
        split; [exact Hlive|]. split; [exact Hquad|].
        split.
        { intros t' Ht'. apply Hothers in Ht' as [Heq|Ht']; [discriminate|eauto]. }
        split; [intros Hd'; congruence|]. split; [|apply Hins].
        intros t' Ht'. apply Hothers in Ht' as [Heq|Ht']; [discriminate|].
        rewrite Hd. eauto.
  - (* AddQuad *)
    cbn in Hth. subst interval.
    assert (Hs' : step func t s
                  = Running {| queue := queue s; total := total s;
                               total_processed := total_processed s;
                               quad := (quad s + contribution func seed)%D;
                               done := done s; queue_access := queue_access s;
                               queue_update := queue_update s;
                               threads := <[t := CountProcessed]> (threads s) |})
      by (unfold step; rewrite Ht; reflexivity).
    eexists. split; [exact Hs'|].
    split; [exact (Hrun _ Hs')|]. flagged_fields.
    rewrite !(weigh_insert _ _ _ _ _ Ht). cbn [carried credited].
    split; [exact Htot|]. split; [exact Hpos|]. split; [lia|].
    split; [apply Forall_insert; [exact Hcalm|exact I]|].
    split; [exact Hlive|].
    split.
    { rewrite Hquad. destruct (decide _) as [_|Hn]; [|lia].
      destruct (decide _) as [Hz|_]; [lia|reflexivity]. }
    split.
    { intros t' Ht'. apply Hothers in Ht' as [Heq|Ht']; [discriminate|].
      pose proof (Hset t' Ht'). lia. }
    split; [intros Hd; pose proof (Hdone Hd); lia|]. split; [|apply Hins].
    intros t' Ht'. apply Hothers in Ht' as [Heq|Ht']; [discriminate|eauto].
  - (* CountProcessed *)
    assert (Hzero : total_processed s = 0) by lia.
    assert (Hmax : total_processed s <> INT_MAX) by (rewrite Hzero; discriminate).
    assert (Hs' : step func t s
                  = Running {| queue := queue s; total := total s;
                               total_processed := total_processed s + 1; quad := quad s;
                               done := done s; queue_access := queue_access s;
                               queue_update := queue_update s;
                               threads := <[t := AtWhile]> (threads s) |})
      by (unfold step; rewrite Ht; destruct (decide (total_processed s = _)); [contradiction|reflexivity]).
    eexists. split; [exact Hs'|].
    split; [exact (Hrun _ Hs')|]. flagged_fields.
    rewrite !(weigh_insert _ _ _ _ _ Ht). cbn [carried credited].
    split; [exact Htot|]. split; [lia|]. split; [lia|].
    split; [apply Forall_insert; [exact Hcalm|exact I]|].
    split; [exact Hlive|].
    split.
    { rewrite Hquad. destruct (decide _) as [Hz|_]; [lia|].
      destruct (decide _) as [Hz|_]; [lia|reflexivity]. }
    split; [intros; lia|].
    split; [intros; lia|]. split; [|apply Hins].
    intros t' Ht'. apply Hothers in Ht' as [Heq|Ht']; [discriminate|eauto].
  - (* Gone *)
    exists s. split; [unfold step; rewrite Ht; reflexivity|exact Hu].
Qed.

Lemma exec_undivided func seed schedule s :
  accepts func seed = true ->
  undivided func seed s ->
  exists s', exec func schedule s = Running s' /\ undivided func seed s'.
Proof.
  intros Hacc. revert s. induction schedule as [|t schedule IH]; intros s Hu; cbn.
  - eauto.
  - destruct (step_undivided func seed t s Hacc Hu) as (s1 & -> & Hu1). eauto.
Qed.

Lemma start_undivided func seed num_threads (q q' : Queue T) :
  Z.of_nat (length (entry q)) = MAXQUEUE -> (0 < num_threads)%nat ->
  enqueue seed (init q) = Ok q' ->
  undivided func seed (start num_threads q' 1 0).
Proof.
  intros Hlen Hn Henq.
  pose proof (enqueue_wf _ _ _ (init_wf q Hlen) Henq) as Hwf.
  unfold undivided, start. flagged_fields.
  split; [apply (start_guarded num_threads q' 1 0 Hwf)|].
  rewrite !weigh_replicate by reflexivity.
  rewrite (size_enqueue _ _ _ Henq), (live_enqueue _ (init q) _ (Z.le_refl (-1)) Henq).
  split; [reflexivity|]. split; [lia|]. split; [reflexivity|].
  split; [apply Forall_replicate; exact I|].
  split; [repeat constructor|]. split; [reflexivity|].
  split; [intros t Ht; apply lookup_replicate in Ht as [[=] _]|].
  split; [discriminate|].
  split; [intros t Ht; apply lookup_replicate in Ht as [[=] _]|].
  destruct num_threads; [lia|discriminate].
Qed.

End Undivided.

(** One step of loop 0 on a state that is written out. *)
Ltac flagged_step :=
  unfold Flagged.step at 1;
  cbn [Flagged.threads Flagged.done Flagged.move Flagged.queue Flagged.total
       Flagged.total_processed Flagged.quad Flagged.queue_access
       Flagged.queue_update lookup list_lookup insert list_insert].

Section FlaggedAccepted.

Import Flagged.
Context {T : Type} `{Double T}.
Implicit Types (s : State T) (ths : list (Thread T)) (func : T -> T).

(** Once the flag is up, the loops at the head of their loop leave one
    after the other. *)
Lemma leave_all func m : forall k s,
  threads s = replicate k Gone ++ replicate m AtWhile -> done s = true ->
  exists s',
    exec func (seq k m) s = Running s'
    /\ threads s' = replicate (k + m) Gone /\ quad s' = quad s.
Proof.
  induction m as [|m IH]; intros k s Hth Hd.
  - exists s. cbn. rewrite Hth, Nat.add_0_r, app_nil_r. auto.
  - assert (Ht : threads s !! k = Some AtWhile).
    { rewrite Hth, lookup_app_r by (rewrite length_replicate; lia).
      rewrite length_replicate, Nat.sub_diag. reflexivity. }
    assert (Hstep : step func k s = Running (move k Gone s))
      by (unfold step; rewrite Ht, Hd; reflexivity).
    destruct (IH (S k) (move k Gone s)) as (s' & Hrun & Hth' & Hq).
    + unfold move. flagged_fields. rewrite Hth.
      replace k with (length (replicate k (@Gone T)) + 0)%nat at 1
        by (rewrite length_replicate; lia).
      rewrite insert_app_r.
      change (replicate (S m) (@AtWhile T)) with (AtWhile :: replicate m (@AtWhile T)).
      change (<[0%nat := Gone]> (AtWhile :: replicate m (@AtWhile T)))
        with (Gone :: replicate m (@AtWhile T)).
      rewrite (replicate_S_end k), <- app_assoc. reflexivity.
    + exact Hd.
    + exists s'. cbn [seq exec]. rewrite Hstep.
      split; [exact Hrun|]. split; [rewrite Hth'; f_equal; lia|exact Hq].
Qed.

Lemma flagged_exec_app func schedule1 schedule2 s :
  exec func (schedule1 ++ schedule2) s
  = match exec func schedule1 s with
    | Running s' => exec func schedule2 s'
    | o => o
    end.
Proof.
  revert s. induction schedule1 as [|t schedule1 IH]; intros s; [reflexivity|].
  cbn. destruct (step func t s); auto.
Qed.

Lemma forallb_gone_replicate n : forallb gone (replicate n (@Gone T)) = true.
Proof. induction n as [|n IH]; [reflexivity|exact IH]. Qed.

(** On an interval that is accepted at once the flagged program neither
    exits nor misbehaves, and what it returns is the contribution of that
    interval. *)
Lemma flagged_accepted_safe func l r tolerance num_threads schedule (q : Queue T) :
  Z.of_nat (length (entry q)) = MAXQUEUE -> (0 < num_threads)%nat ->
  accepts func (WorkQueue.whole func l r tolerance) = true ->
  match integrate func l r tolerance num_threads schedule q with
  | Returns quad =>
      quad = (dlit 0 + contribution func (WorkQueue.whole func l r tolerance))%D
  | Unfinished _ => True
  | Exits _ | UndefinedBehaviour => False
  end.
Proof.
  intros Hlen Hn Hacc.
  set (seed := WorkQueue.whole func l r tolerance) in *.
  assert (Henq : exists q', enqueue seed (init q) = Ok q').
  { eexists. apply enqueue_ok; [apply init_wf, Hlen|]. unfold size, init, MAXQUEUE. cbn. lia. }
  destruct Henq as [q' Henq].
  unfold integrate. fold seed. rewrite Henq. unfold simpson.
  destruct (exec_undivided func seed schedule _ Hacc
              (start_undivided func seed num_threads q q' Hlen Hn Henq))
    as (s & -> & Hu).
  destruct (forallb gone (threads s)) eqn:Hall; [|exact I].
  destruct Hu as (_ & _ & _ & Hsum & _ & _ & Hquad & _ & Hdone & Hgone & Hne).
  destruct (threads s) as [|th ths] eqn:Hths; [contradiction|].
  assert (Hth : th = Gone).
  { apply (forallb_gone_lookup (th :: ths) 0); [exact Hall|reflexivity]. }
  pose proof (Hdone (Hgone 0%nat ltac:(rewrite Hth; reflexivity))) as Hone.
  pose proof (weigh_nonneg credited (th :: ths) credited_nonneg).
  rewrite Hquad. destruct (decide _); [lia|reflexivity].
Qed.

(** Loop 0 works alone through the initial interval and raises the flag
    in eleven steps; the other loops then leave one after the other. *)
Lemma flagged_accepted_run func l r tolerance n (q : Queue T) :
  Z.of_nat (length (entry q)) = MAXQUEUE ->
  accepts func (WorkQueue.whole func l r tolerance) = true ->
  integrate func l r tolerance (S n) (replicate 11 0%nat ++ seq 1 n) q
  = Returns (dlit 0 + contribution func (WorkQueue.whole func l r tolerance))%D.
Proof.
  intros Hlen Hacc.
  set (seed := WorkQueue.whole func l r tolerance) in *.
  assert (Henq : exists q', enqueue seed (init q) = Ok q').
  { eexists. apply enqueue_ok; [apply init_wf, Hlen|]. unfold size, init, MAXQUEUE. cbn. lia. }
  destruct Henq as [q' Henq].
  unfold integrate. fold seed. rewrite Henq. unfold simpson. rewrite flagged_exec_app.
  apply enqueue_inv in Henq as (-> & _ & Hin).
  destruct (entry q) as [|x slots] eqn:Hentry; [discriminate|].
  unfold start.
  change (replicate (S n) (@AtWhile T)) with (AtWhile :: replicate n (@AtWhile T)).
  assert (Hrun : exec func (replicate 11 0%nat)
                   {| queue := {| entry := <[Z.to_nat (top (init q) + 1) := seed]>
                                             (entry (init q));
                                  top := top (init q) + 1 |};
                      total := 1; total_processed := 0; quad := dlit 0;
                      done := false; queue_access := false; queue_update := false;
                      threads := AtWhile :: replicate n AtWhile |}
                 = Running
                     {| queue := {| entry := seed :: slots; top := -1 |};
                        total := 1; total_processed := 1;
                        quad := (dlit 0 + contribution func seed)%D;
                        done := true; queue_access := false; queue_update := false;
                        threads := Gone :: replicate n AtWhile |}).
  { unfold init. cbn [entry top]. rewrite Hentry.
    cbn [replicate exec].
    flagged_step. flagged_step.
    change (isempty _) with false. cbv iota.
    flagged_step.
    change (dequeue _) with (Ok (seed, {| entry := seed :: slots; top := -1 |})).
    cbv iota beta.
    flagged_step. rewrite Hacc.
    flagged_step. flagged_step.
    destruct (decide (0 = INT_MAX)) as [Hmax|_]; [discriminate|].
    flagged_step. flagged_step.
    change (isempty _) with true. cbv iota.
    flagged_step.
    destruct (decide (0 + 1 = 1)) as [_|Hone]; [|contradiction].
    flagged_step. flagged_step. reflexivity. }
  rewrite Hrun.
  set (s11 := {| queue := {| entry := seed :: slots; top := -1 |}; total := 1 |}).
  destruct (leave_all func n 1 s11 eq_refl eq_refl) as (s' & Hrest & Hth & Hquad).
  rewrite Hrest, Hth, forallb_gone_replicate, Hquad. reflexivity.
Qed.

(** X9. When the initial interval passes the acceptance test, the flagged
    program returns its contribution: under every schedule and with any
    number of loops the process neither exits nor misbehaves, and if
    [simpson] returns, it returns [0.0 + (q2 + (q2 - q1) / 15.0)] of the
    initial interval; and it does return when loop 0 runs eleven steps and
    every other loop one step after that. *)
Theorem flagged_returns_an_accepted_interval
    func l r tolerance num_threads (q : Queue T) :
  Z.of_nat (length (entry q)) = MAXQUEUE -> (0 < num_threads)%nat ->
  accepts func (WorkQueue.whole func l r tolerance) = true ->
  (forall schedule,
     match integrate func l r tolerance num_threads schedule q with
     | Returns quad =>
         quad = (dlit 0 + contribution func (WorkQueue.whole func l r tolerance))%D
     | Unfinished _ => True
     | Exits _ | UndefinedBehaviour => False
     end)
  /\ integrate func l r tolerance num_threads
       (replicate 11 0%nat ++ seq 1 (num_threads - 1)) q
     = Returns (dlit 0 + contribution func (WorkQueue.whole func l r tolerance))%D.
Proof.
  intros Hlen Hn Hacc. split.
  - intros schedule. apply flagged_accepted_safe; assumption.
  - destruct num_threads as [|n]; [lia|].
    replace (S n - 1)%nat with n by lia.
    apply flagged_accepted_run; assumption.
Qed.

End FlaggedAccepted.

Lemma weigh_sum {A : Type} (w1 w2 : A -> Z) l :
  weigh (fun a => w1 a + w2 a) l = weigh w1 l + weigh w2 l.
Proof.
  induction l as [|a l IH]; [reflexivity|]. rewrite !weigh_cons, IH. lia.
Qed.

Section FlaggedCounters.

Import Flagged.
Context {T : Type} `{Double T}.
Implicit Types (s : State T) (ths : list (Thread T)) (func : T -> T).

Lemma in_update_nonneg (th : Thread T) : 0 <= in_update th.
Proof. destruct th; cbn; lia. Qed.

(** At most one interval is missing from the count. *)
Lemma pending_bound ths : - weigh in_update ths <= weigh pending ths.
Proof.
  assert (Hsum : 0 <= weigh (fun th => pending th + in_update th) ths).
  { apply weigh_nonneg. intros th. destruct th as [| | | | |[?|]| | | | | |]; cbn; lia. }
  rewrite weigh_sum in Hsum. lia.
Qed.

Lemma step_flagged_counted func t s s' :
  flagged_counted s -> step func t s = Running s' -> flagged_counted s'.
Proof.
  intros (Hwf & Hpos & Hone & Hodd & Hlock & Hgone & Hcount) Hstep.
  unfold step in Hstep.
  destruct (threads s !! t) as [th|] eqn:Ht.
  2: { injection Hstep as <-. unfold flagged_counted. auto 10. }
  pose proof (weigh_lookup_le in_update _ _ _ in_update_nonneg Ht) as Hule.
  assert (Hothers : forall th' t' x,
            <[t := th']> (threads s) !! t' = Some x -> x = th' \/ threads s !! t' = Some x).
  { intros th' t' x Hx. apply list_lookup_insert_Some in Hx.
    destruct Hx as [(_ & <- & _)|(_ & Hx)]; auto. }
  unfold flagged_counted.
  destruct th as [| | | | |work|interval| |interval|interval| |]; cbn [in_update] in Hule.
  - (* AtWhile *)
    injection Hstep as <-. unfold move. flagged_fields.
    rewrite !(weigh_insert _ _ _ _ _ Ht).
    split; [exact Hwf|]. split; [exact Hpos|]. split; [exact Hone|]. split; [exact Hodd|].
    split; [destruct (done s); cbn; lia|].
    split.
    { intros t' Ht'. apply Hothers in Ht' as [Heq|Ht']; [|eauto].
      destruct (done s); [reflexivity|discriminate]. }
    intros Hd. rewrite Hd. specialize (Hcount Hd). cbn. lia.
  - (* Entering *)
    destruct (queue_access s); injection Hstep as <-; [auto 10|]. flagged_fields.
    rewrite !(weigh_insert _ _ _ _ _ Ht).
    split; [exact Hwf|]. split; [exact Hpos|]. split; [exact Hone|]. split; [exact Hodd|].
    split; [destruct (isempty (queue s)); cbn; lia|].
    split.
    { intros t' Ht'. apply Hothers in Ht' as [Heq|Ht']; [|eauto].
      destruct (isempty (queue s)); discriminate. }
    intros Hd. specialize (Hcount Hd). destruct (isempty (queue s)); cbn; lia.
  - (* Extract *)
    destruct (dequeue (queue s)) as [[interval q']| |] eqn:Hdeq; try discriminate.
    injection Hstep as <-. flagged_fields.
    rewrite !(weigh_insert _ _ _ _ _ Ht), (size_dequeue _ _ _ Hdeq).
    split; [eauto using dequeue_wf|].
    split; [exact Hpos|]. split; [exact Hone|]. split; [exact Hodd|].
    split; [cbn; lia|].
    split.
    { intros t' Ht'. apply Hothers in Ht' as [Heq|Ht']; [discriminate|eauto]. }
    intros Hd. specialize (Hcount Hd). cbn. lia.
  - (* Compare *)
    destruct (decide _); injection Hstep as <-; unfold move; flagged_fields;
      rewrite !(weigh_insert _ _ _ _ _ Ht);
      (split; [exact Hwf|]); (split; [exact Hpos|]); (split; [exact Hone|]);
      (split; [exact Hodd|]); (split; [cbn; lia|]);
      (split; [intros t' Ht'; apply Hothers in Ht' as [Heq|Ht']; [discriminate|eauto]|]);
      intros Hd; specialize (Hcount Hd); cbn; lia.
  - (* SetDone *)
    injection Hstep as <-. flagged_fields.
    rewrite !(weigh_insert _ _ _ _ _ Ht).
    split; [exact Hwf|]. split; [exact Hpos|]. split; [exact Hone|]. split; [exact Hodd|].
    split; [cbn; lia|]. split; [reflexivity|discriminate].
  - (* TestDone *)
    destruct (done s) eqn:Hd.
    + injection Hstep as <-. unfold move. flagged_fields.
      rewrite !(weigh_insert _ _ _ _ _ Ht), Hd.
      split; [exact Hwf|]. split; [exact Hpos|]. split; [exact Hone|]. split; [exact Hodd|].
      split; [cbn; lia|]. split; [reflexivity|discriminate].
    + specialize (Hcount eq_refl).
      destruct work as [interval|]; injection Hstep as <-; unfold move; flagged_fields;
        rewrite !(weigh_insert _ _ _ _ _ Ht), Hd;
        (split; [exact Hwf|]); (split; [exact Hpos|]); (split; [exact Hone|]);
        (split; [exact Hodd|]).
      * split; [destruct (accepts func interval); cbn; lia|].
        split.
        { intros t' Ht'. apply Hothers in Ht' as [Heq|Ht']; [|eauto].
          destruct (accepts func interval); discriminate. }
        intros _. destruct (accepts func interval); cbn; lia.
      * split; [cbn; lia|].
        split; [intros t' Ht'; apply Hothers in Ht' as [Heq|Ht']; [discriminate|eauto]|].
        intros _. cbn. lia.
  - (* AddQuad *)
    injection Hstep as <-. flagged_fields.
    rewrite !(weigh_insert _ _ _ _ _ Ht).
    split; [exact Hwf|]. split; [exact Hpos|]. split; [exact Hone|]. split; [exact Hodd|].
    split; [cbn; lia|].
    split; [intros t' Ht'; apply Hothers in Ht' as [Heq|Ht']; [discriminate|eauto]|].
    intros Hd. specialize (Hcount Hd). cbn. lia.
  - (* CountProcessed *)
    destruct (decide _); [discriminate|]. injection Hstep as <-. flagged_fields.
    rewrite !(weigh_insert _ _ _ _ _ Ht).
    split; [exact Hwf|]. split; [lia|]. split; [exact Hone|]. split; [exact Hodd|].
    split; [cbn; lia|].
    split; [intros t' Ht'; apply Hothers in Ht' as [Heq|Ht']; [discriminate|eauto]|].
    intros Hd. specialize (Hcount Hd). cbn. lia.
  - (* EnterUpdate *)
    destruct (queue_update s) eqn:Hupd; [injection Hstep as <-; rewrite Hupd; auto 10|].
    destruct (enqueue _ (queue s)) as [q'| |] eqn:Henq; try discriminate.
    injection Hstep as <-. flagged_fields.
    rewrite !(weigh_insert _ _ _ _ _ Ht), (size_enqueue _ _ _ Henq).
    split; [eauto using enqueue_wf|].
    split; [exact Hpos|]. split; [exact Hone|]. split; [exact Hodd|].
    split; [cbn; lia|].
    split; [intros t' Ht'; apply Hothers in Ht' as [Heq|Ht']; [discriminate|eauto]|].
    intros Hd. specialize (Hcount Hd). cbn. lia.
  - (* PushSecond *)
    destruct (enqueue _ (queue s)) as [q'| |] eqn:Henq; try discriminate.
    injection Hstep as <-. flagged_fields.
    rewrite !(weigh_insert _ _ _ _ _ Ht), (size_enqueue _ _ _ Henq).
    split; [eauto using enqueue_wf|].
    split; [exact Hpos|]. split; [exact Hone|]. split; [exact Hodd|].
    split; [cbn; lia|].
    split; [intros t' Ht'; apply Hothers in Ht' as [Heq|Ht']; [discriminate|eauto]|].
    intros Hd. specialize (Hcount Hd). cbn. lia.
  - (* AddTotal *)
    destruct (decide _); [discriminate|]. injection Hstep as <-. flagged_fields.
    rewrite !(weigh_insert _ _ _ _ _ Ht).
    split; [exact Hwf|]. split; [exact Hpos|]. split; [lia|].
    split; [rewrite Z.odd_add; rewrite Hodd; reflexivity|].
    split; [destruct (queue_update s); cbn; lia|].
    split; [intros t' Ht'; apply Hothers in Ht' as [Heq|Ht']; [discriminate|eauto]|].
    intros Hd. specialize (Hcount Hd). cbn. lia.
  - (* Gone *)
    injection Hstep as <-. auto 10.
Qed.

Lemma exec_flagged_counted func schedule s s' :
  flagged_counted s -> exec func schedule s = Running s' -> flagged_counted s'.
Proof.
  revert s. induction schedule as [|t schedule IH]; intros s Hc; cbn.
  - intros [= <-]. assumption.
  - destruct (step func t s) as [s1| |] eqn:Hstep; try discriminate.
    eauto using step_flagged_counted.
Qed.

Lemma start_flagged_counted num_threads (q : Queue T) :
  queue_wf q -> size q = 1 -> flagged_counted (start num_threads q 1 0).
Proof.
  intros Hwf Hsize. unfold flagged_counted, start. flagged_fields.
  rewrite !weigh_replicate by reflexivity. rewrite Hsize.
  split; [exact Hwf|]. split; [lia|]. split; [lia|]. split; [reflexivity|].
  split; [reflexivity|].
  split; [intros t Ht; apply lookup_replicate in Ht as [[=] _]|reflexivity].
Qed.

(** While the flag is down, [total_processed] exceeds half of [total] by
    one at most, so the two are equal only when [total] is 1 or 3. *)
Lemma flagged_counted_bound s :
  flagged_counted s -> done s = false ->
  2 * total_processed s <= total s + 3
  /\ (total_processed s = total s -> total s <= 3).
Proof.
  intros (Hwf & Hpos & Hone & Hodd & Hlock & Hgone & Hcount) Hd.
  specialize (Hcount Hd). pose proof (pending_bound (threads s)) as Hp.
  assert (Hu : weigh in_update (threads s) <= 1) by (destruct (queue_update s); lia).
  destruct Hwf as [_ Htop]. unfold size in Hcount. lia.
Qed.



End FlaggedCounters.

Section FlaggedCounterClaims.

Import Flagged.
Context {T : Type} `{Double T}.
Implicit Types (s : State T) (ths : list (Thread T)) (func : T -> T).



(** X10. The counters of the flagged program. In every state that a
    schedule reaches from the start of [simpson], [total] is odd and at
    least 1, [total_processed] is not negative, and a loop is out of its
    loop only if the flag is up. While the flag is down every interval is
    accounted for: twice the number of accepted, queued and held intervals
    is [total + 1], where a loop between the second [enqueue] of a split and
    [total += 2] counts for minus one; hence [total_processed] exceeds half
    of [total] by one at most, and the two are equal only when [total] is 1
    or 3. *)
Theorem flagged_counters func l r tolerance num_threads (q q' : Queue T) schedule s :
  Z.of_nat (length (entry q)) = MAXQUEUE ->
  enqueue (WorkQueue.whole func l r tolerance) (init q) = Ok q' ->
  exec func schedule (start num_threads q' 1 0) = Running s ->
  Z.odd (total s) = true /\ 1 <= total s /\ 0 <= total_processed s
  /\ (forall t, threads s !! t = Some Gone -> done s = true)
  /\ (done s = false ->
      2 * (total_processed s + size (queue s) + weigh pending (threads s)) = total s + 1
      /\ 2 * total_processed s <= total s + 3
      /\ (total_processed s = total s -> total s <= 3)).
Proof.
  intros Hlen Henq Hexec.
  assert (Hc : flagged_counted s).
  { eapply exec_flagged_counted; [|exact Hexec]. apply start_flagged_counted.
    - eapply enqueue_wf; [|exact Henq]. apply init_wf, Hlen.
    - rewrite (size_enqueue _ _ _ Henq). reflexivity. }
  pose proof Hc as (_ & Hpos & Hone & Hodd & _ & Hgone & Hcount).
  split; [exact Hodd|]. split; [exact Hone|]. split; [exact Hpos|].
  split; [exact Hgone|].
  intros Hd. split; [exact (Hcount Hd)|]. apply flagged_counted_bound; assumption.
Qed.


End FlaggedCounterClaims.

(** ** Polynomial integrands *)

(** The accepted value is the five-point rule with the weights
    7, 32, 12, 32, 7 over 90. *)
Lemma contribution_is_boole (func : Q -> Q) (interval : Interval Q) :
  (contribution func interval
   == (right interval - left interval) / 90
      * (7 * f_left interval + 32 * fd func interval + 12 * f_mid interval
         + 32 * fe func interval + 7 * f_right interval))%Q.
Proof.
  unfold contribution, q1, q2, h. cbn [dadd dsub dmul ddiv dlit exact].
  generalize (fd func interval) (fe func interval). intros x y.
  change (inject_Z 2) with (2 # 1)%Q. change (inject_Z 4) with (4 # 1)%Q.
  change (inject_Z 6) with (6 # 1)%Q. change (inject_Z 12) with (12 # 1)%Q.
  change (inject_Z 15) with (15 # 1)%Q.
  field.
Qed.

Section Polynomials.

Local Open Scope Q_scope.
Variables a0 a1 a2 a3 a4 a5 : Q.

(** The accepted value is Boole's rule: it is the integral of a quintic. *)
Lemma contribution_quintic (interval : Interval Q) :
  cached (quintic a0 a1 a2 a3 a4 a5) interval ->
  contribution (quintic a0 a1 a2 a3 a4 a5) interval
  == primitive a0 a1 a2 a3 a4 a5 (right interval)
     - primitive a0 a1 a2 a3 a4 a5 (left interval).
Proof.
  destruct interval as [l r t fl fm fr]. unfold cached. cbn [left right f_left f_mid f_right].
  intros (-> & -> & ->).
  unfold contribution, q1, q2, h, fd, fe, d, e, c. cbn [left right f_left f_mid f_right tol].
  unfold quintic, primitive. cbn [dadd dsub dmul ddiv dlit exact].
  change (inject_Z 2) with (2 # 1). change (inject_Z 4) with (4 # 1).
  change (inject_Z 6) with (6 # 1). change (inject_Z 12) with (12 # 1).
  change (inject_Z 15) with (15 # 1).
  field.
Qed.

Lemma simpson_rec_quintic fuel : forall (interval : Interval Q) v,
  cached (quintic a0 a1 a2 a3 a4 a5) interval ->
  simpson_rec fuel (quintic a0 a1 a2 a3 a4 a5) interval = Some v ->
  v == primitive a0 a1 a2 a3 a4 a5 (right interval)
       - primitive a0 a1 a2 a3 a4 a5 (left interval).
Proof.
  set (p := quintic a0 a1 a2 a3 a4 a5).
  induction fuel as [|n IH]; intros interval v Hc; [discriminate|].
  cbn [simpson_rec]. destruct (accepts p interval).
  - intros [= <-]. apply contribution_quintic, Hc.
  - destruct (halves_cached p interval Hc) as [Hc1 Hc2].
    destruct (simpson_rec n p (i1 p interval)) as [v1|] eqn:E1; [|discriminate].
    destruct (simpson_rec n p (i2 p interval)) as [v2|] eqn:E2; [|discriminate].
    intros [= <-].
    pose proof (IH _ _ Hc1 E1) as H1. pose proof (IH _ _ Hc2 E2) as H2.
    cbn [i1 i2 left right] in H1, H2.
    change (@dadd Q exact) with Qplus. rewrite H1, H2. ring.
Qed.

(** X12. In arithmetic without rounding the integrators are exact on
    polynomials of degree five at most. The value accepted for an interval,
    [q2 + (q2 - q1) / 15], is the five-point rule with weights 7, 32, 12,
    32, 7 over 90; on a polynomial of degree five at most it is the integral
    over the interval; the recursive integrator returns the integral over
    the initial interval, whatever the tolerance; and so does [simpson] of
    the work-queue program whenever it returns. *)
Theorem exact_on_quintics l r tolerance :
  (forall (func : Q -> Q) interval,
     contribution func interval
     == (right interval - left interval) / 90
        * (7 * f_left interval + 32 * fd func interval + 12 * f_mid interval
           + 32 * fe func interval + 7 * f_right interval))
  /\ (forall interval,
        cached (quintic a0 a1 a2 a3 a4 a5) interval ->
        contribution (quintic a0 a1 a2 a3 a4 a5) interval
        == primitive a0 a1 a2 a3 a4 a5 (right interval)
           - primitive a0 a1 a2 a3 a4 a5 (left interval))
  /\ (exists v,
        simpson_rec
          (S (levels (WorkQueue.whole (quintic a0 a1 a2 a3 a4 a5) l r tolerance)))
          (quintic a0 a1 a2 a3 a4 a5)
          (WorkQueue.whole (quintic a0 a1 a2 a3 a4 a5) l r tolerance)
        = Some v
        /\ v == primitive a0 a1 a2 a3 a4 a5 r - primitive a0 a1 a2 a3 a4 a5 l)
  /\ (forall num_threads schedule (q : Queue Q) quad,
        Z.of_nat (length (entry q)) = MAXQUEUE -> (0 < num_threads)%nat ->
        WorkQueue.integrate (quintic a0 a1 a2 a3 a4 a5) l r tolerance
          num_threads schedule q
        = WorkQueue.Returns quad ->
        quad == primitive a0 a1 a2 a3 a4 a5 r - primitive a0 a1 a2 a3 a4 a5 l).
Proof.
  set (p := quintic a0 a1 a2 a3 a4 a5).
  split; [exact contribution_is_boole|].
  split; [exact contribution_quintic|].
  pose proof (value_some p (WorkQueue.whole p l r tolerance)) as Hv.
  pose proof (simpson_rec_quintic _ _ _ (whole_cached p l r tolerance) Hv) as Hint.
  cbn [WorkQueue.whole left right] in Hint.
  split; [eauto|].
  intros num_threads schedule q quad Hlen Hn Hret.
  destruct (returned_quad_is_value _ _ _ _ _ _ _ _ Hlen Hn Hret) as (v & Hv' & Hq).
  rewrite Hq. rewrite Hv in Hv'. injection Hv' as <-. exact Hint.
Qed.

End Polynomials.

Section Cubics.

Local Open Scope Q_scope.
Variables a0 a1 a2 a3 : Q.

(** The two estimates agree on a cubic. *)
Lemma estimates_agree_on_cubics (interval : Interval Q) :
  cached (quintic a0 a1 a2 a3 0 0) interval ->
  q2 (quintic a0 a1 a2 a3 0 0) interval - q1 interval == 0.
Proof.
  destruct interval as [l r t fl fm fr]. unfold cached. cbn [left right f_left f_mid f_right].
  intros (-> & -> & ->).
  unfold q1, q2, h, fd, fe, d, e, c. cbn [left right f_left f_mid f_right tol].
  unfold quintic. cbn [dadd dsub dmul ddiv dlit exact].
  change (inject_Z 2) with (2 # 1). change (inject_Z 4) with (4 # 1).
  change (inject_Z 6) with (6 # 1). change (inject_Z 12) with (12 # 1).
  field.
Qed.

Lemma cubic_accepted (interval : Interval Q) :
  cached (quintic a0 a1 a2 a3 0 0) interval -> 0 < tol interval ->
  accepts (quintic a0 a1 a2 a3 0 0) interval = true.
Proof.
  intros Hc Htol. unfold accepts. apply orb_true_iff. left.
  cbn [dlt fabs dsub exact]. apply Qltb_lt.
  rewrite (estimates_agree_on_cubics interval Hc). exact Htol.
Qed.

(** X13. In arithmetic without rounding a polynomial of degree three at
    most is integrated without a split: the two Simpson estimates agree, so
    with a positive tolerance the initial interval is accepted at once and
    its contribution is the integral. The recursive integrator returns it
    at the first level; the work-queue program then never returns (the
    process exits on convergence inside [simpson]); the flagged program
    returns it. *)
Theorem cubics_are_accepted_at_once l r tolerance :
  0 < tolerance ->
  accepts (quintic a0 a1 a2 a3 0 0)
    (WorkQueue.whole (quintic a0 a1 a2 a3 0 0) l r tolerance) = true
  /\ contribution (quintic a0 a1 a2 a3 0 0)
       (WorkQueue.whole (quintic a0 a1 a2 a3 0 0) l r tolerance)
     == primitive a0 a1 a2 a3 0 0 r - primitive a0 a1 a2 a3 0 0 l
  /\ simpson_rec 1 (quintic a0 a1 a2 a3 0 0)
       (WorkQueue.whole (quintic a0 a1 a2 a3 0 0) l r tolerance)
     = Some (contribution (quintic a0 a1 a2 a3 0 0)
               (WorkQueue.whole (quintic a0 a1 a2 a3 0 0) l r tolerance))
  /\ (forall n schedule (q : Queue Q) quad,
        Z.of_nat (length (entry q)) = MAXQUEUE ->
        WorkQueue.integrate (quintic a0 a1 a2 a3 0 0) l r tolerance (S n) schedule q
        <> WorkQueue.Returns quad)
  /\ (forall n (q : Queue Q),
        Z.of_nat (length (entry q)) = MAXQUEUE ->
        Flagged.integrate (quintic a0 a1 a2 a3 0 0) l r tolerance (S n)
          (replicate 11 0%nat ++ seq 1 n) q
        = Flagged.Returns
            (0 + contribution (quintic a0 a1 a2 a3 0 0)
                   (WorkQueue.whole (quintic a0 a1 a2 a3 0 0) l r tolerance))).
Proof.
  intros Htol. set (p := quintic a0 a1 a2 a3 0 0).
  assert (Hacc : accepts p (WorkQueue.whole p l r tolerance) = true)
    by (apply cubic_accepted; [apply whole_cached|exact Htol]).
  split; [exact Hacc|]. split.
  { apply (contribution_quintic a0 a1 a2 a3 0 0 (WorkQueue.whole p l r tolerance)).
    apply whole_cached. }
  split; [cbn [simpson_rec]; rewrite Hacc; reflexivity|].
  split.
  - intros n schedule q quad Hlen.
    apply integrate_never_returns; [exact Hlen|lia|exact Hacc].
  - intros n q Hlen. apply (flagged_accepted_run p l r tolerance n q Hlen Hacc).
Qed.

End Cubics.

Section EulerFacts.

Context {T : Type} `{Double T}.

Lemma euler_succ (init step alpha : T) n :
  0 <= n ->
  euler init step alpha (n + 1)
  = (euler init step alpha n + step * (alpha - euler init step alpha n))%D.
Proof.
  intros Hn. unfold euler.
  replace (Z.to_nat (n + 1)) with (S (Z.to_nat n)) by lia. reflexivity.
Qed.

(** X14. [euler] with no positive number of steps returns [init], and a
    run of [n] steps continued by a run of [m] steps from its result is the
    run of [n + m] steps, in any arithmetic. *)
Theorem euler_runs_compose (init step alpha : T) n m :
  (n <= 0 -> euler init step alpha n = init)
  /\ (0 <= n -> 0 <= m ->
      euler (euler init step alpha n) step alpha m = euler init step alpha (n + m)).
Proof.
  split.
  - intros Hn. unfold euler. replace (Z.to_nat n) with 0%nat by lia. reflexivity.
  - intros Hn Hm. unfold euler.
    rewrite Z2Nat.inj_add, Nat.add_comm by assumption.
    symmetry. apply Nat.iter_add.
Qed.

End EulerFacts.

Section EulerExact.

Local Open Scope Q_scope.

Lemma euler_closed_nat (init step alpha : Q) (k : nat) :
  euler init step alpha (Z.of_nat k)
  == alpha + (init - alpha) * (1 - step) ^ (Z.of_nat k).
Proof.
  induction k as [|k IH].
  - change (euler init step alpha (Z.of_nat 0)) with init.
    change ((1 - step) ^ Z.of_nat 0) with 1. ring.
  - rewrite Nat2Z.inj_succ. unfold Z.succ.
    rewrite euler_succ by lia. cbn [dadd dsub dmul exact].
    rewrite IH, Qpower_plus' by lia.
    change ((1 - step) ^ 1) with (1 - step). ring.
Qed.

Lemma power_unit_interval (x : Q) (k : nat) :
  0 <= x <= 1 -> 0 <= x ^ (Z.of_nat k) <= 1.
Proof.
  intros Hx. induction k as [|k IH].
  - change (x ^ Z.of_nat 0) with 1. lra.
  - rewrite Nat2Z.inj_succ. unfold Z.succ. rewrite Qpower_plus' by lia.
    change (x ^ 1) with x. nra.
Qed.

Lemma euler_closed (init step alpha : Q) (numsteps : Z) :
  (0 <= numsteps)%Z ->
  euler init step alpha numsteps == alpha + (init - alpha) * (1 - step) ^ numsteps.
Proof.
  intros Hn. rewrite <- (Z2Nat.id numsteps Hn). apply euler_closed_nat.
Qed.

(** X15. In arithmetic without rounding [euler] has the closed form
    [alpha + (init - alpha) * (1 - step)^numsteps]: it stays at [alpha] when
    it starts there, and for a step between 0 and 1 it ends no farther from
    [alpha] than it started. *)
Theorem euler_closed_form (init step alpha : Q) (numsteps : Z) :
  (0 <= numsteps)%Z ->
  euler init step alpha numsteps == alpha + (init - alpha) * (1 - step) ^ numsteps
  /\ euler alpha step alpha numsteps == alpha
  /\ (0 <= step <= 1 ->
      Qabs (euler init step alpha numsteps - alpha) <= Qabs (init - alpha)).
Proof.
  intros Hn. rewrite <- (Z2Nat.id numsteps Hn).
  split; [apply euler_closed_nat|]. split.
  - rewrite euler_closed_nat. ring.
  - intros Hstep. rewrite euler_closed_nat.
    destruct (power_unit_interval (1 - step) (Z.to_nat numsteps)) as [Hlo Hhi]; [lra|].
    set (x := (1 - step) ^ Z.of_nat (Z.to_nat numsteps)) in *.
    assert (He : alpha + (init - alpha) * x - alpha == (init - alpha) * x) by ring.
    rewrite He.
    rewrite Qabs_Qmult, (Qabs_pos x Hlo).
    pose proof (Qabs_nonneg (init - alpha)). nra.
Qed.

(** X16. In arithmetic without rounding [func1] is the sine of the C
    library, scaled: [func1(x) = (1 - 0.9999^1000) * 100000 * sin(100000 x)],
    and so at most [100000 * |sin(100000 x)|] in absolute value. *)
Theorem func1_is_a_scaled_sine (sin : Q -> Q) (x : Q) :
  func1 sin x
  == (1 - (9999 # 10000) ^ 1000) * (100000 * sin (x * 100000))
  /\ Qabs (func1 sin x) <= 100000 * Qabs (sin (x * 100000)).
Proof.
  assert (Hform : func1 sin x
                  == (1 - (9999 # 10000) ^ 1000) * (100000 * sin (x * 100000))).
  { unfold func1. cbv zeta.
    rewrite (euler_closed _ _ _ 1000 ltac:(lia)).
    unfold dstep, exact_step. cbn [dlit dmul exact].
    change (inject_Z 100000) with (100000 # 1). change (inject_Z 0) with 0.
    assert (He : 1 - (1 # 10000) == 9999 # 10000) by reflexivity.
    rewrite He.
    generalize ((9999 # 10000) ^ 1000). intros k. ring. }
  split; [exact Hform|].
  rewrite Hform.
  destruct (power_unit_interval (9999 # 10000) 1000) as [Hlo Hhi]; [lra|].
  change (Z.of_nat 1000) with 1000%Z in *.
  revert Hlo Hhi. generalize ((9999 # 10000) ^ 1000). intros k Hlo Hhi.
  rewrite Qabs_Qmult, (Qabs_pos (1 - k)) by lra.
  rewrite Qabs_Qmult. change (Qabs 100000) with 100000.
  pose proof (Qabs_nonneg (sin (x * 100000))). nra.
Qed.

End EulerExact.

Section TaskFacts.

Context {T : Type} `{Double T}.
Implicit Types (func : T -> T) (interval : Interval T).

Lemma simpson_tasks_rec fuel func : forall interval depth max_task_depth,
  depth + Z.of_nat fuel <= INT_MAX ->
  simpson_tasks fuel func interval depth max_task_depth
  = Ok <$> simpson_rec fuel func interval.
Proof.
  induction fuel as [|n IH]; intros interval depth max_task_depth Hd; [reflexivity|].
  cbn [simpson_tasks simpson_rec]. destruct (accepts func interval); [reflexivity|].
  rewrite !IH by lia.
  assert (Hjoin : join (Ok <$> simpson_rec n func (i1 func interval))
                       (Ok <$> simpson_rec n func (i2 func interval))
                  = Ok <$> match simpson_rec n func (i1 func interval),
                                 simpson_rec n func (i2 func interval) with
                           | Some quad1, Some quad2 => Some (quad1 + quad2)%D
                           | _, _ => None
                           end).
  { destruct (simpson_rec n func (i1 func interval)),
      (simpson_rec n func (i2 func interval)); reflexivity. }
  destruct (decide (depth < max_task_depth)); [exact Hjoin|].
  destruct (decide (depth = INT_MAX)) as [->|_]; [lia|exact Hjoin].
Qed.

Lemma tasks_created_bound fuel func : forall interval depth max_task_depth k,
  tasks_created fuel func interval depth max_task_depth = Some k ->
  0 <= k <= 2 ^ (Z.max 0 (max_task_depth - depth) + 1) - 2.
Proof.
  induction fuel as [|n IH]; intros interval depth max_task_depth k; [discriminate|].
  cbn [tasks_created].
  assert (Hpow : 2 <= 2 ^ (Z.max 0 (max_task_depth - depth) + 1)).
  { change 2 with (2 ^ 1) at 1. apply Z.pow_le_mono_r; lia. }
  destruct (accepts func interval); [intros [= <-]; lia|].
  destruct (tasks_created n func (i1 func interval) (depth + 1) max_task_depth)
    as [k1|] eqn:E1; [|discriminate].
  destruct (tasks_created n func (i2 func interval) (depth + 1) max_task_depth)
    as [k2|] eqn:E2; [|discriminate].
  intros [= <-]. apply IH in E1, E2.
  destruct (decide (depth < max_task_depth)) as [Hlt|Hge].
  - replace (Z.max 0 (max_task_depth - depth) + 1)
      with (Z.max 0 (max_task_depth - (depth + 1)) + 1 + 1) by lia.
    rewrite Z.pow_add_r by lia. change (2 ^ 1) with 2.
    set (x := 2 ^ (Z.max 0 (max_task_depth - (depth + 1)) + 1)) in *. lia.
  - replace (Z.max 0 (max_task_depth - (depth + 1))) with 0 in E1, E2 by lia.
    replace (Z.max 0 (max_task_depth - depth)) with 0 by lia.
    change (2 ^ (0 + 1) - 2) with 0 in *. lia.
Qed.

Lemma tasks_created_unbounded fuel func : forall interval depth max_task_depth ls,
  depth + Z.of_nat fuel <= max_task_depth + 1 ->
  leaves fuel func interval = Some ls ->
  tasks_created fuel func interval depth max_task_depth
  = Some (2 * (Z.of_nat (length ls) - 1)).
Proof.
  induction fuel as [|n IH]; intros interval depth max_task_depth ls Hd; [discriminate|].
  cbn [tasks_created leaves]. destruct (accepts func interval); [intros [= <-]; reflexivity|].
  destruct (leaves n func (i1 func interval)) as [l1|] eqn:E1; [|discriminate].
  destruct (leaves n func (i2 func interval)) as [l2|] eqn:E2; [|discriminate].
  intros [= <-].
  rewrite (IH (i1 func interval) (depth + 1) max_task_depth l1) by (lia || exact E1).
  rewrite (IH (i2 func interval) (depth + 1) max_task_depth l2) by (lia || exact E2).
  assert (Hn : (0 < n)%nat) by (destruct n; [discriminate|lia]).
  destruct (decide (depth < max_task_depth)); [|lia].
  rewrite length_app. f_equal. lia.
Qed.

End TaskFacts.

(** ** The bound on the depth of the tasks *)

Section TaskClaims.

Context {T : Type} `{Double T}.
Implicit Types (func : T -> T) (interval : Interval T).

(** X18. Tasks are created near the root of the recursion only: a call at
    depth [depth] creates at most [2^(max_task_depth - depth + 1) - 2]
    tasks, and none at all once [depth] has reached [max_task_depth]; when
    the whole recursion stays below the bound, every split creates its two
    tasks, [2 * (n - 1)] for [n] accepted intervals. *)
Theorem tasks_are_created_near_the_root fuel func interval depth max_task_depth k :
  tasks_created fuel func interval depth max_task_depth = Some k ->
  0 <= k <= 2 ^ (Z.max 0 (max_task_depth - depth) + 1) - 2
  /\ (max_task_depth <= depth -> k = 0)
  /\ (depth + Z.of_nat fuel <= max_task_depth + 1 ->
      exists ls,
        leaves fuel func interval = Some ls /\ k = 2 * (Z.of_nat (length ls) - 1)).
Proof.
  intros Hk. pose proof (tasks_created_bound _ _ _ _ _ _ Hk) as Hb.
  split; [exact Hb|]. split.
  - intros Hge. replace (Z.max 0 (max_task_depth - depth)) with 0 in Hb by lia.
    change (2 ^ (0 + 1) - 2) with 0 in Hb. lia.
  - intros Hd.
    assert (Hls : exists ls, leaves fuel func interval = Some ls).
    { clear -Hk. revert interval depth k Hk.
      induction fuel as [|n IH]; intros interval depth k; [discriminate|].
      cbn [tasks_created leaves]. destruct (accepts func interval); [eauto|].
      destruct (tasks_created n func (i1 func interval) (depth + 1) max_task_depth)
        as [k1|] eqn:E1; [|discriminate].
      destruct (tasks_created n func (i2 func interval) (depth + 1) max_task_depth)
        as [k2|] eqn:E2; [|discriminate].
      intros _. destruct (IH _ _ _ E1) as [l1 ->]. destruct (IH _ _ _ E2) as [l2 ->].
      eauto. }
    destruct Hls as [ls Hls]. exists ls. split; [exact Hls|].
    rewrite (tasks_created_unbounded _ _ _ _ _ _ Hd Hls) in Hk. congruence.
Qed.

End TaskClaims.

(** ** The tasks, run in any order *)

Section TaskPoolFacts.

Import TaskPool.
Context {T : Type} `{Double T}.
Implicit Types (func : T -> T) (task : Task T).

Lemma task_exec_app func max schedule1 schedule2 task :
  exec func max (schedule1 ++ schedule2) task
  = match exec func max schedule1 task with
    | Running task' => exec func max schedule2 task'
    | Undef => Undef
    end.
Proof.
  revert task. induction schedule1 as [|path schedule1 IH]; intros task; [reflexivity|].
  cbn. destruct (step func max path task); auto.
Qed.

(** A step keeps what is to be returned. *)
Lemma step_yields func max safe path task v :
  yields func safe task v ->
  forall task', step func max path task = Running task' -> yields func safe task' v.
Proof.
  intros Hy. revert path. induction Hy as
    [fuel interval depth v Hv Hd|quad1 quad2 v1 v2 H1 IH1 H2 IH2
    |quad1 quad2 v1 v2 H1 IH1 H2 IH2|v]; intros path task' Hstep.
  - destruct path; cbn [step] in Hstep; [|injection Hstep as <-; econstructor; eauto].
    unfold call in Hstep. destruct fuel as [|n]; [discriminate|].
    cbn [simpson_rec] in Hv. destruct (accepts func interval).
    + injection Hv as <-. injection Hstep as <-. constructor.
    + destruct (simpson_rec n func (i1 func interval)) as [w1|] eqn:E1; [|discriminate].
      destruct (simpson_rec n func (i2 func interval)) as [w2|] eqn:E2; [|discriminate].
      injection Hv as <-.
      assert (Hsafe : safe = true -> depth + 1 + Z.of_nat n <= INT_MAX) by (intros Hs; specialize (Hd Hs); lia).
      destruct (decide (depth < max)).
      * injection Hstep as <-. constructor; econstructor; eauto.
      * destruct (decide (depth = INT_MAX)); [discriminate|].
        injection Hstep as <-. constructor; econstructor; eauto.
  - destruct path as [|[|] path]; cbn [step] in Hstep.
    + injection Hstep as <-. unfold sum.
      destruct quad1; try (constructor; assumption).
      destruct quad2; try (constructor; assumption).
      inversion H1; subst. inversion H2; subst. constructor.
    + destruct (step func max path quad2) as [quad2'|] eqn:E; [|discriminate].
      injection Hstep as <-. constructor; eauto.
    + destruct (step func max path quad1) as [quad1'|] eqn:E; [|discriminate].
      injection Hstep as <-. constructor; eauto.
  - destruct path as [|[|] path]; cbn [step] in Hstep.
    + injection Hstep as <-. unfold sum.
      destruct quad1; try (constructor; assumption).
      destruct quad2; try (constructor; assumption).
      inversion H1; subst. inversion H2; subst. constructor.
    + destruct quad1; try (injection Hstep as <-; constructor; assumption).
      destruct (step func max path quad2) as [quad2'|] eqn:E; [|discriminate].
      injection Hstep as <-. constructor; eauto.
    + destruct (step func max path quad1) as [quad1'|] eqn:E; [|discriminate].
      injection Hstep as <-. constructor; eauto.
  - cbn [step] in Hstep. injection Hstep as <-. constructor.
Qed.

(** Within [int], no step is without defined behaviour. *)
Lemma step_defined func max path task v :
  yields func true task v -> step func max path task <> Undef.
Proof.
  intros Hy. revert path. induction Hy as
    [fuel interval depth v Hv Hd|quad1 quad2 v1 v2 H1 IH1 H2 IH2
    |quad1 quad2 v1 v2 H1 IH1 H2 IH2|v]; intros path.
  - destruct path; cbn [step]; [|discriminate]. unfold call.
    destruct (accepts func interval); [discriminate|].
    destruct (decide (depth < max)); [discriminate|].
    destruct (decide (depth = INT_MAX)) as [->|]; [|discriminate].
    specialize (Hd eq_refl). destruct fuel; [discriminate|lia].
  - destruct path as [|[|] path]; cbn [step]; [discriminate| |].
    + specialize (IH2 path). destruct (step func max path quad2); [discriminate|congruence].
    + specialize (IH1 path). destruct (step func max path quad1); [discriminate|congruence].
  - destruct path as [|[|] path]; cbn [step]; [discriminate| |].
    + destruct quad1; try discriminate.
      specialize (IH2 path). destruct (step func max path quad2); [discriminate|congruence].
    + specialize (IH1 path). destruct (step func max path quad1); [discriminate|congruence].
  - discriminate.
Qed.

Lemma exec_yields func max schedule task v :
  yields func true task v ->
  exists task', exec func max schedule task = Running task' /\ yields func true task' v.
Proof.
  revert task. induction schedule as [|path schedule IH]; intros task Hy; [eauto|].
  cbn [exec]. pose proof (step_defined func max path _ _ Hy) as Hdef.
  destruct (step func max path task) as [task1|] eqn:Hstep; [|congruence].
  eauto using step_yields.
Qed.

(** What a step leaves returns what was there before the step. *)
Lemma step_yields_back func max path : forall task task' v,
  step func max path task = Running task' ->
  yields func false task' v -> yields func false task v.
Proof.
  intros task. revert path.
  induction task as [interval depth|quad1 IH1 quad2 IH2|quad1 IH1 quad2 IH2|quad];
    intros path task' v Hstep Hy.
  - destruct path; cbn [step] in Hstep; [|injection Hstep as <-; exact Hy].
    unfold call in Hstep. destruct (accepts func interval) eqn:Hacc.
    + injection Hstep as <-. inversion Hy; subst.
      apply (yields_call func false 1); [|discriminate].
      cbn [simpson_rec]. rewrite Hacc. reflexivity.
    + assert (Hsplit : forall v1 v2 n1 n2,
                simpson_rec n1 func (i1 func interval) = Some v1 ->
                simpson_rec n2 func (i2 func interval) = Some v2 ->
                yields func false (Call interval depth) (v1 + v2)%D).
      { intros v1 v2 n1 n2 E1 E2.
        apply (yields_call func false (S (Nat.max n1 n2))); [|discriminate].
        cbn [simpson_rec]. rewrite Hacc.
        rewrite (simpson_rec_more_fuel _ (Nat.max n1 n2) _ _ _ E1) by lia.
        rewrite (simpson_rec_more_fuel _ (Nat.max n1 n2) _ _ _ E2) by lia.
        reflexivity. }
      destruct (decide (depth < max)).
      * injection Hstep as <-. inversion Hy as [|? ? v1 v2 Hy1 Hy2| |]; subst.
        inversion Hy1; subst. inversion Hy2; subst. eapply Hsplit; eauto.
      * destruct (decide (depth = INT_MAX)); [discriminate|].
        injection Hstep as <-. inversion Hy as [| |? ? v1 v2 Hy1 Hy2|]; subst.
        inversion Hy1; subst. inversion Hy2; subst. eapply Hsplit; eauto.
  - destruct path as [|[|] path]; cbn [step] in Hstep.
    + injection Hstep as <-. unfold sum in Hy.
      destruct quad1; try exact Hy. destruct quad2; try exact Hy.
      inversion Hy; subst. constructor; constructor.
    + destruct (step func max path quad2) as [quad2'|] eqn:E; [|discriminate].
      injection Hstep as <-. inversion Hy; subst. constructor; eauto.
    + destruct (step func max path quad1) as [quad1'|] eqn:E; [|discriminate].
      injection Hstep as <-. inversion Hy; subst. constructor; eauto.
  - destruct path as [|[|] path]; cbn [step] in Hstep.
    + injection Hstep as <-. unfold sum in Hy.
      destruct quad1; try exact Hy. destruct quad2; try exact Hy.
      inversion Hy; subst. constructor; constructor.
    + destruct quad1; try (injection Hstep as <-; exact Hy).
      destruct (step func max path quad2) as [quad2'|] eqn:E; [|discriminate].
      injection Hstep as <-. inversion Hy; subst. constructor; eauto.
    + destruct (step func max path quad1) as [quad1'|] eqn:E; [|discriminate].
      injection Hstep as <-. inversion Hy; subst. constructor; eauto.
  - cbn [step] in Hstep. injection Hstep as <-. exact Hy.
Qed.

Lemma exec_yields_back func max schedule : forall task task' v,
  exec func max schedule task = Running task' ->
  yields func false task' v -> yields func false task v.
Proof.
  induction schedule as [|path schedule IH]; intros task task' v; cbn [exec].
  - intros [= <-]. auto.
  - destruct (step func max path task) as [task1|] eqn:Hstep; [|discriminate].
    intros Hexec Hy. eauto using step_yields_back.
Qed.

(** The steps of a call are steps of the call that waits for it. *)
Lemma exec_wait_left func max schedule quad1 quad1' quad2 :
  exec func max schedule quad1 = Running quad1' ->
  exec func max (cons false <$> schedule) (Wait quad1 quad2)
  = Running (Wait quad1' quad2).
Proof.
  revert quad1. induction schedule as [|path schedule IH]; intros quad1; cbn [exec fmap list_fmap].
  - intros [= <-]. reflexivity.
  - cbn [step]. destruct (step func max path quad1) as [task|]; [|discriminate].
    cbn [inside]. apply IH.
Qed.

Lemma exec_wait_right func max schedule quad1 quad2 quad2' :
  exec func max schedule quad2 = Running quad2' ->
  exec func max (cons true <$> schedule) (Wait quad1 quad2)
  = Running (Wait quad1 quad2').
Proof.
  revert quad2. induction schedule as [|path schedule IH]; intros quad2; cbn [exec fmap list_fmap].
  - intros [= <-]. reflexivity.
  - cbn [step]. destruct (step func max path quad2) as [task|]; [|discriminate].
    cbn [inside]. apply IH.
Qed.

Lemma exec_plain_left func max schedule quad1 quad1' quad2 :
  exec func max schedule quad1 = Running quad1' ->
  exec func max (cons false <$> schedule) (Plain quad1 quad2)
  = Running (Plain quad1' quad2).
Proof.
  revert quad1. induction schedule as [|path schedule IH]; intros quad1; cbn [exec fmap list_fmap].
  - intros [= <-]. reflexivity.
  - cbn [step]. destruct (step func max path quad1) as [task|]; [|discriminate].
    cbn [inside]. apply IH.
Qed.

Lemma exec_plain_right func max schedule v1 quad2 quad2' :
  exec func max schedule quad2 = Running quad2' ->
  exec func max (cons true <$> schedule) (Plain (Value v1) quad2)
  = Running (Plain (Value v1) quad2').
Proof.
  revert quad2. induction schedule as [|path schedule IH]; intros quad2; cbn [exec fmap list_fmap].
  - intros [= <-]. reflexivity.
  - cbn [step]. destruct (step func max path quad2) as [task|]; [|discriminate].
    cbn [inside]. apply IH.
Qed.

(** What is to be returned can be returned: the left half first, then the
    right half, then the sum. *)
Lemma halves_complete func max schedule1 schedule2 quad1 quad2 v1 v2 :
  exec func max schedule1 quad1 = Running (Value v1) ->
  exec func max schedule2 quad2 = Running (Value v2) ->
  exec func max ((cons false <$> schedule1) ++ (cons true <$> schedule2) ++ [[]])
    (Wait quad1 quad2) = Running (Value (v1 + v2)%D)
  /\ exec func max ((cons false <$> schedule1) ++ (cons true <$> schedule2) ++ [[]])
       (Plain quad1 quad2) = Running (Value (v1 + v2)%D).
Proof.
  intros H1 H2. split.
  - rewrite task_exec_app, (exec_wait_left _ _ _ _ _ _ H1).
    rewrite task_exec_app, (exec_wait_right _ _ _ _ _ _ H2). reflexivity.
  - rewrite task_exec_app, (exec_plain_left _ _ _ _ _ _ H1).
    rewrite task_exec_app, (exec_plain_right _ _ _ _ _ _ H2). reflexivity.
Qed.

Lemma call_completes func max fuel : forall interval depth v,
  simpson_rec fuel func interval = Some v ->
  depth + Z.of_nat fuel <= INT_MAX ->
  exists schedule, exec func max schedule (Call interval depth) = Running (Value v).
Proof.
  induction fuel as [|n IH]; intros interval depth v; [discriminate|].
  cbn [simpson_rec]. destruct (accepts func interval) eqn:Hacc.
  - intros [= <-] _. exists [[]]. cbn [exec step]. unfold call. rewrite Hacc. reflexivity.
  - destruct (simpson_rec n func (i1 func interval)) as [v1|] eqn:E1; [|discriminate].
    destruct (simpson_rec n func (i2 func interval)) as [v2|] eqn:E2; [|discriminate].
    intros [= <-] Hd.
    destruct (IH _ (depth + 1) _ E1) as [schedule1 H1]; [lia|].
    destruct (IH _ (depth + 1) _ E2) as [schedule2 H2]; [lia|].
    destruct (halves_complete func max _ _ _ _ _ _ H1 H2) as [Hwait Hplain].
    exists ([] :: (cons false <$> schedule1) ++ (cons true <$> schedule2) ++ [[]]).
    cbn [exec step]. unfold call. rewrite Hacc.
    destruct (decide (depth < max)); [exact Hwait|].
    destruct (decide (depth = INT_MAX)); [lia|exact Hplain].
Qed.

Lemma yields_completes func max task v :
  yields func true task v ->
  exists schedule, exec func max schedule task = Running (Value v).
Proof.
  induction 1 as [fuel interval depth v Hv Hd|quad1 quad2 v1 v2 _ [s1 H1] _ [s2 H2]
                 |quad1 quad2 v1 v2 _ [s1 H1] _ [s2 H2]|v].
  - eauto using call_completes.
  - eexists. apply (halves_complete func max _ _ _ _ _ _ H1 H2).
  - eexists. apply (halves_complete func max _ _ _ _ _ _ H1 H2).
  - exists []. reflexivity.
Qed.

(** X17. The tasks do not change the value, in any arithmetic of [double]:
    whatever [max_task_depth] and in whatever order the tasks are run, a
    call of [simpson] that returns, returns what the plain recursion
    returns on the same interval, the sums being formed in the same order.
    And when the plain recursion returns and the depths stay within [int],
    no order of the tasks ends without defined behaviour, and every run can
    be continued to the return of that value: the tasks do not block each
    other. So the two recursive [main]s print the same result. *)
Theorem task_bound_does_not_change_the_value func interval depth max_task_depth :
  (forall schedule quad,
     simpson func interval depth max_task_depth schedule = Returns quad ->
     exists fuel, simpson_rec fuel func interval = Some quad)
  /\ (forall fuel quad,
        simpson_rec fuel func interval = Some quad ->
        depth + Z.of_nat fuel <= INT_MAX ->
        forall schedule,
          simpson func interval depth max_task_depth schedule <> UndefinedBehaviour
          /\ exists rest,
               simpson func interval depth max_task_depth (schedule ++ rest)
               = Returns quad)
  /\ (forall func1 schedule quad,
        main func1 schedule = Returns quad ->
        exists fuel, main_rec fuel func1 = Some quad).
Proof.
  assert (Hback : forall f i d m schedule quad,
            simpson f i d m schedule = Returns quad ->
            exists fuel, simpson_rec fuel f i = Some quad).
  { intros f i d m schedule quad. unfold simpson.
    destruct (exec f m schedule (Call i d)) as [task|] eqn:Hexec; [|discriminate].
    destruct task; try discriminate. intros [= ->].
    pose proof (exec_yields_back f m schedule _ _ quad Hexec (yields_value f false quad))
      as Hy.
    inversion Hy; subst. eauto. }
  split; [apply Hback|]. split; [|intros func1 schedule quad; apply Hback].
  intros fuel quad Hv Hd schedule.
  assert (Hy : yields func true (Call interval depth) quad)
    by (econstructor; eauto).
  destruct (exec_yields func max_task_depth schedule _ _ Hy) as (task & Hexec & Hy').
  unfold simpson. split.
  - rewrite Hexec. destruct task; discriminate.
  - destruct (yields_completes func max_task_depth _ _ Hy') as [rest Hrest].
    exists rest. rewrite task_exec_app, Hexec, Hrest. reflexivity.
Qed.

End TaskPoolFacts.

(** X19. In arithmetic without rounding the two recursive programs end on
    the domain of [main], whatever the integrand: [0, 10] is resolved within
    45 levels of the recursion, both [main]s get the same value, and the one
    with the bound creates at most [2^17 - 2] tasks. *)
Theorem recursive_mains_agree (func1 : Q -> Q) :
  exists v k,
    main_rec 45 func1 = Some v
    /\ main_tasks 45 func1 = Some (Ok v)
    /\ tasks_created 45 func1 (WorkQueue.whole func1 (dlit 0) (dlit 10) dmicro) 0 16
       = Some k
    /\ 0 <= k <= 131070.
Proof.
  set (whole := WorkQueue.whole func1 (dlit 0) (dlit 10) dmicro).
  assert (Hlevels : levels whole = 44%nat) by reflexivity.
  destruct (recursion_terminates func1 whole) as (_ & _ & [ls Hls] & [v Hv]).
  rewrite Hlevels in Hls, Hv.
  assert (Hk : exists k, tasks_created 45 func1 whole 0 16 = Some k).
  { clear -Hls. generalize 0 at 1. revert ls Hls. generalize whole. generalize 45%nat.
    induction n as [|n IH]; intros interval ls Hls depth; [discriminate|].
    cbn [tasks_created leaves] in *. destruct (accepts func1 interval); [eauto|].
    destruct (leaves n func1 (i1 func1 interval)) as [l1|] eqn:E1; [|discriminate].
    destruct (leaves n func1 (i2 func1 interval)) as [l2|] eqn:E2; [|discriminate].
    destruct (IH _ _ E1 (depth + 1)) as [k1 ->].
    destruct (IH _ _ E2 (depth + 1)) as [k2 ->]. eauto. }
  destruct Hk as [k Hk]. exists v, k.
  split; [exact Hv|]. split.
  - unfold main_tasks. fold whole.
    rewrite simpson_tasks_rec by (unfold INT_MAX; lia).
    fold whole in Hv. unfold main_rec in Hv. fold whole in Hv. rewrite Hv. reflexivity.
  - split; [exact Hk|]. apply (tasks_created_bound _ _ _ _ _ _ Hk).
Qed.

(** ** Runs of queue operations *)

Section RunFacts.

Context {T : Type} `{Double T}.
Implicit Types (queue_p : Queue T) (interval : Interval T) (ls : list (Interval T)).

Lemma enqueue_all_fits ls : forall queue_p,
  queue_wf queue_p -> size queue_p + Z.of_nat (length ls) <= MAXQUEUE ->
  exists q1,
    enqueue_all ls queue_p = Ok q1
    /\ queue_wf q1 /\ live q1 = live queue_p ++ ls
    /\ top q1 = top queue_p + Z.of_nat (length ls).
Proof.
  induction ls as [|interval ls IH]; intros queue_p Hwf Hfit.
  - exists queue_p. cbn. rewrite app_nil_r. auto with lia.
  - cbn [length] in Hfit. cbn [enqueue_all].
    pose proof (enqueue_ok interval queue_p Hwf ltac:(lia)) as Henq.
    rewrite Henq. set (q' := {| entry := _; top := _ |}) in *.
    pose proof (enqueue_wf _ _ _ Hwf Henq) as Hwf'.
    destruct (IH q' Hwf') as (q1 & Hall & Hwf1 & Hlive & Htop).
    { rewrite (size_enqueue _ _ _ Henq). lia. }
    exists q1. split; [exact Hall|]. split; [exact Hwf1|].
    split.
    + rewrite Hlive, (live_enqueue _ _ _ (proj1 (proj2 Hwf)) Henq), <- app_assoc. reflexivity.
    + rewrite Htop. subst q'. cbn [top length]. lia.
Qed.

Lemma enqueue_all_overflows ls : forall queue_p,
  queue_wf queue_p -> MAXQUEUE < size queue_p + Z.of_nat (length ls) ->
  enqueue_all ls queue_p = Exit QueueOverflow.
Proof.
  induction ls as [|interval ls IH]; intros queue_p Hwf Hover.
  - destruct Hwf as [_ Htop]. unfold size in Hover. cbn in Hover. lia.
  - cbn [length] in Hover. cbn [enqueue_all].
    destruct (Z.eq_dec (size queue_p) MAXQUEUE) as [Hfull|Hroom].
    + rewrite (enqueue_full _ _ Hfull). reflexivity.
    + assert (Hlt : size queue_p < MAXQUEUE)
        by (destruct Hwf as [_ Htop]; unfold size in *; lia).
      pose proof (enqueue_ok interval queue_p Hwf Hlt) as Henq. rewrite Henq.
      apply IH; [eauto using enqueue_wf|].
      rewrite (size_enqueue _ _ _ Henq). lia.
Qed.

Lemma dequeue_n_live n : forall queue_p ls0 ls,
  queue_wf queue_p -> live queue_p = ls0 ++ ls -> length ls = n ->
  exists q2,
    dequeue_n n queue_p = Ok (rev ls, q2)
    /\ queue_wf q2 /\ live q2 = ls0 /\ top q2 = top queue_p - Z.of_nat n.
Proof.
  induction n as [|n IH]; intros queue_p ls0 ls Hwf Hlive Hlen.
  - destruct ls; [|discriminate]. rewrite app_nil_r in Hlive.
    exists queue_p. cbn. auto with lia.
  - destruct ls as [|interval ls' _] using rev_ind; [discriminate|].
    rewrite length_app in Hlen. cbn in Hlen.
    rewrite app_assoc in Hlive.
    assert (Hne : isempty queue_p = false).
    { apply bool_decide_eq_false. intros Htop.
      pose proof (size_live _ Hwf) as Hsz. rewrite Hlive, length_app in Hsz.
      unfold size in Hsz. cbn in Hsz. lia. }
    destruct (dequeue_ok _ Hwf Hne) as (i & Hdeq & _).
    pose proof (live_dequeue _ _ _ Hdeq) as Hl. rewrite Hlive in Hl.
    apply app_inj_tail in Hl as [Hl ->].
    pose proof (dequeue_wf _ _ _ Hwf Hdeq) as Hwf'.
    cbn [dequeue_n]. rewrite Hdeq.
    destruct (IH _ ls0 ls' Hwf' (eq_sym Hl) ltac:(lia)) as (q2 & Hrun & Hwf2 & Hlive2 & Htop2).
    rewrite Hrun. exists q2. rewrite rev_app_distr. cbn [rev app].
    split; [reflexivity|]. split; [exact Hwf2|]. split; [exact Hlive2|].
    rewrite Htop2. cbn [top]. lia.
Qed.

Lemma dequeue_n_underflows n : forall queue_p,
  queue_wf queue_p -> size queue_p < Z.of_nat n ->
  dequeue_n n queue_p = Exit EmptyExtract.
Proof.
  induction n as [|n IH]; intros queue_p Hwf Hn.
  - destruct Hwf as [_ Htop]. unfold size in Hn. cbn in Hn. lia.
  - cbn [dequeue_n]. destruct (isempty queue_p) eqn:Hempty.
    + apply bool_decide_eq_true in Hempty. unfold dequeue.
      destruct (decide (top queue_p = -1)); [reflexivity|contradiction].
    + destruct (dequeue_ok _ Hwf Hempty) as (i & Hdeq & _). rewrite Hdeq.
      rewrite IH; [reflexivity|eauto using dequeue_wf|].
      rewrite (size_dequeue _ _ _ Hdeq). lia.
Qed.

(** X20. Runs of queue operations. On a queue as the program keeps it,
    the intervals of a list are enqueued one after the other when they fit,
    above the entries that were there, and as many [dequeue]s give them back
    last first and leave the entries and [top] as they were; when they do
    not fit the process exits with "Maximum queue size exceeded"; [n]
    [dequeue]s take the last [n] entries, last first, and with fewer
    entries than [n] the process exits with "Attempt to extract from empty
    queue". *)
Theorem stack_runs queue_p ls n :
  queue_wf queue_p ->
  (size queue_p + Z.of_nat (length ls) <= MAXQUEUE ->
   exists q1 q2,
     enqueue_all ls queue_p = Ok q1
     /\ live q1 = live queue_p ++ ls
     /\ dequeue_n (length ls) q1 = Ok (rev ls, q2)
     /\ live q2 = live queue_p /\ top q2 = top queue_p)
  /\ (MAXQUEUE < size queue_p + Z.of_nat (length ls) ->
      enqueue_all ls queue_p = Exit QueueOverflow)
  /\ (Z.of_nat n <= size queue_p ->
      exists ls' q2,
        dequeue_n n queue_p = Ok (ls', q2)
        /\ live queue_p = live q2 ++ rev ls' /\ length ls' = n)
  /\ (size queue_p < Z.of_nat n -> dequeue_n n queue_p = Exit EmptyExtract).
Proof.
  intros Hwf. split; [|split; [|split]].
  - intros Hfit.
    destruct (enqueue_all_fits ls queue_p Hwf Hfit) as (q1 & Hall & Hwf1 & Hlive1 & Htop1).
    destruct (dequeue_n_live (length ls) q1 (live queue_p) ls Hwf1 Hlive1 eq_refl)
      as (q2 & Hrun & _ & Hlive2 & Htop2).
    exists q1, q2. split; [exact Hall|]. split; [exact Hlive1|].
    split; [exact Hrun|]. split; [exact Hlive2|lia].
  - apply enqueue_all_overflows, Hwf.
  - intros Hn.
    pose proof (size_live _ Hwf) as Hsz.
    set (k := (length (live queue_p) - n)%nat).
    destruct (dequeue_n_live n queue_p (take k (live queue_p)) (drop k (live queue_p)) Hwf)
      as (q2 & Hrun & _ & Hlive2 & _).
    { symmetry. apply take_drop. }
    { rewrite length_drop. subst k. lia. }
    eexists _, q2. split; [exact Hrun|].
    rewrite rev_involutive, Hlive2, take_drop.
    split; [reflexivity|]. rewrite length_rev, length_drop. subst k. lia.
  - apply dequeue_n_underflows, Hwf.
Qed.

End RunFacts.

Section Doomed.

Context {T : Type} `{Double T}.
Implicit Types (func : T -> T) (P : Interval T -> Prop).

Lemma doomed_recursion func P fuel :
  doomed func P ->
  forall interval, P interval -> simpson_rec fuel func interval = None.
Proof.
  intros Hdoomed.
  induction fuel as [|n IH]; intros interval HP; [reflexivity|].
  destruct (Hdoomed interval HP) as (Hrej & H1 & H2).
  cbn [simpson_rec]. rewrite Hrej, (IH _ H1). reflexivity.
Qed.

Lemma held_all_finished (ths : list (WorkQueue.Thread T)) :
  forallb WorkQueue.finished ths = true -> held ths = 0.
Proof.
  induction ths as [|th ths IH]; [reflexivity|].
  cbn [forallb]. intros [Hth Hall]%andb_true_iff.
  rewrite held_cons, (IH Hall). destruct th; try discriminate. reflexivity.
Qed.

Lemma step_nothing_accepted func P t (s s' : WorkQueue.State T) :
  doomed func P ->
  counted s -> everywhere P s -> WorkQueue.total_processed s = 0 ->
  WorkQueue.step func t s = WorkQueue.Running s' ->
  everywhere P s' /\ WorkQueue.total_processed s' = 0.
Proof.
  intros Hdoomed Hc He Hzero Hstep.
  split.
  { eapply step_everywhere; [|apply Hc|exact He|exact Hstep].
    intros interval HP. apply (Hdoomed interval HP). }
  unfold WorkQueue.step in Hstep.
  destruct (WorkQueue.threads s !! t) as [[|interval|]|] eqn:Ht.
  - unfold WorkQueue.poll in Hstep. destruct (isempty (WorkQueue.queue s)).
    + injection Hstep as <-. exact Hzero.
    + destruct (dequeue (WorkQueue.queue s)) as [[i q']| |]; try discriminate.
      injection Hstep as <-. exact Hzero.
  - destruct He as (_ & Hh & _).
    destruct (Hdoomed interval (Hh t interval Ht)) as (Hrej & _).
    unfold WorkQueue.process in Hstep. rewrite Hrej in Hstep.
    destruct (enqueue _ (WorkQueue.queue s)) as [queue1| |]; try discriminate.
    destruct (enqueue _ queue1) as [queue2| |]; try discriminate.
    destruct (decide _); [discriminate|]. injection Hstep as <-. exact Hzero.
  - injection Hstep as <-. exact Hzero.
  - injection Hstep as <-. exact Hzero.
Qed.

Lemma exec_nothing_accepted func P schedule :
  doomed func P ->
  forall (s s' : WorkQueue.State T),
  counted s -> everywhere P s -> WorkQueue.total_processed s = 0 ->
  WorkQueue.exec func schedule s = WorkQueue.Running s' ->
  WorkQueue.total_processed s' = 0.
Proof.
  intros Hdoomed.
  induction schedule as [|t schedule IH]; intros s s' Hc He Hzero; cbn.
  - intros [= <-]. exact Hzero.
  - destruct (WorkQueue.step func t s) as [s1| |] eqn:Hstep; try discriminate.
    destruct (step_nothing_accepted func P t s s1 Hdoomed Hc He Hzero Hstep) as [He1 Hzero1].
    apply IH; eauto using step_counted.
Qed.

(** The work-queue program never returns from an initial interval that has
    [P]. *)
Lemma doomed_queue func P l r tolerance num_threads schedule (q : Queue T) quad :
  doomed func P ->
  Z.of_nat (length (entry q)) = MAXQUEUE -> (0 < num_threads)%nat ->
  P (WorkQueue.whole func l r tolerance) ->
  WorkQueue.integrate func l r tolerance num_threads schedule q
  <> WorkQueue.Returns quad.
Proof.
  intros Hdoomed Hlen Hn HP. unfold WorkQueue.integrate.
  destruct (enqueue (WorkQueue.whole func l r tolerance) (init q)) as [q'| |] eqn:Henq;
    try discriminate.
  unfold WorkQueue.simpson.
  destruct (WorkQueue.exec func schedule (WorkQueue.start num_threads q' 1 0))
    as [s| |] eqn:Hexec; try discriminate.
  destruct (forallb WorkQueue.finished (WorkQueue.threads s)) eqn:Hall; [|discriminate].
  assert (Hseed : seeded func l r tolerance num_threads q (WorkQueue.start num_threads q' 1 0))
    by (exists q'; auto).
  pose proof (seeded_counted _ _ _ _ _ _ _ Hlen Hseed) as Hc0.
  pose proof (exec_counted _ _ _ _ Hc0 Hexec) as (Hwf & _ & Hone & Hcount).
  pose proof (exec_nothing_accepted func P schedule Hdoomed _ _ Hc0
                (seeded_everywhere P _ _ _ _ _ _ _ HP Hseed) eq_refl Hexec) as Hzero.
  assert (Hd : drained s).
  { eapply exec_drained; [|exact Hexec]. apply start_drained, Hn. }
  pose proof (Hd Hall) as Hempty. apply bool_decide_eq_true in Hempty.
  rewrite (held_all_finished _ Hall), Hzero in Hcount. unfold size in Hcount. lia.
Qed.

Lemma step_unresolved func P t (s s' : Flagged.State T) :
  doomed func P ->
  unresolved P s -> Flagged.step func t s = Flagged.Running s' -> unresolved P s'.
Proof.
  intros Hdoomed (Hwf & Hzero & Hone & Hd & Hq & Hths & Hne) Hstep.
  unfold Flagged.step in Hstep.
  destruct (Flagged.threads s !! t) as [th|] eqn:Ht.
  2: { injection Hstep as <-. unfold unresolved. auto 10. }
  destruct (Forall_lookup_1 _ _ _ _ Hths Ht) as [Hbusy Hhand].
  assert (Hins : forall th', <[t := th']> (Flagged.threads s) <> []).
  { intros th' Hnil. apply (f_equal length) in Hnil. rewrite length_insert in Hnil.
    destruct (Flagged.threads s); [contradiction|discriminate]. }
  unfold unresolved.
  destruct th as [| | | | |work|interval| |interval|interval| |]; try contradiction.
  - (* AtWhile *)
    rewrite Hd in Hstep. injection Hstep as <-. unfold Flagged.move. flagged_fields.
    repeat (split; [assumption|]).
    split; [|apply Hins]. apply Forall_insert; [exact Hths|]. split; [exact I|discriminate].
  - (* Entering *)
    destruct (Flagged.queue_access s); injection Hstep as <-; [auto 10|]. flagged_fields.
    repeat (split; [assumption|]).
    split; [|apply Hins]. apply Forall_insert; [exact Hths|].
    destruct (isempty (Flagged.queue s)); (split; [exact I|discriminate]).
  - (* Extract *)
    destruct (dequeue (Flagged.queue s)) as [[interval q']| |] eqn:Hdeq; try discriminate.
    injection Hstep as <-. flagged_fields.
    rewrite (live_dequeue _ _ _ Hdeq) in Hq.
    apply Forall_app in Hq as [Hq' Hi]. apply List.Forall_inv in Hi.
    split; [eauto using dequeue_wf|]. repeat (split; [assumption|]).
    split; [|apply Hins]. apply Forall_insert; [exact Hths|].
    split; [exact I|]. cbn. intros i [= <-]. exact Hi.
  - (* Compare *)
    destruct (decide _) as [Heq|_]; [lia|]. injection Hstep as <-. flagged_fields.
    repeat (split; [assumption|]).
    split; [|apply Hins]. apply Forall_insert; [exact Hths|]. split; [exact I|discriminate].
  - (* TestDone *)
    rewrite Hd in Hstep. destruct work as [interval|]; injection Hstep as <-;
      unfold Flagged.move; flagged_fields; repeat (split; [assumption|]);
      (split; [|apply Hins]); (apply Forall_insert; [exact Hths|]).
    + destruct (Hdoomed interval (Hhand interval eq_refl)) as (-> & _).
      split; [exact I|]. cbn. intros i [= <-]. apply Hhand. reflexivity.
    + split; [exact I|discriminate].
  - (* EnterUpdate *)
    destruct (Flagged.queue_update s); [injection Hstep as <-; auto 10|].
    destruct (enqueue _ (Flagged.queue s)) as [q'| |] eqn:Henq; try discriminate.
    injection Hstep as <-. flagged_fields.
    destruct (Hdoomed interval (Hhand interval eq_refl)) as (_ & H1 & _).
    split; [eauto using enqueue_wf|]. repeat (split; [assumption|]).
    split.
    { rewrite (live_enqueue _ _ _ (proj1 (proj2 Hwf)) Henq).
      apply Forall_app. split; [exact Hq|]. repeat constructor. exact H1. }
    split; [|apply Hins]. apply Forall_insert; [exact Hths|].
    split; [exact I|]. cbn. intros i [= <-]. apply Hhand. reflexivity.
  - (* PushSecond *)
    destruct (enqueue _ (Flagged.queue s)) as [q'| |] eqn:Henq; try discriminate.
    injection Hstep as <-. flagged_fields.
    destruct (Hdoomed interval (Hhand interval eq_refl)) as (_ & _ & H2).
    split; [eauto using enqueue_wf|]. repeat (split; [assumption|]).
    split.
    { rewrite (live_enqueue _ _ _ (proj1 (proj2 Hwf)) Henq).
      apply Forall_app. split; [exact Hq|]. repeat constructor. exact H2. }
    split; [|apply Hins]. apply Forall_insert; [exact Hths|]. split; [exact I|discriminate].
  - (* AddTotal *)
    destruct (decide _); [discriminate|]. injection Hstep as <-. flagged_fields.
    split; [assumption|]. split; [assumption|]. split; [lia|].
    repeat (split; [assumption|]).
    split; [|apply Hins]. apply Forall_insert; [exact Hths|]. split; [exact I|discriminate].
Qed.

Lemma exec_unresolved func P schedule :
  doomed func P ->
  forall (s s' : Flagged.State T),
  unresolved P s -> Flagged.exec func schedule s = Flagged.Running s' -> unresolved P s'.
Proof.
  intros Hdoomed.
  induction schedule as [|t schedule IH]; intros s s' Hu; cbn.
  - intros [= <-]. assumption.
  - destruct (Flagged.step func t s) as [s1| |] eqn:Hstep; try discriminate.
    eauto using step_unresolved.
Qed.

(** Neither does the flagged program. *)
Lemma doomed_flagged func P l r tolerance num_threads schedule (q : Queue T) quad :
  doomed func P ->
  Z.of_nat (length (entry q)) = MAXQUEUE -> (0 < num_threads)%nat ->
  P (WorkQueue.whole func l r tolerance) ->
  Flagged.integrate func l r tolerance num_threads schedule q
  <> Flagged.Returns quad.
Proof.
  intros Hdoomed Hlen Hn HP. unfold Flagged.integrate.
  destruct (enqueue (WorkQueue.whole func l r tolerance) (init q)) as [q'| |] eqn:Henq;
    try discriminate.
  unfold Flagged.simpson.
  destruct (Flagged.exec func schedule (Flagged.start num_threads q' 1 0))
    as [s| |] eqn:Hexec; try discriminate.
  assert (Hu : unresolved P s).
  { eapply exec_unresolved; [exact Hdoomed| |exact Hexec]. unfold unresolved, Flagged.start. flagged_fields.
    split; [eapply enqueue_wf; [apply init_wf, Hlen|exact Henq]|].
    split; [reflexivity|]. split; [lia|]. split; [reflexivity|].
    split.
    { rewrite (live_enqueue _ (init q) _ (Z.le_refl (-1)) Henq). repeat constructor. exact HP. }
    split; [apply Forall_replicate; split; [exact I|discriminate]|].
    destruct num_threads; [lia|discriminate]. }
  destruct Hu as (_ & _ & _ & _ & _ & Hths & Hne).
  destruct (forallb Flagged.gone (Flagged.threads s)) eqn:Hall; [|discriminate].
  destruct (Flagged.threads s) as [|th ths] eqn:Hth; [contradiction|].
  apply List.Forall_inv in Hths. destruct Hths as [Hbusy _].
  assert (th = Flagged.Gone) as ->
    by (apply (forallb_gone_lookup (th :: ths) 0); [exact Hall|reflexivity]).
  contradiction.
Qed.

End Doomed.

Section NotANumber.

Lemma nan_add (x y : float) : nan x \/ nan y -> nan (x + y).
Proof.
  unfold nan. rewrite add_spec. intros [->| ->]; [reflexivity|].
  destruct (Prim2SF x); reflexivity.
Qed.

Lemma nan_sub (x y : float) : nan x \/ nan y -> nan (x - y).
Proof.
  unfold nan. rewrite sub_spec. intros [->| ->]; [reflexivity|].
  destruct (Prim2SF x); reflexivity.
Qed.

Lemma nan_mul (x y : float) : nan x \/ nan y -> nan (x * y).
Proof.
  unfold nan. rewrite mul_spec. intros [->| ->]; [reflexivity|].
  destruct (Prim2SF x); reflexivity.
Qed.

Lemma nan_div (x y : float) : nan x \/ nan y -> nan (x / y).
Proof.
  unfold nan. rewrite div_spec. intros [->| ->]; [reflexivity|].
  destruct (Prim2SF x); reflexivity.
Qed.

Lemma nan_abs (x : float) : nan x -> nan (abs x).
Proof. unfold nan. rewrite abs_spec. intros ->. reflexivity. Qed.

Lemma nan_ltb (x y : float) : nan x \/ nan y -> (x <? y)%float = false.
Proof.
  unfold nan. rewrite ltb_spec. intros [->| ->]; [reflexivity|].
  unfold SFltb. destruct (Prim2SF x); reflexivity.
Qed.

Lemma nan_bounded_doomed (func : float -> float) : doomed func nan_bounded.
Proof.
  intros interval HP.
  assert (Hh : nan (right interval - left interval)%float)
    by (apply nan_sub; destruct HP; auto).
  assert (Hc : nan (c interval)).
  { unfold c. cbn [dadd ddiv binary64]. apply nan_div. left. apply nan_add. exact HP. }
  split; [|split].
  - unfold accepts. cbn [dlt fabs dsub binary64].
    rewrite (nan_ltb (right interval - left interval)%float) by auto.
    rewrite orb_false_r. apply nan_ltb. left. apply nan_abs, nan_sub. right.
    unfold q1. cbn [dmul ddiv binary64]. apply nan_mul. left. apply nan_div. left.
    exact Hh.
  - right. exact Hc.
  - left. exact Hc.
Qed.

End NotANumber.

Section DoomedClaims.

Context {T : Type} `{Double T}.

(** X21. A property of intervals that forces a split and passes to both
    halves is never got rid of: from an initial interval that has it, the
    recursion has no value at any depth, and neither work-queue program
    returns, whatever the number of loops and the schedule. *)
Theorem unresolvable_intervals (func : T -> T) (P : Interval T -> Prop) l r tolerance :
  doomed func P -> P (WorkQueue.whole func l r tolerance) ->
  (forall fuel, simpson_rec fuel func (WorkQueue.whole func l r tolerance) = None)
  /\ (forall n schedule (q : Queue T) quad,
        Z.of_nat (length (entry q)) = MAXQUEUE ->
        WorkQueue.integrate func l r tolerance (S n) schedule q <> WorkQueue.Returns quad)
  /\ (forall n schedule (q : Queue T) quad,
        Z.of_nat (length (entry q)) = MAXQUEUE ->
        Flagged.integrate func l r tolerance (S n) schedule q <> Flagged.Returns quad).
Proof.
  intros Hdoomed HP. split; [|split].
  - intros fuel. eapply doomed_recursion; eauto.
  - intros n schedule q quad Hlen.
    apply (doomed_queue func P); [exact Hdoomed|exact Hlen|lia|exact HP].
  - intros n schedule q quad Hlen.
    apply (doomed_flagged func P); [exact Hdoomed|exact Hlen|lia|exact HP].
Qed.

End DoomedClaims.

(** X22. On binary64 a boundary that is not a number is never resolved:
    every estimate and every width computed from it is not a number, both
    tests of the acceptance fail, and both halves of the split have such a
    boundary again. With such a boundary the recursion has no value at any
    depth and neither work-queue program returns. *)
Theorem nan_boundary_is_never_resolved (func : float -> float) l r tolerance :
  nan l \/ nan r ->
  accepts func (WorkQueue.whole func l r tolerance) = false
  /\ nan_bounded (i1 func (WorkQueue.whole func l r tolerance))
  /\ nan_bounded (i2 func (WorkQueue.whole func l r tolerance))
  /\ (forall fuel, simpson_rec fuel func (WorkQueue.whole func l r tolerance) = None)
  /\ (forall n schedule (q : Queue float) quad,
        Z.of_nat (length (entry q)) = MAXQUEUE ->
        WorkQueue.integrate func l r tolerance (S n) schedule q <> WorkQueue.Returns quad)
  /\ (forall n schedule (q : Queue float) quad,
        Z.of_nat (length (entry q)) = MAXQUEUE ->
        Flagged.integrate func l r tolerance (S n) schedule q <> Flagged.Returns quad).
Proof.
  intros Hnan.
  assert (HP : nan_bounded (WorkQueue.whole func l r tolerance)) by exact Hnan.
  destruct (nan_bounded_doomed func _ HP) as (Hrej & H1 & H2).
  split; [exact Hrej|]. split; [exact H1|]. split; [exact H2|]. split; [|split].
  - intros fuel. eapply doomed_recursion; [apply nan_bounded_doomed|exact HP].
  - intros n schedule q quad Hlen.
    apply (doomed_queue func nan_bounded);
      [apply nan_bounded_doomed|exact Hlen|lia|exact HP].
  - intros n schedule q quad Hlen.
    apply (doomed_flagged func nan_bounded);
      [apply nan_bounded_doomed|exact Hlen|lia|exact HP].
Qed.

(** ** An interval given backwards *)

Section Reversed.

Local Open Scope Q_scope.

Lemma Qplus_comm_eq (x y : Q) : x + y = y + x.
Proof. unfold Qplus. f_equal; lia. Qed.

(** The five-point value of an interval taken backwards is the opposite. *)
Lemma contribution_reversed (func : Q -> Q) l r tolerance :
  contribution func (WorkQueue.whole func r l tolerance)
  == - contribution func (WorkQueue.whole func l r tolerance).
Proof.
  unfold contribution, q1, q2, h, fd, fe, d, e, c, WorkQueue.whole.
  cbn [left right f_left f_mid f_right tol dadd dsub dmul ddiv dlit exact].
  rewrite (Qplus_comm_eq r l).
  rewrite (Qplus_comm_eq r ((l + r) / inject_Z 2)).
  rewrite (Qplus_comm_eq ((l + r) / inject_Z 2) l).
  change (inject_Z 2) with (2 # 1). change (inject_Z 4) with (4 # 1).
  change (inject_Z 6) with (6 # 1). change (inject_Z 12) with (12 # 1).
  change (inject_Z 15) with (15 # 1).
  field.
Qed.

(** X23. In arithmetic without rounding an interval given backwards, or
    narrower than 1e-12, is not refined: [right - left] is below the floor,
    so it is accepted at once whatever the integrand and the tolerance, and
    the value is the five-point estimate of the whole interval, which is
    the opposite of the estimate of the interval taken forwards. The
    recursion returns it at the first level, the work-queue program exits
    on convergence, and the flagged program returns it. *)
Theorem reversed_domain_is_not_refined (func : Q -> Q) l r tolerance :
  r - l < 1 # 1000000000000 ->
  accepts func (WorkQueue.whole func l r tolerance) = true
  /\ simpson_rec 1 func (WorkQueue.whole func l r tolerance)
     = Some (contribution func (WorkQueue.whole func l r tolerance))
  /\ contribution func (WorkQueue.whole func l r tolerance)
     == - contribution func (WorkQueue.whole func r l tolerance)
  /\ (forall n schedule (q : Queue Q) quad,
        Z.of_nat (length (entry q)) = MAXQUEUE ->
        WorkQueue.integrate func l r tolerance (S n) schedule q <> WorkQueue.Returns quad)
  /\ (forall n (q : Queue Q),
        Z.of_nat (length (entry q)) = MAXQUEUE ->
        Flagged.integrate func l r tolerance (S n) (replicate 11 0%nat ++ seq 1 n) q
        = Flagged.Returns (0 + contribution func (WorkQueue.whole func l r tolerance))).
Proof.
  intros Hw.
  assert (Hacc : accepts func (WorkQueue.whole func l r tolerance) = true).
  { apply below_floor_accepts. unfold width, WorkQueue.whole. cbn [left right]. lra. }
  split; [exact Hacc|].
  split; [cbn [simpson_rec]; rewrite Hacc; reflexivity|].
  split; [rewrite contribution_reversed; ring|].
  split.
  - intros n schedule q quad Hlen.
    apply integrate_never_returns; [exact Hlen|lia|exact Hacc].
  - intros n q Hlen. apply (flagged_accepted_run func l r tolerance n q Hlen Hacc).
Qed.

End Reversed.

(** ** Bounds of the array and progress of the locks *)

Section Bounds.

Context {T : Type} `{Double T}.
Implicit Types (func : T -> T).

Lemma enqueue_defined interval (queue_p : Queue T) :
  queue_wf queue_p -> enqueue interval queue_p <> Undefined.
Proof.
  intros [Hlen Htop]. unfold enqueue.
  destruct (decide (top queue_p = MAXQUEUE - 1)); [discriminate|].
  cbv zeta. destruct (decide _) as [_|Hn]; [discriminate|lia].
Qed.

Lemma dequeue_defined (queue_p : Queue T) :
  queue_wf queue_p -> dequeue queue_p <> Undefined.
Proof.
  intros Hwf. destruct (isempty queue_p) eqn:Hempty.
  - apply bool_decide_eq_true in Hempty. unfold dequeue.
    destruct (decide (top queue_p = -1)); [discriminate|contradiction].
  - destruct (dequeue_ok _ Hwf Hempty) as (i & -> & _). discriminate.
Qed.

Lemma enqueue_overflow interval (queue_p : Queue T) e :
  enqueue interval queue_p = Exit e -> size queue_p = MAXQUEUE.
Proof.
  unfold enqueue, size. destruct (decide (top queue_p = MAXQUEUE - 1)); [lia|].
  cbv zeta. destruct (decide _); discriminate.
Qed.

Lemma queue_step_in_bounds func t (s : WorkQueue.State T) :
  counted s ->
  (WorkQueue.step func t s = WorkQueue.Undef ->
   WorkQueue.total_processed s = INT_MAX \/ INT_MAX < WorkQueue.total s + 2)
  /\ (forall s', WorkQueue.step func t s = WorkQueue.Exited QueueOverflow s' ->
      MAXQUEUE - 1 <= size (WorkQueue.queue s)).
Proof.
  intros (Hwf & _). unfold WorkQueue.step.
  destruct (WorkQueue.threads s !! t) as [[|interval|]|]; try (split; intros; discriminate).
  - unfold WorkQueue.poll. destruct (isempty (WorkQueue.queue s)); [split; intros; discriminate|].
    pose proof (dequeue_defined _ Hwf) as Hdef.
    destruct (dequeue (WorkQueue.queue s)) as [[i q']| |] eqn:Hdeq;
      [split; intros; discriminate| |contradiction].
    apply dequeue_exit in Hdeq as ->. split; intros; discriminate.
  - unfold WorkQueue.process. destruct (accepts func interval).
    + destruct (decide _) as [Hmax|_]; [split; [auto|intros; discriminate]|].
      cbv zeta. destruct (decide _); split; intros; discriminate.
    + pose proof (enqueue_defined (i1 func interval) _ Hwf) as Hdef1.
      destruct (enqueue (i1 func interval) (WorkQueue.queue s)) as [queue1| |] eqn:E1;
        [| |contradiction].
      * pose proof (enqueue_defined (i2 func interval) _ (enqueue_wf _ _ _ Hwf E1)) as Hdef2.
        destruct (enqueue (i2 func interval) queue1) as [queue2| |] eqn:E2; [| |contradiction].
        -- destruct (decide _); split; intros; try discriminate. right. assumption.
        -- split; [discriminate|]. intros s' _.
           apply enqueue_overflow in E2. rewrite (size_enqueue _ _ _ E1) in E2. lia.
      * split; [discriminate|]. intros s' _. apply enqueue_overflow in E1. lia.
Qed.

Lemma flagged_step_in_bounds func t (s : Flagged.State T) :
  guarded s ->
  (Flagged.step func t s = Flagged.Undef ->
   Flagged.total_processed s = INT_MAX \/ INT_MAX < Flagged.total s + 2)
  /\ (forall s', Flagged.step func t s = Flagged.Exited QueueOverflow s' ->
      size (Flagged.queue s) = MAXQUEUE).
Proof.
  intros Hg. pose proof Hg as (Hwf & _). unfold Flagged.step.
  destruct (Flagged.threads s !! t) as [th|] eqn:Ht; [|split; intros; discriminate].
  destruct th as [| | | | |work|interval| |interval|interval| |];
    try (split; intros; discriminate).
  - destruct (Flagged.queue_access s); split; intros; discriminate.
  - destruct (guarded_dequeues func t s Hg Ht) as (i & q' & -> & _).
    split; intros; discriminate.
  - destruct (decide _); split; intros; discriminate.
  - destruct (Flagged.done s); [split; intros; discriminate|].
    destruct work; split; intros; discriminate.
  - destruct (decide _); split; intros; try discriminate. auto.
  - destruct (Flagged.queue_update s); [split; intros; discriminate|].
    pose proof (enqueue_defined (i1 func interval) _ Hwf) as Hdef.
    destruct (enqueue (i1 func interval) (Flagged.queue s)) as [q'| |] eqn:E1;
      [split; intros; discriminate| |contradiction].
    split; [discriminate|]. intros s' _. eauto using enqueue_overflow.
  - pose proof (enqueue_defined (i2 func interval) _ Hwf) as Hdef.
    destruct (enqueue (i2 func interval) (Flagged.queue s)) as [q'| |] eqn:E2;
      [split; intros; discriminate| |contradiction].
    split; [discriminate|]. intros s' _. eauto using enqueue_overflow.
  - destruct (decide _); split; intros; try discriminate. auto.
Qed.

(** X24. The array of the queue is never accessed outside its bounds. In
    every state that a schedule reaches in either work-queue program, a
    step has no defined behaviour only if a counter leaves the range of
    [int] ([total_processed] is [INT_MAX], or [total + 2] exceeds it); and
    the process exits with "Maximum queue size exceeded" only from a queue
    that is full, or in the first program one below full (the second
    [enqueue] of a split). *)
Theorem array_accesses_stay_in_bounds func l r tolerance num_threads (q q' : Queue T) :
  Z.of_nat (length (entry q)) = MAXQUEUE ->
  enqueue (WorkQueue.whole func l r tolerance) (init q) = Ok q' ->
  (forall schedule s t,
     WorkQueue.exec func schedule (WorkQueue.start num_threads q' 1 0)
     = WorkQueue.Running s ->
     (WorkQueue.step func t s = WorkQueue.Undef ->
      WorkQueue.total_processed s = INT_MAX \/ INT_MAX < WorkQueue.total s + 2)
     /\ (forall s', WorkQueue.step func t s = WorkQueue.Exited QueueOverflow s' ->
         MAXQUEUE - 1 <= size (WorkQueue.queue s)))
  /\ (forall schedule s t,
        Flagged.exec func schedule (Flagged.start num_threads q' 1 0)
        = Flagged.Running s ->
        (Flagged.step func t s = Flagged.Undef ->
         Flagged.total_processed s = INT_MAX \/ INT_MAX < Flagged.total s + 2)
        /\ (forall s', Flagged.step func t s = Flagged.Exited QueueOverflow s' ->
            size (Flagged.queue s) = MAXQUEUE)).
Proof.
  intros Hlen Henq. split.
  - intros schedule s t Hexec. apply queue_step_in_bounds.
    eapply exec_counted; [|exact Hexec].
    eapply seeded_counted; [exact Hlen|]. exists q'. eauto.
  - intros schedule s t Hexec. apply flagged_step_in_bounds.
    eapply exec_guarded; [|exact Hexec].
    apply start_guarded. eapply enqueue_wf; [|exact Henq]. apply init_wf, Hlen.
Qed.

End Bounds.

(** ** A run that fills the queue *)

Section PileFacts.
Context {T : Type} `{Double T}.
Implicit Types (func : T -> T).

Lemma pile_length (stuck half blank : Interval T) k :
  (k < Z.to_nat MAXQUEUE)%nat ->
  Z.of_nat (length (pile stuck half blank k)) = MAXQUEUE.
Proof.
  intros Hk. unfold pile. rewrite length_app, length_replicate. cbn [length].
  rewrite length_replicate. unfold MAXQUEUE in *. lia.
Qed.

Lemma pile_between_length (half blank : Interval T) k :
  (k < Z.to_nat MAXQUEUE)%nat ->
  Z.of_nat (length (pile_between half blank k)) = MAXQUEUE.
Proof.
  intros Hk. unfold pile_between. rewrite length_app, !length_replicate.
  unfold MAXQUEUE in *. lia.
Qed.

Lemma pile_last (stuck half blank : Interval T) k :
  pile stuck half blank k !! k = Some stuck.
Proof.
  unfold pile. rewrite lookup_app_r by (rewrite length_replicate; lia).
  rewrite length_replicate, Nat.sub_diag. reflexivity.
Qed.

Lemma pile_first (stuck half blank : Interval T) k :
  <[k := half]> (pile stuck half blank k) = pile_between half blank k.
Proof.
  unfold pile, pile_between.
  rewrite insert_app_r_alt by (rewrite length_replicate; lia).
  rewrite length_replicate, Nat.sub_diag. cbn [insert list_insert].
  change (replicate k half ++ half :: ?l) with (replicate k half ++ [half] ++ l).
  rewrite app_assoc, <- replicate_S_end. reflexivity.
Qed.

Lemma pile_second (stuck half blank : Interval T) k :
  (S k < Z.to_nat MAXQUEUE)%nat ->
  <[S k := stuck]> (pile_between half blank k) = pile stuck half blank (S k).
Proof.
  intros Hk. unfold pile, pile_between.
  replace (Z.to_nat MAXQUEUE - S k)%nat with (S (Z.to_nat MAXQUEUE - S (S k))) by lia.
  rewrite insert_app_r_alt by (rewrite length_replicate; lia).
  rewrite length_replicate, Nat.sub_diag. reflexivity.
Qed.

Lemma pile_enqueue_first (stuck half blank : Interval T) k :
  (k < Z.to_nat MAXQUEUE)%nat ->
  enqueue half {| entry := pile stuck half blank k; top := Z.of_nat k - 1 |}
  = Ok {| entry := pile_between half blank k; top := Z.of_nat k |}.
Proof.
  intros Hk. unfold enqueue. cbn [top entry].
  destruct (decide (Z.of_nat k - 1 = MAXQUEUE - 1)); [unfold MAXQUEUE in *; lia|].
  cbv zeta. rewrite pile_length by lia.
  destruct (decide (0 <= Z.of_nat k - 1 + 1 < MAXQUEUE)); [|unfold MAXQUEUE in *; lia].
  replace (Z.of_nat k - 1 + 1) with (Z.of_nat k) by lia.
  rewrite Nat2Z.id, pile_first. reflexivity.
Qed.

Lemma pile_enqueue_second (stuck half blank : Interval T) k :
  (S k < Z.to_nat MAXQUEUE)%nat ->
  enqueue stuck {| entry := pile_between half blank k; top := Z.of_nat k |}
  = Ok {| entry := pile stuck half blank (S k); top := Z.of_nat (S k) |}.
Proof.
  intros Hk. unfold enqueue. cbn [top entry].
  destruct (decide (Z.of_nat k = MAXQUEUE - 1)); [unfold MAXQUEUE in *; lia|].
  cbv zeta. rewrite pile_between_length by lia.
  destruct (decide (0 <= Z.of_nat k + 1 < MAXQUEUE)); [|unfold MAXQUEUE in *; lia].
  replace (Z.of_nat k + 1) with (Z.of_nat (S k)) by lia.
  rewrite Nat2Z.id, pile_second by lia. reflexivity.
Qed.

(** The array is full: there is no room for the right half. *)
Lemma pile_enqueue_full (stuck half blank : Interval T) k :
  Z.of_nat (S k) = MAXQUEUE ->
  enqueue stuck {| entry := pile_between half blank k; top := Z.of_nat k |}
  = Exit QueueOverflow.
Proof.
  intros Hk. unfold enqueue. cbn [top entry].
  destruct (decide (Z.of_nat k = MAXQUEUE - 1)); [reflexivity|lia].
Qed.

Lemma pile_dequeue (stuck half blank : Interval T) k :
  dequeue {| entry := pile stuck half blank k; top := Z.of_nat k |}
  = Ok (stuck, {| entry := pile stuck half blank k; top := Z.of_nat k - 1 |}).
Proof.
  unfold dequeue. cbn [top entry].
  destruct (decide (Z.of_nat k = -1)); [lia|].
  destruct (decide (Z.of_nat k < 0)); [lia|].
  rewrite Nat2Z.id, pile_last. reflexivity.
Qed.

Lemma pile_poll func (stuck half blank : Interval T) k :
  WorkQueue.step func 0 (piled stuck half blank k)
  = WorkQueue.Running (piled_holding stuck half blank k).
Proof.
  unfold WorkQueue.step, piled. cbn [WorkQueue.threads lookup list_lookup].
  unfold WorkQueue.poll. cbn [WorkQueue.queue]. rewrite pile_dequeue.
  unfold isempty. cbn [top]. rewrite bool_decide_eq_false_2 by lia. reflexivity.
Qed.

Lemma pile_split func (stuck blank : Interval T) k :
  accepts func stuck = false -> i2 func stuck = stuck ->
  (S k < Z.to_nat MAXQUEUE)%nat ->
  WorkQueue.step func 0 (piled_holding stuck (i1 func stuck) blank k)
  = WorkQueue.Running (piled stuck (i1 func stuck) blank (S k)).
Proof.
  intros Hrej Hsame Hk.
  unfold WorkQueue.step, piled_holding. cbn [WorkQueue.threads lookup list_lookup].
  unfold WorkQueue.process. rewrite Hrej, Hsame. cbn [WorkQueue.queue].
  rewrite pile_enqueue_first, pile_enqueue_second by lia.
  cbn [WorkQueue.total WorkQueue.total_processed WorkQueue.quad WorkQueue.threads
       WorkQueue.accepted].
  destruct (decide (INT_MAX < 2 * Z.of_nat k + 1 + 2));
    [unfold MAXQUEUE, INT_MAX in *; lia|].
  unfold piled. f_equal. f_equal. lia.
Qed.

Lemma pile_run func (stuck blank : Interval T) n :
  accepts func stuck = false -> i2 func stuck = stuck ->
  (n < Z.to_nat MAXQUEUE)%nat ->
  WorkQueue.exec func (replicate (2 * n) 0%nat) (piled stuck (i1 func stuck) blank 0)
  = WorkQueue.Running (piled stuck (i1 func stuck) blank n).
Proof.
  intros Hrej Hsame. induction n as [|n IH]; intros Hn; [reflexivity|].
  replace (2 * S n)%nat with (2 * n + 2)%nat by lia.
  rewrite replicate_add, exec_app, IH by lia.
  cbn [replicate WorkQueue.exec].
  rewrite pile_poll, (pile_split _ _ _ _ Hrej Hsame Hn). reflexivity.
Qed.

Lemma pile_run_holding func (stuck blank : Interval T) n :
  accepts func stuck = false -> i2 func stuck = stuck ->
  (n < Z.to_nat MAXQUEUE)%nat ->
  WorkQueue.exec func (replicate (2 * n) 0 ++ [0])%nat
    (piled stuck (i1 func stuck) blank 0)
  = WorkQueue.Running (piled_holding stuck (i1 func stuck) blank n).
Proof.
  intros Hrej Hsame Hn.
  rewrite exec_app, (pile_run _ _ _ _ Hrej Hsame Hn).
  cbn [WorkQueue.exec]. rewrite pile_poll. reflexivity.
Qed.

(** With the array full but for one slot, the second [enqueue] of the split
    finds no room. *)
Lemma pile_overflow func (stuck blank : Interval T) k :
  accepts func stuck = false -> i2 func stuck = stuck ->
  Z.of_nat (S k) = MAXQUEUE ->
  exists s',
    WorkQueue.step func 0 (piled_holding stuck (i1 func stuck) blank k)
    = WorkQueue.Exited QueueOverflow s'.
Proof.
  intros Hrej Hsame Hk.
  unfold WorkQueue.step, piled_holding. cbn [WorkQueue.threads lookup list_lookup].
  unfold WorkQueue.process. rewrite Hrej, Hsame. cbn [WorkQueue.queue].
  rewrite pile_enqueue_first by lia. rewrite pile_enqueue_full by exact Hk.
  eexists. reflexivity.
Qed.

(** The same in the flagged program: a split takes seven steps of the loop. *)
Lemma flagged_pile_extract func (stuck half blank : Interval T) k :
  accepts func stuck = false ->
  Flagged.exec func (replicate 4 0%nat)
    (flagged_piled (pile stuck half blank k) (Z.of_nat k) k false false Flagged.AtWhile)
  = Flagged.Running
      (flagged_piled (pile stuck half blank k) (Z.of_nat k - 1) k false false
         (Flagged.EnterUpdate stuck)).
Proof.
  intros Hrej. unfold flagged_piled. cbn [replicate Flagged.exec].
  unfold Flagged.step at 1.
  cbn [Flagged.move Flagged.threads lookup list_lookup insert list_insert
       Flagged.queue_access Flagged.queue Flagged.total Flagged.total_processed
       Flagged.quad Flagged.done Flagged.queue_update].
  unfold Flagged.step at 1.
  cbn [Flagged.move Flagged.threads lookup list_lookup insert list_insert
       Flagged.queue_access Flagged.queue Flagged.total Flagged.total_processed
       Flagged.quad Flagged.done Flagged.queue_update].
  unfold isempty. cbn [top]. rewrite (bool_decide_eq_false_2 (Z.of_nat k = -1)) by lia.
  unfold Flagged.step at 1.
  cbn [Flagged.threads lookup list_lookup insert list_insert
       Flagged.queue_access Flagged.queue Flagged.total Flagged.total_processed
       Flagged.quad Flagged.done Flagged.queue_update].
  rewrite pile_dequeue.
  unfold Flagged.step at 1.
  cbn [Flagged.move Flagged.threads lookup list_lookup insert list_insert
       Flagged.queue_access Flagged.queue Flagged.total Flagged.total_processed
       Flagged.quad Flagged.done Flagged.queue_update].
  rewrite Hrej. reflexivity.
Qed.

Lemma flagged_pile_first func (stuck blank : Interval T) k :
  (k < Z.to_nat MAXQUEUE)%nat ->
  Flagged.step func 0
    (flagged_piled (pile stuck (i1 func stuck) blank k) (Z.of_nat k - 1) k false false
       (Flagged.EnterUpdate stuck))
  = Flagged.Running
      (flagged_piled (pile_between (i1 func stuck) blank k) (Z.of_nat k) k false true
         (Flagged.PushSecond stuck)).
Proof.
  intros Hk. unfold flagged_piled, Flagged.step.
  cbn [Flagged.threads lookup list_lookup insert list_insert
       Flagged.queue_access Flagged.queue Flagged.total Flagged.total_processed
       Flagged.quad Flagged.done Flagged.queue_update].
  rewrite pile_enqueue_first by lia. reflexivity.
Qed.

Lemma flagged_pile_second func (stuck blank : Interval T) k :
  i2 func stuck = stuck -> (S k < Z.to_nat MAXQUEUE)%nat ->
  Flagged.exec func (replicate 2 0%nat)
    (flagged_piled (pile_between (i1 func stuck) blank k) (Z.of_nat k) k false true
       (Flagged.PushSecond stuck))
  = Flagged.Running
      (flagged_piled (pile stuck (i1 func stuck) blank (S k)) (Z.of_nat (S k)) (S k)
         false false Flagged.AtWhile).
Proof.
  intros Hsame Hk. unfold flagged_piled. cbn [replicate Flagged.exec].
  unfold Flagged.step at 1.
  cbn [Flagged.threads lookup list_lookup insert list_insert
       Flagged.queue_access Flagged.queue Flagged.total Flagged.total_processed
       Flagged.quad Flagged.done Flagged.queue_update].
  rewrite Hsame, pile_enqueue_second by lia.
  unfold Flagged.step at 1.
  cbn [Flagged.threads lookup list_lookup insert list_insert
       Flagged.queue_access Flagged.queue Flagged.total Flagged.total_processed
       Flagged.quad Flagged.done Flagged.queue_update].
  destruct (decide (INT_MAX < 2 * Z.of_nat k + 1 + 2));
    [unfold MAXQUEUE, INT_MAX in *; lia|].
  do 2 f_equal. lia.
Qed.

Lemma flagged_pile_run func (stuck blank : Interval T) n :
  accepts func stuck = false -> i2 func stuck = stuck ->
  (n < Z.to_nat MAXQUEUE)%nat ->
  Flagged.exec func (replicate (7 * n) 0%nat)
    (flagged_piled (pile stuck (i1 func stuck) blank 0) 0 0 false false Flagged.AtWhile)
  = Flagged.Running
      (flagged_piled (pile stuck (i1 func stuck) blank n) (Z.of_nat n) n false false
         Flagged.AtWhile).
Proof.
  intros Hrej Hsame. induction n as [|n IH]; intros Hn; [reflexivity|].
  replace (7 * S n)%nat with (7 * n + (4 + (1 + 2)))%nat by lia.
  rewrite !replicate_add, flagged_exec_app, IH by lia.
  rewrite flagged_exec_app, (flagged_pile_extract _ _ _ _ _ Hrej).
  rewrite flagged_exec_app. change (replicate 1 0%nat) with [0%nat].
  cbn [Flagged.exec].
  rewrite flagged_pile_first by lia.
  apply flagged_pile_second; [exact Hsame|exact Hn].
Qed.

Lemma flagged_pile_run_between func (stuck blank : Interval T) n :
  accepts func stuck = false -> i2 func stuck = stuck ->
  (n < Z.to_nat MAXQUEUE)%nat ->
  Flagged.exec func (replicate (7 * n) 0 ++ replicate 4 0 ++ [0])%nat
    (flagged_piled (pile stuck (i1 func stuck) blank 0) 0 0 false false Flagged.AtWhile)
  = Flagged.Running
      (flagged_piled (pile_between (i1 func stuck) blank n) (Z.of_nat n) n false true
         (Flagged.PushSecond stuck)).
Proof.
  intros Hrej Hsame Hn.
  rewrite flagged_exec_app, (flagged_pile_run _ _ _ _ Hrej Hsame Hn).
  rewrite flagged_exec_app, (flagged_pile_extract _ _ _ _ _ Hrej).
  cbn [Flagged.exec]. rewrite flagged_pile_first by exact Hn. reflexivity.
Qed.

(** With the array full, the second [enqueue] of the split finds no room. *)
Lemma flagged_pile_overflow func (stuck blank : Interval T) k :
  i2 func stuck = stuck -> Z.of_nat (S k) = MAXQUEUE ->
  Flagged.step func 0
    (flagged_piled (pile_between (i1 func stuck) blank k) (Z.of_nat k) k false true
       (Flagged.PushSecond stuck))
  = Flagged.Exited QueueOverflow
      (flagged_piled (pile_between (i1 func stuck) blank k) (Z.of_nat k) k false true
         (Flagged.PushSecond stuck)).
Proof.
  intros Hsame Hk. unfold flagged_piled, Flagged.step.
  cbn [Flagged.threads lookup list_lookup insert list_insert
       Flagged.queue_access Flagged.queue Flagged.total Flagged.total_processed
       Flagged.quad Flagged.done Flagged.queue_update].
  rewrite Hsame, pile_enqueue_full by exact Hk. reflexivity.
Qed.

End PileFacts.

Section Progress.

Import Flagged.
Context {T : Type} `{Double T}.
Implicit Types (s : State T) (ths : list (Thread T)) (func : T -> T).

Lemma weigh_positive {A : Type} (w : A -> Z) l :
  0 < weigh w l -> exists t a, l !! t = Some a /\ 0 < w a.
Proof.
  induction l as [|x l IH]; [cbn; lia|].
  rewrite weigh_cons. intros Hpos.
  destruct (Z_lt_le_dec 0 (w x)) as [Hx|Hx].
  - exists 0%nat, x. auto.
  - destruct IH as (t & a & Ht & Ha); [lia|]. exists (S t), a. auto.
Qed.

(** A loop that has not left and does not wait moves. *)
Lemma step_moves func t s th :
  threads s !! t = Some th -> th <> Gone -> waiting s th = false ->
  step func t s <> Running s.
Proof.
  intros Ht Hgone Hwait Hstep.
  assert (Hlt : (t < length (threads s))%nat) by (eapply lookup_lt_Some, Ht).
  assert (Hmove : forall th' q tot proc qd dn acc upd,
            th' <> th ->
            Running {| queue := q; total := tot; total_processed := proc; quad := qd;
                       done := dn; queue_access := acc; queue_update := upd;
                       threads := <[t := th']> (threads s) |} <> Running s).
  { intros th' q tot proc qd dn acc upd Hne [= Heq].
    apply (f_equal threads) in Heq. cbn in Heq.
    apply (f_equal (fun l => l !! t)) in Heq.
    rewrite list_lookup_insert_eq in Heq by exact Hlt. congruence. }
  unfold step in Hstep. rewrite Ht in Hstep.
  destruct th as [| | | | |work|interval| |interval|interval| |];
    cbn [waiting] in Hwait; try contradiction; try rewrite Hwait in Hstep;
    unfold move in Hstep;
    repeat match type of Hstep with
           | context [if decide ?P then _ else _] => destruct (decide P); try discriminate
           | context [if ?b then _ else _] => destruct b eqn:?; try discriminate
           | context [match ?w with Some _ => _ | None => _ end] =>
               destruct w eqn:?; try discriminate
           | context [match ?w with Ok _ => _ | Exit _ => _ | Undefined => _ end] =>
               destruct w as [[? ?]| |] eqn:?; try discriminate
           end;
    revert Hstep; apply Hmove; discriminate.
Qed.

(** X25. The two locks of the flagged program do not deadlock: in every
    state that a schedule reaches, unless every loop has left, some loop
    that does not wait for a lock is in its loop, and its step changes the
    state. *)
Theorem locks_do_not_deadlock func l r tolerance num_threads (q q' : Queue T) schedule s :
  Z.of_nat (length (entry q)) = MAXQUEUE ->
  enqueue (WorkQueue.whole func l r tolerance) (init q) = Ok q' ->
  exec func schedule (start num_threads q' 1 0) = Running s ->
  forallb gone (threads s) = false ->
  exists t th,
    threads s !! t = Some th /\ th <> Gone /\ waiting s th = false
    /\ step func t s <> Running s.
Proof.
  intros Hlen Henq Hexec Hall.
  pose proof (enqueue_wf _ _ _ (init_wf q Hlen) Henq) as Hwf.
  assert (Hg : guarded s).
  { eapply exec_guarded; [|exact Hexec]. apply start_guarded, Hwf. }
  assert (Hc : flagged_counted s).
  { eapply exec_flagged_counted; [|exact Hexec]. apply start_flagged_counted; [exact Hwf|].
    rewrite (size_enqueue _ _ _ Henq). reflexivity. }
  destruct Hg as (_ & Haccess & _). destruct Hc as (_ & _ & _ & _ & Hupdate & _).
  assert (Hfree : exists t th, threads s !! t = Some th /\ th <> Gone /\ waiting s th = false).
  { destruct (queue_access s) eqn:Ha.
    - destruct (weigh_positive in_access (threads s)) as (t & th & Ht & Hth); [lia|].
      exists t, th. split; [exact Ht|].
      destruct th; cbn in Hth; try lia; split; (discriminate || reflexivity).
    - destruct (queue_update s) eqn:Hu.
      + destruct (weigh_positive in_update (threads s)) as (t & th & Ht & Hth); [lia|].
        exists t, th. split; [exact Ht|].
        destruct th; cbn in Hth; try lia; split; (discriminate || reflexivity).
      + assert (Hsome : exists t th, threads s !! t = Some th /\ th <> Gone).
        { clear -Hall. induction (threads s) as [|th ths IH]; [discriminate|].
          cbn [forallb] in Hall. apply andb_false_iff in Hall as [Hth|Hths].
          - exists 0%nat, th. split; [reflexivity|]. intros ->. discriminate.
          - destruct (IH Hths) as (t & th' & Ht & Hne). exists (S t), th'. auto. }
        destruct Hsome as (t & th & Ht & Hne). exists t, th.
        split; [exact Ht|]. split; [exact Hne|].
        destruct th; cbn [waiting]; auto. }
  destruct Hfree as (t & th & Ht & Hne & Hwait).
  exists t, th. eauto using step_moves.
Qed.

End Progress.

(** ** Instances *)

Lemma any_schedule_returns_the_recursive_value_witness :
  Z.of_nat (length (entry ExactSample.fresh)) = MAXQUEUE /\ (0 < 2)%nat
  /\ exists v,
       simpson_rec (S (levels ExactSample.unit_interval)) ExactSample.quartic
         ExactSample.unit_interval = Some v
       /\ WorkQueue.exec ExactSample.quartic [0; 0; 1; 1]%nat ExactSample.seeded_state
          = WorkQueue.Running (ExactSample.after [0; 0; 1; 1]%nat)
       /\ live (WorkQueue.queue (ExactSample.after [0; 0; 1; 1]%nat))
          = [i1 ExactSample.quartic ExactSample.unit_interval]
       /\ (WorkQueue.quad (ExactSample.after [0; 0; 1; 1]%nat)
           + sum_of (value ExactSample.quartic)
               (live (WorkQueue.queue (ExactSample.after [0; 0; 1; 1]%nat)))
           + sum_of (hand_value ExactSample.quartic)
               (WorkQueue.threads (ExactSample.after [0; 0; 1; 1]%nat)) == v)%Q
       /\ WorkQueue.integrate ExactSample.quartic 0%Q 1%Q (1 # 1000)%Q 2
            ExactRuns.interleaved ExactSample.fresh
          = WorkQueue.Returns ExactRuns.interleaved_value
       /\ (ExactRuns.interleaved_value == v)%Q.
Proof.
  assert (Hlen : Z.of_nat (length (entry ExactSample.fresh)) = MAXQUEUE) by reflexivity.
  assert (Hn : (0 < 2)%nat) by lia.
  assert (Hseed : seeded ExactSample.quartic 0%Q 1%Q (1 # 1000)%Q 2 ExactSample.fresh
                    ExactSample.seeded_state).
  { eexists. split; reflexivity. }
  assert (Hexec : WorkQueue.exec ExactSample.quartic [0; 0; 1; 1]%nat
                    ExactSample.seeded_state
                  = WorkQueue.Running (ExactSample.after [0; 0; 1; 1]%nat))
    by (vm_compute; reflexivity).
  assert (Hret : WorkQueue.integrate ExactSample.quartic 0%Q 1%Q (1 # 1000)%Q 2
                   ExactRuns.interleaved ExactSample.fresh
                 = WorkQueue.Returns ExactRuns.interleaved_value)
    by (vm_compute; reflexivity).
  split; [exact Hlen|]. split; [exact Hn|].
  destruct (any_schedule_returns_the_recursive_value ExactSample.quartic 0%Q 1%Q
              (1 # 1000)%Q 2 ExactSample.fresh Hlen Hn) as (v & Hv & Hrun & Hquad).
  exists v. split; [exact Hv|]. split; [exact Hexec|].
  split; [vm_compute; reflexivity|].
  split; [exact (Hrun _ _ _ Hseed Hexec)|].
  split; [exact Hret|exact (Hquad _ _ Hret)].
Defined.

Lemma flagged_returns_an_accepted_interval_witness :
  Z.of_nat (length (entry Sample.fresh)) = MAXQUEUE /\ (0 < 3)%nat
  /\ accepts Sample.constant5 (Sample.domain Sample.constant5) = true
  /\ Flagged.integrate Sample.constant5 0%float 10%float dmicro 3
       (replicate 11 0%nat ++ seq 1 2) Sample.fresh
     = Flagged.Returns 50%float.
Proof.
  assert (Hlen : Z.of_nat (length (entry Sample.fresh)) = MAXQUEUE) by reflexivity.
  assert (Hn : (0 < 3)%nat) by lia.
  assert (Hacc : accepts Sample.constant5
                   (WorkQueue.whole Sample.constant5 0%float 10%float dmicro) = true)
    by (vm_compute; reflexivity).
  split; [exact Hlen|]. split; [exact Hn|]. split; [exact Hacc|].
  exact (proj2 (flagged_returns_an_accepted_interval _ _ _ _ _ _ Hlen Hn Hacc)).
Defined.

Lemma flagged_counters_witness :
  Z.of_nat (length (entry Sample.fresh)) = MAXQUEUE
  /\ enqueue (Sample.domain Sample.quartic) (init Sample.fresh)
     = Ok (Sample.seeded_queue (Sample.domain Sample.quartic))
  /\ Flagged.exec Sample.quartic FlaggedSample.two_splits FlaggedSample.seeded
     = Flagged.Running (FlaggedSample.after FlaggedSample.two_splits)
  /\ Z.odd (Flagged.total (FlaggedSample.after FlaggedSample.two_splits)) = true.
Proof.
  assert (Hlen : Z.of_nat (length (entry Sample.fresh)) = MAXQUEUE) by reflexivity.
  assert (Henq : enqueue (WorkQueue.whole Sample.quartic 0%float 10%float dmicro)
                   (init Sample.fresh)
                 = Ok (Sample.seeded_queue (Sample.domain Sample.quartic)))
    by reflexivity.
  assert (Hexec : Flagged.exec Sample.quartic FlaggedSample.two_splits
                    (Flagged.start 2 (Sample.seeded_queue (Sample.domain Sample.quartic)) 1 0)
                  = Flagged.Running (FlaggedSample.after FlaggedSample.two_splits))
    by (vm_compute; reflexivity).
  split; [exact Hlen|]. split; [exact Henq|]. split; [exact Hexec|].
  exact (proj1 (flagged_counters _ _ _ _ _ _ _ _ _ Hlen Henq Hexec)).
Defined.


Lemma cubics_are_accepted_at_once_witness :
  (0 < 1 # 1000)%Q
  /\ accepts ExactRuns.cube (WorkQueue.whole ExactRuns.cube 0%Q 2%Q (1 # 1000)%Q)
     = true
  /\ (contribution ExactRuns.cube (WorkQueue.whole ExactRuns.cube 0%Q 2%Q (1 # 1000)%Q)
      == primitive 0 0 0 1 0 0 2 - primitive 0 0 0 1 0 0 0)%Q.
Proof.
  assert (Htol : (0 < 1 # 1000)%Q) by reflexivity.
  split; [exact Htol|].
  destruct (cubics_are_accepted_at_once 0 0 0 1 0%Q 2%Q (1 # 1000)%Q Htol)
    as (Hacc & Hint & _).
  split; [exact Hacc|exact Hint].
Defined.

Lemma euler_closed_form_witness :
  (0 <= 3)%Z
  /\ (euler 0 (1 # 2) 1 3 == 1 + (0 - 1) * (1 - (1 # 2)) ^ 3)%Q.
Proof.
  assert (Hn : (0 <= 3)%Z) by lia.
  split; [exact Hn|].
  exact (proj1 (euler_closed_form 0%Q (1 # 2)%Q 1%Q 3 Hn)).
Defined.

Lemma task_bound_does_not_change_the_value_witness :
  TaskPool.simpson Sample.quartic Sample.unit_interval 0 16 TaskSample.right_first
  = TaskPool.Returns TaskSample.unit_value
  /\ TaskPool.simpson Sample.quartic Sample.unit_interval 0 0 TaskSample.plain_calls
     = TaskPool.Returns TaskSample.unit_value
  /\ TaskPool.exec Sample.quartic 16 [[]; [true]] (TaskPool.Call Sample.unit_interval 0)
     = TaskPool.Running
         (TaskPool.Wait
            (TaskPool.Call (i1 Sample.quartic Sample.unit_interval) 1)
            (TaskPool.Value
               (contribution Sample.quartic (i2 Sample.quartic Sample.unit_interval))))
  /\ simpson_rec 2 Sample.quartic Sample.unit_interval = Some TaskSample.unit_value
  /\ exists fuel,
       simpson_rec fuel Sample.quartic Sample.unit_interval = Some TaskSample.unit_value.
Proof.
  assert (Hret : TaskPool.simpson Sample.quartic Sample.unit_interval 0 16
                   TaskSample.right_first
                 = TaskPool.Returns TaskSample.unit_value) by (vm_compute; reflexivity).
  split; [exact Hret|]. split; [vm_compute; reflexivity|].
  split; [vm_compute; reflexivity|]. split; [vm_compute; reflexivity|].
  exact (proj1 (task_bound_does_not_change_the_value Sample.quartic Sample.unit_interval
                  0 16) _ _ Hret).
Defined.

Lemma tasks_are_created_near_the_root_witness :
  tasks_created 2 Sample.quartic Sample.unit_interval 0 16 = Some 2
  /\ 0 <= 2 <= 2 ^ (Z.max 0 (16 - 0) + 1) - 2.
Proof.
  assert (Hk : tasks_created 2 Sample.quartic Sample.unit_interval 0 16 = Some 2)
    by (vm_compute; reflexivity).
  split; [exact Hk|].
  exact (proj1 (tasks_are_created_near_the_root _ _ _ _ _ _ Hk)).
Defined.

Lemma stack_runs_witness :
  queue_wf (init Sample.fresh)
  /\ exists q1 q2,
       enqueue_all [Sample.domain Sample.quartic; Sample.unit_interval] (init Sample.fresh)
       = Ok q1
       /\ dequeue_n 2 q1
          = Ok ([Sample.unit_interval; Sample.domain Sample.quartic], q2)
       /\ live q2 = [].
Proof.
  assert (Hwf : queue_wf (init Sample.fresh)) by (apply init_wf; reflexivity).
  split; [exact Hwf|].
  destruct (stack_runs (init Sample.fresh)
              [Sample.domain Sample.quartic; Sample.unit_interval] 0 Hwf)
    as (Hfit & _).
  destruct Hfit as (q1 & q2 & Hall & _ & Hrun & Hlive & _); [vm_compute; discriminate|].
  exists q1, q2. auto.
Defined.

Lemma unresolvable_intervals_witness :
  doomed Sample.quartic nan_bounded
  /\ nan_bounded (WorkQueue.whole Sample.quartic PrimFloat.nan 1%float dmicro)
  /\ forall fuel,
       simpson_rec fuel Sample.quartic
         (WorkQueue.whole Sample.quartic PrimFloat.nan 1%float dmicro) = None.
Proof.
  assert (Hd : doomed Sample.quartic nan_bounded) by apply nan_bounded_doomed.
  assert (HP : nan_bounded (WorkQueue.whole Sample.quartic PrimFloat.nan 1%float dmicro))
    by (left; vm_compute; reflexivity).
  split; [exact Hd|]. split; [exact HP|].
  exact (proj1 (unresolvable_intervals _ _ _ _ _ Hd HP)).
Defined.

Lemma nan_boundary_is_never_resolved_witness :
  (nan 0%float \/ nan (0 / 0)%float)
  /\ accepts Sample.constant5 (WorkQueue.whole Sample.constant5 0%float (0 / 0)%float dmicro)
     = false.
Proof.
  assert (Hnan : nan 0%float \/ nan (0 / 0)%float) by (right; vm_compute; reflexivity).
  split; [exact Hnan|].
  exact (proj1 (nan_boundary_is_never_resolved Sample.constant5 _ _ dmicro Hnan)).
Defined.

Lemma reversed_domain_is_not_refined_witness :
  (0 - 1 < 1 # 1000000000000)%Q
  /\ accepts ExactSample.quartic (WorkQueue.whole ExactSample.quartic 1%Q 0%Q (1 # 1000)%Q)
     = true.
Proof.
  assert (Hw : (0 - 1 < 1 # 1000000000000)%Q) by reflexivity.
  split; [exact Hw|].
  exact (proj1 (reversed_domain_is_not_refined ExactSample.quartic 1%Q 0%Q (1 # 1000)%Q Hw)).
Defined.

Lemma array_accesses_stay_in_bounds_witness :
  Z.of_nat (length (entry Sample.fresh)) = MAXQUEUE
  /\ enqueue (WorkQueue.whole Sample.shifted Sample.two53 Sample.two53_next dmicro)
       (init Sample.fresh)
     = Ok (Sample.seeded_queue Sample.stalled)
  /\ WorkQueue.exec Sample.shifted (replicate (2 * Z.to_nat 9999) 0 ++ [0])%nat
       (WorkQueue.start 1 (Sample.seeded_queue Sample.stalled) 1 0)
     = WorkQueue.Running
         (piled_holding Sample.stalled (i1 Sample.shifted Sample.stalled) Sample.blank
            (Z.to_nat 9999))
  /\ (exists s',
        WorkQueue.step Sample.shifted 0
          (piled_holding Sample.stalled (i1 Sample.shifted Sample.stalled) Sample.blank
             (Z.to_nat 9999))
        = WorkQueue.Exited QueueOverflow s')
  /\ MAXQUEUE - 1
     <= size (WorkQueue.queue
                (piled_holding Sample.stalled (i1 Sample.shifted Sample.stalled)
                   Sample.blank (Z.to_nat 9999)))
  /\ Flagged.exec Sample.shifted
       (replicate (7 * Z.to_nat 9999) 0 ++ replicate 4 0 ++ [0])%nat
       (Flagged.start 1 (Sample.seeded_queue Sample.stalled) 1 0)
     = Flagged.Running
         (flagged_piled (pile_between (i1 Sample.shifted Sample.stalled) Sample.blank
                           (Z.to_nat 9999))
            9999 (Z.to_nat 9999) false true (Flagged.PushSecond Sample.stalled))
  /\ (exists s',
        Flagged.step Sample.shifted 0
          (flagged_piled (pile_between (i1 Sample.shifted Sample.stalled) Sample.blank
                            (Z.to_nat 9999))
             9999 (Z.to_nat 9999) false true (Flagged.PushSecond Sample.stalled))
        = Flagged.Exited QueueOverflow s')
  /\ size (Flagged.queue
             (flagged_piled (pile_between (i1 Sample.shifted Sample.stalled) Sample.blank
                               (Z.to_nat 9999))
                9999 (Z.to_nat 9999) false true (Flagged.PushSecond Sample.stalled)))
     = MAXQUEUE.
Proof.
  assert (Hlen : Z.of_nat (length (entry Sample.fresh)) = MAXQUEUE) by reflexivity.
  assert (Henq : enqueue (WorkQueue.whole Sample.shifted Sample.two53 Sample.two53_next
                            dmicro) (init Sample.fresh)
                 = Ok (Sample.seeded_queue Sample.stalled)) by reflexivity.
  assert (Hrej : accepts Sample.shifted Sample.stalled = false) by (vm_compute; reflexivity).
  assert (Hsame : i2 Sample.shifted Sample.stalled = Sample.stalled)
    by (vm_compute; reflexivity).
  assert (Hk : (Z.to_nat 9999 < Z.to_nat MAXQUEUE)%nat) by (unfold MAXQUEUE; lia).
  assert (Hfull : Z.of_nat (S (Z.to_nat 9999)) = MAXQUEUE) by (unfold MAXQUEUE; lia).
  assert (Hexec : WorkQueue.exec Sample.shifted (replicate (2 * Z.to_nat 9999) 0 ++ [0])%nat
                    (WorkQueue.start 1 (Sample.seeded_queue Sample.stalled) 1 0)
                  = WorkQueue.Running
                      (piled_holding Sample.stalled (i1 Sample.shifted Sample.stalled)
                         Sample.blank (Z.to_nat 9999)))
    by exact (pile_run_holding Sample.shifted Sample.stalled Sample.blank (Z.to_nat 9999)
                Hrej Hsame Hk).
  destruct (pile_overflow Sample.shifted Sample.stalled Sample.blank (Z.to_nat 9999)
              Hrej Hsame Hfull) as [s1 Hout].
  assert (Hflag : Flagged.exec Sample.shifted
                    (replicate (7 * Z.to_nat 9999) 0 ++ replicate 4 0 ++ [0])%nat
                    (Flagged.start 1 (Sample.seeded_queue Sample.stalled) 1 0)
                  = Flagged.Running
                      (flagged_piled
                         (pile_between (i1 Sample.shifted Sample.stalled) Sample.blank
                            (Z.to_nat 9999))
                         9999 (Z.to_nat 9999) false true
                         (Flagged.PushSecond Sample.stalled)))
    by exact (flagged_pile_run_between Sample.shifted Sample.stalled Sample.blank
                (Z.to_nat 9999) Hrej Hsame Hk).
  assert (Hflagout :
            Flagged.step Sample.shifted 0
              (flagged_piled
                 (pile_between (i1 Sample.shifted Sample.stalled) Sample.blank
                    (Z.to_nat 9999))
                 9999 (Z.to_nat 9999) false true (Flagged.PushSecond Sample.stalled))
            = Flagged.Exited QueueOverflow
                (flagged_piled
                   (pile_between (i1 Sample.shifted Sample.stalled) Sample.blank
                      (Z.to_nat 9999))
                   9999 (Z.to_nat 9999) false true (Flagged.PushSecond Sample.stalled)))
    by exact (flagged_pile_overflow Sample.shifted Sample.stalled Sample.blank
                (Z.to_nat 9999) Hsame Hfull).
  destruct (array_accesses_stay_in_bounds Sample.shifted _ _ _ 1 _ _ Hlen Henq)
    as [Hqueue Hflagged].
  split; [exact Hlen|]. split; [exact Henq|]. split; [exact Hexec|].
  split; [exists s1; exact Hout|].
  split; [exact (proj2 (Hqueue _ _ 0%nat Hexec) _ Hout)|].
  split; [exact Hflag|]. split; [eexists; exact Hflagout|].
  exact (proj2 (Hflagged _ _ 0%nat Hflag) _ Hflagout).
Defined.

Lemma locks_do_not_deadlock_witness :
  Z.of_nat (length (entry Sample.fresh)) = MAXQUEUE
  /\ (Flagged.exec Sample.quartic FlaggedSample.contended_access FlaggedSample.seeded
      = Flagged.Running (FlaggedSample.after FlaggedSample.contended_access)
      /\ Flagged.queue_access (FlaggedSample.after FlaggedSample.contended_access) = true
      /\ Flagged.threads (FlaggedSample.after FlaggedSample.contended_access)
         = [Flagged.Extract; Flagged.Entering]
      /\ Flagged.step Sample.quartic 1 (FlaggedSample.after FlaggedSample.contended_access)
         = Flagged.Running (FlaggedSample.after FlaggedSample.contended_access)
      /\ exists t th,
           Flagged.threads (FlaggedSample.after FlaggedSample.contended_access) !! t
           = Some th
           /\ waiting (FlaggedSample.after FlaggedSample.contended_access) th = false
           /\ Flagged.step Sample.quartic t
                (FlaggedSample.after FlaggedSample.contended_access)
              <> Flagged.Running (FlaggedSample.after FlaggedSample.contended_access))
  /\ (Flagged.exec Sample.quartic FlaggedSample.contended_update FlaggedSample.seeded
      = Flagged.Running (FlaggedSample.after FlaggedSample.contended_update)
      /\ Flagged.queue_update (FlaggedSample.after FlaggedSample.contended_update) = true
      /\ Flagged.threads (FlaggedSample.after FlaggedSample.contended_update)
         = [Flagged.PushSecond (i2 Sample.quartic (Sample.domain Sample.quartic));
            Flagged.EnterUpdate (i1 Sample.quartic (Sample.domain Sample.quartic))]
      /\ Flagged.step Sample.quartic 1 (FlaggedSample.after FlaggedSample.contended_update)
         = Flagged.Running (FlaggedSample.after FlaggedSample.contended_update)
      /\ exists t th,
           Flagged.threads (FlaggedSample.after FlaggedSample.contended_update) !! t
           = Some th
           /\ waiting (FlaggedSample.after FlaggedSample.contended_update) th = false
           /\ Flagged.step Sample.quartic t
                (FlaggedSample.after FlaggedSample.contended_update)
              <> Flagged.Running (FlaggedSample.after FlaggedSample.contended_update)).
Proof.
  assert (Hlen : Z.of_nat (length (entry Sample.fresh)) = MAXQUEUE) by reflexivity.
  assert (Henq : enqueue (WorkQueue.whole Sample.quartic 0%float 10%float dmicro)
                   (init Sample.fresh)
                 = Ok (Sample.seeded_queue (Sample.domain Sample.quartic)))
    by reflexivity.
  assert (Haccess : Flagged.exec Sample.quartic FlaggedSample.contended_access
                      (Flagged.start 2 (Sample.seeded_queue (Sample.domain Sample.quartic))
                         1 0)
                    = Flagged.Running (FlaggedSample.after FlaggedSample.contended_access))
    by (vm_compute; reflexivity).
  assert (Hupdate : Flagged.exec Sample.quartic FlaggedSample.contended_update
                      (Flagged.start 2 (Sample.seeded_queue (Sample.domain Sample.quartic))
                         1 0)
                    = Flagged.Running (FlaggedSample.after FlaggedSample.contended_update))
    by (vm_compute; reflexivity).
  assert (Hin1 : forallb Flagged.gone
                   (Flagged.threads (FlaggedSample.after FlaggedSample.contended_access))
                 = false) by (vm_compute; reflexivity).
  assert (Hin2 : forallb Flagged.gone
                   (Flagged.threads (FlaggedSample.after FlaggedSample.contended_update))
                 = false) by (vm_compute; reflexivity).
  split; [exact Hlen|]. split.
  - split; [exact Haccess|].
    split; [vm_compute; reflexivity|]. split; [vm_compute; reflexivity|].
    split; [vm_compute; reflexivity|].
    destruct (locks_do_not_deadlock _ _ _ _ _ _ _ _ _ Hlen Henq Haccess Hin1)
      as (t & th & Ht & _ & Hfree & Hmove).
    exists t, th. split; [exact Ht|]. split; [exact Hfree|exact Hmove].
  - split; [exact Hupdate|].
    split; [vm_compute; reflexivity|]. split; [vm_compute; reflexivity|].
    split; [vm_compute; reflexivity|].
    destruct (locks_do_not_deadlock _ _ _ _ _ _ _ _ _ Hlen Henq Hupdate Hin2)
      as (t & th & Ht & _ & Hfree & Hmove).
    exists t, th. split; [exact Ht|]. split; [exact Hfree|exact Hmove].
Defined.


Lemma quad_is_the_sum_of_the_accepted_witness :
  Z.of_nat (length (entry Sample.fresh)) = MAXQUEUE
  /\ seeded Sample.quartic 0%float 1%float 0x1p-10%float 2 Sample.fresh QueueSample.seeded
  /\ WorkQueue.exec Sample.quartic QueueSample.shared QueueSample.seeded
     = WorkQueue.Running (QueueSample.after QueueSample.shared)
  /\ WorkQueue.quad (QueueSample.after QueueSample.shared)
     = accumulate Sample.quartic
         (WorkQueue.accepted (QueueSample.after QueueSample.shared)) 0%float.
Proof.
  assert (Hlen : Z.of_nat (length (entry Sample.fresh)) = MAXQUEUE) by reflexivity.
  assert (Hseed : seeded Sample.quartic 0%float 1%float 0x1p-10%float 2 Sample.fresh
                    QueueSample.seeded).
  { eexists. split; reflexivity. }
  assert (Hexec : WorkQueue.exec Sample.quartic QueueSample.shared QueueSample.seeded
                  = WorkQueue.Running (QueueSample.after QueueSample.shared))
    by (vm_compute; reflexivity).
  split; [exact Hlen|]. split; [exact Hseed|]. split; [exact Hexec|].
  exact (proj1 (quad_is_the_sum_of_the_accepted _ _ _ _ _ _ _ _ _ Hlen Hseed Hexec)).
Defined.

Lemma accepted_intervals_are_the_leaves_witness :
  Z.of_nat (length (entry Sample.fresh)) = MAXQUEUE /\ (0 < 2)%nat
  /\ seeded Sample.quartic 0%float 1%float 0x1p-10%float 2 Sample.fresh QueueSample.seeded
  /\ WorkQueue.exec Sample.quartic QueueSample.shared QueueSample.seeded
     = WorkQueue.Running (QueueSample.after QueueSample.shared)
  /\ leaves 2 Sample.quartic Sample.unit_interval
     = Some [i1 Sample.quartic Sample.unit_interval;
             i2 Sample.quartic Sample.unit_interval]
  /\ WorkQueue.accepted (QueueSample.after QueueSample.shared)
     ≡ₚ [i1 Sample.quartic Sample.unit_interval;
         i2 Sample.quartic Sample.unit_interval].
Proof.
  assert (Hlen : Z.of_nat (length (entry Sample.fresh)) = MAXQUEUE) by reflexivity.
  assert (Hn : (0 < 2)%nat) by lia.
  assert (Hseed : seeded Sample.quartic 0%float 1%float 0x1p-10%float 2 Sample.fresh
                    QueueSample.seeded).
  { eexists. split; reflexivity. }
  assert (Hexec : WorkQueue.exec Sample.quartic QueueSample.shared QueueSample.seeded
                  = WorkQueue.Running (QueueSample.after QueueSample.shared))
    by (vm_compute; reflexivity).
  assert (Hls : leaves 2 Sample.quartic
                  (WorkQueue.whole Sample.quartic 0%float 1%float 0x1p-10%float)
                = Some [i1 Sample.quartic Sample.unit_interval;
                        i2 Sample.quartic Sample.unit_interval])
    by (vm_compute; reflexivity).
  assert (Hall : forallb WorkQueue.finished
                   (WorkQueue.threads (QueueSample.after QueueSample.shared)) = true)
    by (vm_compute; reflexivity).
  split; [exact Hlen|]. split; [exact Hn|]. split; [exact Hseed|].
  split; [exact Hexec|]. split; [exact Hls|].
  exact (proj1 (proj2 (accepted_intervals_are_the_leaves _ _ _ _ _ _ _ _ _ _ _
                         Hlen Hn Hseed Hexec Hls) Hall)).
Defined.
